(** * weni-ai/webchat-service: a shallow embedding of the chat core

    The development follows the JavaScript sources component by component:
    - [Js]: the fragment of JavaScript values the components inspect;
    - [MessageProcessor]: core/MessageProcessor.js (streaming variant);
    - [RetryStrategy]: network/RetryStrategy.js;
    - [WebSocketManager]: core/WebSocketManager.js;
    - [StorageManager]: core/StorageManager.js;
    - [Helpers]: [generateSessionId] of utils/helpers.js;
    - [SessionManager]: core/SessionManager.js;
    - [ConversationLog]: the conversation log of its later variant;
    - [HistoryManager]: the merge of modules/HistoryManager.js, whose result
      the service hands to the conversation log.

    Conventions. A finite JavaScript number is an exact rational ([Q],
    [Qc]) and arithmetic on numbers is exact; the rounding of doubles and
    the two infinities are outside the model.  Where a statement depends
    on the value of such an operation (the retry delays, the trimming of
    the conversation log), it is made for operands on which the double
    arithmetic of the code gives the same value: integers of moderate
    size, or multiples of 2^-20 of bounded size.
    [Date.now()], [Math.random()] and generated identifiers are read from an
    explicit environment.  Every [emit] is appended to an event log kept in
    the component state, oldest event first. *)

From Stdlib Require Import ZArith QArith Qcanon Qround Qminmax Qpower Lqa.
From Stdlib Require Import Ascii DecimalString.
From stdpp Require Import base option list gmap strings numbers sorting.

Local Open Scope Z_scope.

(** ** JavaScript values *)

Module Js.

Inductive number :=
| NaN
| Fin (q : Qc).

Inductive value :=
| Undefined
| Null
| Bool (b : bool)
| Num (n : number)
| Str (s : string).

(** [ToBoolean]. *)
Definition truthy (v : value) : bool :=
  match v with
  | Undefined | Null => false
  | Bool b => b
  | Num NaN => false
  | Num (Fin q) => bool_decide (q ≠ Qc_of_Z 0)
  | Str s => bool_decide (s ≠ "")
  end.

(** Truthiness of a property that is either absent or a string. *)
Definition truthy_str (o : option string) : bool :=
  match o with
  | Some s => bool_decide (s ≠ "")
  | None => false
  end.

(** [a || b] on such properties. *)
Definition or_str (a b : option string) : option string :=
  if truthy_str a then a else b.

(** A property copied under [if (x) target.x = x]. *)
Definition if_truthy (o : option string) : option string :=
  if truthy_str o then o else None.

Definition int (z : Z) : value := Num (Fin (Qc_of_Z z)).

End Js.

(** ** core/MessageProcessor.js *)

Module MessageProcessor.

(** Modelled from the spec: the constants [STREAM_INITIAL_SEQUENCE] and
    [MESSAGE_ID_PREFIX] of utils/constants.js, which is not among the
    sources ("Sequence numbers are strictly positive integers, starting at
    1"; "bound to the prefixed id msg_<raw-id>"). *)
Definition STREAM_INITIAL_SEQUENCE : Z := 1.
Definition MESSAGE_ID_PREFIX : string := "msg_".

Record ListMessage := { list_items : option (list string) }.
Record CtaMessage := { url : option string; display_text : option string }.

(** The [message] property of an inbound frame. *)
Record InnerMessage := {
  m_type : option string;
  m_text : Js.value;
  m_messageId : option string;
  m_media : option string;
  m_quick_replies : option string;
  m_list_message : option ListMessage;
  m_cta_message : option CtaMessage;
}.

(** A parsed inbound frame.  [raw_type], [raw_v] and [raw_seq] are [Some]
    exactly when the key is present ([key in raw]). *)
Record RawMessage := {
  raw_type : option string;
  raw_v : option string;
  raw_seq : option Js.value;
  raw_id : option string;
  raw_from : option string;
  raw_timestamp : option Z;
  raw_persisted : bool;
  raw_metadata : option string;
  raw_message : option InnerMessage;
}.

Inductive Direction := incoming | outgoing.
Inductive Status := pending | sent | delivered | streaming | error.

(** A normalized message.  The id is [None] for JavaScript [null], which
    a synthetic stream opened by a delta without id produces. *)
Record Message := {
  msg_id : option string;
  msg_type : string;
  msg_text : option Js.value;
  msg_timestamp : Z;
  msg_direction : Direction;
  msg_status : Status;
  msg_persisted : bool;
  msg_media : option string;
  msg_quick_replies : option string;
  msg_list_message : option ListMessage;
  msg_cta_message : option CtaMessage;
  msg_metadata : option string;
}.

Inductive Event :=
| MESSAGE_UNKNOWN (raw : RawMessage)
| ERROR (what : string)
| MESSAGE_PROCESSED (m : Message)
| MESSAGE_UPDATED (id : option string) (text : string) (status : Status)
                  (timestamp : Z)
| TYPING_START
| TYPING_STOP
| THINKING_START
| THINKING_STOP.

Record Stream := { text : string; timestamp : Z }.

Record Config := {
  messageDelay : Z;
  typingDelay : Z;
  enableTypingIndicator : bool;
  typingTimeout : Z;
}.

(** What one call of [process] reads from its surroundings: the clock and
    the identifier [generateMessageId()] would return. *)
Record Env := { now : Z; freshMessageId : string }.

(** The fields of the processor.  [typingTimer] is [Some d] while a timer
    of [d] ms is armed.  [nextExpectedSeq] starts at the integer constant
    and is only ever incremented, hence an integer; the keys of
    [pendingDeltas] are whatever numbers the frames carried. *)
Record State := {
  queue : list Message;
  isProcessing : bool;
  typingTimer : option Z;
  isTypingActive : bool;
  isThinkingActive : bool;
  streams : gmap (option string) Stream;
  recentIncomingTexts : list string;
  activeStreamId : option string;
  pendingDeltas : gmap Qc string;
  nextExpectedSeq : Z;
  streamMessageEmitted : bool;
  events : list Event;
}.

Definition set_queue q st :=
  {| queue := q; isProcessing := isProcessing st;
     typingTimer := typingTimer st; isTypingActive := isTypingActive st;
     isThinkingActive := isThinkingActive st; streams := streams st;
     recentIncomingTexts := recentIncomingTexts st;
     activeStreamId := activeStreamId st;
     pendingDeltas := pendingDeltas st;
     nextExpectedSeq := nextExpectedSeq st;
     streamMessageEmitted := streamMessageEmitted st;
     events := events st |}.

Definition set_isProcessing b st :=
  {| queue := queue st; isProcessing := b;
     typingTimer := typingTimer st; isTypingActive := isTypingActive st;
     isThinkingActive := isThinkingActive st; streams := streams st;
     recentIncomingTexts := recentIncomingTexts st;
     activeStreamId := activeStreamId st;
     pendingDeltas := pendingDeltas st;
     nextExpectedSeq := nextExpectedSeq st;
     streamMessageEmitted := streamMessageEmitted st;
     events := events st |}.

Definition set_typingTimer t st :=
  {| queue := queue st; isProcessing := isProcessing st;
     typingTimer := t; isTypingActive := isTypingActive st;
     isThinkingActive := isThinkingActive st; streams := streams st;
     recentIncomingTexts := recentIncomingTexts st;
     activeStreamId := activeStreamId st;
     pendingDeltas := pendingDeltas st;
     nextExpectedSeq := nextExpectedSeq st;
     streamMessageEmitted := streamMessageEmitted st;
     events := events st |}.

Definition set_isTypingActive b st :=
  {| queue := queue st; isProcessing := isProcessing st;
     typingTimer := typingTimer st; isTypingActive := b;
     isThinkingActive := isThinkingActive st; streams := streams st;
     recentIncomingTexts := recentIncomingTexts st;
     activeStreamId := activeStreamId st;
     pendingDeltas := pendingDeltas st;
     nextExpectedSeq := nextExpectedSeq st;
     streamMessageEmitted := streamMessageEmitted st;
     events := events st |}.

Definition set_isThinkingActive b st :=
  {| queue := queue st; isProcessing := isProcessing st;
     typingTimer := typingTimer st; isTypingActive := isTypingActive st;
     isThinkingActive := b; streams := streams st;
     recentIncomingTexts := recentIncomingTexts st;
     activeStreamId := activeStreamId st;
     pendingDeltas := pendingDeltas st;
     nextExpectedSeq := nextExpectedSeq st;
     streamMessageEmitted := streamMessageEmitted st;
     events := events st |}.

Definition set_streams s st :=
  {| queue := queue st; isProcessing := isProcessing st;
     typingTimer := typingTimer st; isTypingActive := isTypingActive st;
     isThinkingActive := isThinkingActive st; streams := s;
     recentIncomingTexts := recentIncomingTexts st;
     activeStreamId := activeStreamId st;
     pendingDeltas := pendingDeltas st;
     nextExpectedSeq := nextExpectedSeq st;
     streamMessageEmitted := streamMessageEmitted st;
     events := events st |}.

Definition set_recentIncomingTexts l st :=
  {| queue := queue st; isProcessing := isProcessing st;
     typingTimer := typingTimer st; isTypingActive := isTypingActive st;
     isThinkingActive := isThinkingActive st; streams := streams st;
     recentIncomingTexts := l;
     activeStreamId := activeStreamId st;
     pendingDeltas := pendingDeltas st;
     nextExpectedSeq := nextExpectedSeq st;
     streamMessageEmitted := streamMessageEmitted st;
     events := events st |}.

Definition set_pendingDeltas p st :=
  {| queue := queue st; isProcessing := isProcessing st;
     typingTimer := typingTimer st; isTypingActive := isTypingActive st;
     isThinkingActive := isThinkingActive st; streams := streams st;
     recentIncomingTexts := recentIncomingTexts st;
     activeStreamId := activeStreamId st;
     pendingDeltas := p;
     nextExpectedSeq := nextExpectedSeq st;
     streamMessageEmitted := streamMessageEmitted st;
     events := events st |}.

Definition set_nextExpectedSeq n st :=
  {| queue := queue st; isProcessing := isProcessing st;
     typingTimer := typingTimer st; isTypingActive := isTypingActive st;
     isThinkingActive := isThinkingActive st; streams := streams st;
     recentIncomingTexts := recentIncomingTexts st;
     activeStreamId := activeStreamId st;
     pendingDeltas := pendingDeltas st;
     nextExpectedSeq := n;
     streamMessageEmitted := streamMessageEmitted st;
     events := events st |}.

Definition set_streamMessageEmitted b st :=
  {| queue := queue st; isProcessing := isProcessing st;
     typingTimer := typingTimer st; isTypingActive := isTypingActive st;
     isThinkingActive := isThinkingActive st; streams := streams st;
     recentIncomingTexts := recentIncomingTexts st;
     activeStreamId := activeStreamId st;
     pendingDeltas := pendingDeltas st;
     nextExpectedSeq := nextExpectedSeq st;
     streamMessageEmitted := b;
     events := events st |}.

(** [this.emit(e)]. *)
Definition emit (e : Event) st :=
  {| queue := queue st; isProcessing := isProcessing st;
     typingTimer := typingTimer st; isTypingActive := isTypingActive st;
     isThinkingActive := isThinkingActive st; streams := streams st;
     recentIncomingTexts := recentIncomingTexts st;
     activeStreamId := activeStreamId st;
     pendingDeltas := pendingDeltas st;
     nextExpectedSeq := nextExpectedSeq st;
     streamMessageEmitted := streamMessageEmitted st;
     events := events st ++ [e] |}.

Definition _resetStreamState (streamId : option string) st :=
  {| queue := queue st; isProcessing := isProcessing st;
     typingTimer := typingTimer st; isTypingActive := isTypingActive st;
     isThinkingActive := isThinkingActive st; streams := streams st;
     recentIncomingTexts := recentIncomingTexts st;
     activeStreamId := streamId;
     pendingDeltas := ∅;
     nextExpectedSeq := STREAM_INITIAL_SEQUENCE;
     streamMessageEmitted := false;
     events := events st |}.

(** The processor as the constructor leaves it. *)
Definition init : State :=
  {| queue := []; isProcessing := false; typingTimer := None;
     isTypingActive := false; isThinkingActive := false; streams := ∅;
     recentIncomingTexts := []; activeStreamId := None;
     pendingDeltas := ∅; nextExpectedSeq := STREAM_INITIAL_SEQUENCE;
     streamMessageEmitted := false; events := [] |}.

(** *** Classification and normalization *)

(** [raw] is an object here; a frame that is not an object is classified
    ['unknown'] before any field is read. *)
Definition _extractMessageType (raw : RawMessage) : string :=
  if bool_decide (is_Some (raw_v raw)) && bool_decide (is_Some (raw_seq raw))
     && negb (bool_decide (is_Some (raw_type raw)))
  then "delta"
  else if Js.truthy_str (raw_type raw) then default "" (raw_type raw)
  else match raw_message raw with
       | Some m => if Js.truthy_str (m_type m) then default "" (m_type m)
                   else "unknown"
       | None => "unknown"
       end.

Definition _getMessageType (raw : RawMessage) : string :=
  if Js.truthy_str (raw_type raw) then default "" (raw_type raw)
  else match raw_message raw with
       | Some m =>
           if Js.truthy_str (m_type m) then default "" (m_type m)
           else if Js.truthy (m_text m) then "text"
           else if Js.truthy_str (m_media m) then "media"
           else "text"
       | None => "text"
       end.

Definition _getMessageIdFromRaw (raw : RawMessage) : option string :=
  let id := Js.or_str (raw_message raw ≫= m_messageId) (raw_id raw) in
  if Js.truthy_str id then Some (MESSAGE_ID_PREFIX +:+ default "" id)
  else None.

Definition has_list_items (lm : ListMessage) : bool :=
  match list_items lm with
  | Some items => bool_decide (1 ≤ length items)%nat
  | None => false
  end.

Definition has_cta (c : CtaMessage) : bool :=
  Js.truthy_str (url c) && Js.truthy_str (display_text c).

Definition _normalizeMessage (env : Env) (raw : RawMessage) : Message :=
  let inner := raw_message raw in
  {| msg_id :=
       Some (default (freshMessageId env)
               (Js.or_str (Js.or_str (inner ≫= m_messageId) (raw_id raw))
                          (Some (freshMessageId env))));
     msg_type := _getMessageType raw;
     msg_timestamp :=
       match raw_timestamp raw with
       | Some t => if bool_decide (t = 0) then now env else t
       | None => now env
       end;
     msg_direction := incoming;
     msg_status := delivered;
     msg_persisted := raw_persisted raw;
     msg_text :=
       match inner with
       | Some m => if Js.truthy (m_text m) then Some (m_text m) else None
       | None => None
       end;
     msg_media := Js.if_truthy (inner ≫= m_media);
     msg_quick_replies := Js.if_truthy (inner ≫= m_quick_replies);
     msg_list_message :=
       match inner ≫= m_list_message with
       | Some lm => if has_list_items lm then Some lm else None
       | None => None
       end;
     msg_cta_message :=
       match inner ≫= m_cta_message with
       | Some c => if has_cta c then Some c else None
       | None => None
       end;
     msg_metadata := Js.if_truthy (raw_metadata raw) |}.

Definition _validateMessage (m : Message) : bool :=
  bool_decide (msg_type m ≠ "").

(** *** Indicators and the dedup window *)

Definition _stopTyping (st : State) : State :=
  let st1 := set_typingTimer None st in
  let st2 := if isTypingActive st1
             then emit TYPING_STOP (set_isTypingActive false st1)
             else st1 in
  if isThinkingActive st2
  then emit THINKING_STOP (set_isThinkingActive false st2)
  else st2.

(** [if (this.isTypingActive || this.isThinkingActive) this._stopTyping()]. *)
Definition stopTypingIfActive (st : State) : State :=
  if isTypingActive st || isThinkingActive st then _stopTyping st else st.

Definition _isDuplicateIncomingText (text : string) (st : State) : bool :=
  if bool_decide (text = "") then false
  else bool_decide (text ∈ recentIncomingTexts st).

(** The argument is always a string at the one call site. *)
Definition _rememberIncomingText (text : string) (st : State) : State :=
  if bool_decide (text = "") then st
  else
    let l := recentIncomingTexts st ++ [text] in
    set_recentIncomingTexts
      (if bool_decide (5 < length l)%nat then drop (length l - 5) l else l)
      st.

(** *** The delivery queue *)

(** What happens after one message was shifted and emitted: with more
    messages queued the loop suspends at [await this._delay(...)], still
    marked as processing; otherwise it ends. *)
Definition deliver (m : Message) (rest : list Message) (st : State) : State :=
  let st1 := emit (MESSAGE_PROCESSED m) (set_queue rest st) in
  match rest with
  | [] => set_isProcessing false st1
  | _ :: _ => set_isProcessing true st1
  end.

(** The synchronous part of the [async] method, up to its first [await]. *)
Definition _processQueue (st : State) : State :=
  if isProcessing st then st
  else match queue st with
       | [] => st
       | m :: rest => deliver m rest st
       end.

(** One resumption of the suspended loop when its delay has elapsed. *)
Definition _processQueue_resume (st : State) : State :=
  match queue st with
  | [] => set_isProcessing false st
  | m :: rest => deliver m rest st
  end.

Definition enqueue (m : Message) (st : State) : State :=
  _processQueue (set_queue (queue st ++ [m]) st).

Definition clearQueue (st : State) : State :=
  set_isProcessing false (set_queue [] st).

Definition _processUserMessage (env : Env) (raw : RawMessage) (st : State)
  : State :=
  let message := _normalizeMessage env raw in
  if negb (_validateMessage message)
  then emit (ERROR "Invalid message format") st
  else
    let st1 := stopTypingIfActive st in
    if bool_decide (msg_type message = "message")
       && match msg_text message with
          | Some (Js.Str s) => _isDuplicateIncomingText s st1
          | _ => false
          end
    then st1
    else enqueue message st1.

(** *** Streaming assembly *)

Definition _processStreamStart (env : Env) (raw : RawMessage) (st : State)
  : State :=
  match _getMessageIdFromRaw raw with
  | None => emit (ERROR "stream_start received without id") st
  | Some messageId =>
      let st1 := _resetStreamState (Some messageId) st in
      set_streams
        (<[Some messageId := {| text := ""; timestamp := now env |}]>
           (streams st1)) st1
  end.

Definition _isValidSequenceNumber (seq : Js.value) : bool :=
  match seq with
  | Js.Num (Js.Fin q) => bool_decide (Qc_of_Z STREAM_INITIAL_SEQUENCE ≤ q)%Qc
  | _ => false
  end.

Definition _isFirstDelta (seq : Qc) (st : State) : bool :=
  bool_decide (nextExpectedSeq st = STREAM_INITIAL_SEQUENCE)
  && bool_decide (Qc_of_Z STREAM_INITIAL_SEQUENCE ≤ seq)%Qc.

Definition _createStreamingMessage (id : option string) (timestamp : Z)
  : Message :=
  {| msg_id := id; msg_type := "text"; msg_text := Some (Js.Str "");
     msg_timestamp := timestamp; msg_direction := incoming;
     msg_status := streaming; msg_persisted := false; msg_media := None;
     msg_quick_replies := None; msg_list_message := None;
     msg_cta_message := None; msg_metadata := None |}.

Definition _initializeSyntheticStream (env : Env) (raw : RawMessage)
  (st : State) : State :=
  let messageId := _getMessageIdFromRaw raw in
  let st1 := set_streamMessageEmitted true (_resetStreamState messageId st) in
  let timestamp := now env in
  let st2 :=
    set_streams (<[messageId := {| text := ""; timestamp := timestamp |}]>
                   (streams st1)) st1 in
  enqueue (_createStreamingMessage messageId timestamp) st2.

Definition _emitDeferredStreamMessage (env : Env) (st : State) : State :=
  let streamId := activeStreamId st in
  let timestamp :=
    match streams st !! streamId with
    | Some streamData =>
        if bool_decide (timestamp streamData = 0) then now env
        else timestamp streamData
    | None => now env
    end in
  enqueue (_createStreamingMessage streamId timestamp)
          (set_streamMessageEmitted true st).

Definition _handleFirstDelta (env : Env) (st : State) : State :=
  let st1 := stopTypingIfActive st in
  if negb (streamMessageEmitted st1)
  then _emitDeferredStreamMessage env st1
  else st1.

Definition _appendStreamContent (env : Env) (streamId : option string)
  (content : string) (st : State) : State :=
  match streams st !! streamId with
  | None => st
  | Some current =>
      let timestamp := now env in
      let mergedText := text current +:+ content in
      emit (MESSAGE_UPDATED streamId mergedText streaming timestamp)
           (set_streams
              (<[streamId := {| text := mergedText; timestamp := timestamp |}]>
                 (streams st)) st)
  end.

(** The [while] loop of [_applyPendingDeltas], unrolled at most [fuel]
    times. *)
Fixpoint applyPendingDeltas_loop (fuel : nat) (env : Env)
  (streamId : option string) (st : State) : State :=
  match fuel with
  | O => st
  | S fuel' =>
      match pendingDeltas st !! Qc_of_Z (nextExpectedSeq st) with
      | None => st
      | Some content =>
          let st1 :=
            set_pendingDeltas
              (delete (Qc_of_Z (nextExpectedSeq st)) (pendingDeltas st)) st in
          let st2 := _appendStreamContent env streamId content st1 in
          applyPendingDeltas_loop fuel' env streamId
            (set_nextExpectedSeq (nextExpectedSeq st2 + 1) st2)
      end
  end.

(** Every iteration deletes one entry of [pendingDeltas], so its size
    bounds the number of iterations; [applyPendingDeltas_exits] below
    shows that the loop condition is false on return. *)
Definition _applyPendingDeltas (env : Env) (streamId : option string)
  (st : State) : State :=
  applyPendingDeltas_loop (size (pendingDeltas st)) env streamId st.

Definition _processDeltaSequence (env : Env) (seq : Qc) (content : string)
  (st : State) : State :=
  let streamId := activeStreamId st in
  if bool_decide (seq = Qc_of_Z (nextExpectedSeq st)) then
    let st1 := _appendStreamContent env streamId content st in
    let st2 := set_nextExpectedSeq (nextExpectedSeq st1 + 1) st1 in
    _applyPendingDeltas env streamId st2
  else if bool_decide (Qc_of_Z (nextExpectedSeq st) < seq)%Qc then
    set_pendingDeltas (<[seq := content]> (pendingDeltas st)) st
  else st.

Definition _processDelta (env : Env) (raw : RawMessage) (st : State)
  : State :=
  let seq := default Js.Undefined (raw_seq raw) in
  let content := default "" (Js.or_str (raw_v raw) (Some "")) in
  if negb (_isValidSequenceNumber seq) then st
  else
    match seq with
    | Js.Num (Js.Fin q) =>
        let st1 := if negb (Js.truthy_str (activeStreamId st))
                   then _initializeSyntheticStream env raw st
                   else st in
        let st2 := if _isFirstDelta q st1
                   then _handleFirstDelta env st1
                   else st1 in
        _processDeltaSequence env q content st2
    | _ => st
    end.

Definition _cleanupStream (messageId : string) (st : State) : State :=
  let st1 := set_streams (delete (Some messageId) (streams st)) st in
  if bool_decide (activeStreamId st1 = Some messageId)
  then _resetStreamState None st1
  else st1.

Definition _processStreamEnd (env : Env) (raw : RawMessage) (st : State)
  : State :=
  match _getMessageIdFromRaw raw with
  | None => emit (ERROR "stream_end received without id") st
  | Some messageId =>
      let st1 := stopTypingIfActive st in
      let finalText :=
        match streams st1 !! Some messageId with
        | Some streamData => text streamData
        | None => ""
        end in
      let st2 :=
        emit (MESSAGE_UPDATED (Some messageId) finalText delivered (now env))
             st1 in
      _rememberIncomingText finalText (_cleanupStream messageId st2)
  end.

Definition _handleTypingIndicator (cfg : Config) (rawMessage : RawMessage)
  (st : State) : State :=
  if negb (enableTypingIndicator cfg) then st
  else if Js.truthy_str (activeStreamId st)
          && bool_decide (STREAM_INITIAL_SEQUENCE < nextExpectedSeq st)
  then st
  else
    let st1 := set_typingTimer None st in
    let st2 :=
      if bool_decide (raw_from rawMessage = Some "ai-assistant")
      then emit THINKING_START (set_isThinkingActive true st1)
      else emit TYPING_START (set_isTypingActive true st1) in
    set_typingTimer (Some (typingTimeout cfg)) st2.

(** [process(rawMessage)]: routing by the extracted type.  None of the
    modelled handlers throws, so the [catch] branch is not reached. *)
Definition process (cfg : Config) (env : Env) (rawMessage : RawMessage)
  (st : State) : State :=
  let messageType := _extractMessageType rawMessage in
  if String.eqb messageType "message" then _processUserMessage env rawMessage st
  else if String.eqb messageType "stream_start"
  then _processStreamStart env rawMessage st
  else if String.eqb messageType "delta" then _processDelta env rawMessage st
  else if String.eqb messageType "stream_end"
  then _processStreamEnd env rawMessage st
  else if String.eqb messageType "typing_start"
  then _handleTypingIndicator cfg rawMessage st
  else emit (MESSAGE_UNKNOWN rawMessage) st.

(** [processBatch]: the frames one after the other, each with its own
    reading of the environment. *)
Fixpoint processBatch (cfg : Config) (frames : list (Env * RawMessage))
  (st : State) : State :=
  match frames with
  | [] => st
  | (env, raw) :: rest => processBatch cfg rest (process cfg env raw st)
  end.

(** *** Frames of the wire format, for examples and statements *)

(** [{type: 'stream_start', id}] *)
Definition stream_start_frame (id : string) : RawMessage :=
  {| raw_type := Some "stream_start"; raw_v := None; raw_seq := None;
     raw_id := Some id; raw_from := None; raw_timestamp := None;
     raw_persisted := false; raw_metadata := None; raw_message := None |}.

(** [{v, seq}] *)
Definition delta_frame (seq : Js.value) (v : string) : RawMessage :=
  {| raw_type := None; raw_v := Some v; raw_seq := Some seq;
     raw_id := None; raw_from := None; raw_timestamp := None;
     raw_persisted := false; raw_metadata := None; raw_message := None |}.

(** [{type: 'stream_end', id}] *)
Definition stream_end_frame (id : option string) : RawMessage :=
  {| raw_type := Some "stream_end"; raw_v := None; raw_seq := None;
     raw_id := id; raw_from := None; raw_timestamp := None;
     raw_persisted := false; raw_metadata := None; raw_message := None |}.

(** [{type: 'typing_start', from}] *)
Definition typing_start_frame (from : option string) : RawMessage :=
  {| raw_type := Some "typing_start"; raw_v := None; raw_seq := None;
     raw_id := None; raw_from := from; raw_timestamp := None;
     raw_persisted := false; raw_metadata := None; raw_message := None |}.

(** [{type: 'message', message: {text}}] *)
Definition text_message_frame (t : string) : RawMessage :=
  {| raw_type := Some "message"; raw_v := None; raw_seq := None;
     raw_id := None; raw_from := None; raw_timestamp := None;
     raw_persisted := false; raw_metadata := None;
     raw_message :=
       Some {| m_type := None; m_text := Js.Str t; m_messageId := None;
               m_media := None; m_quick_replies := None;
               m_list_message := None; m_cta_message := None |} |}.

Definition stream_text (id : string) (st : State) : option string :=
  text <$> streams st !! Some id.

(** *** Observations *)

(** The events emitted between two states of one run: the log only grows
    at its end. *)
Definition emitted (before after : State) : list Event :=
  drop (length (events before)) (events after).

Definition is_MESSAGE_PROCESSED (e : Event) : bool :=
  match e with MESSAGE_PROCESSED _ => true | _ => false end.

Definition is_MESSAGE_UPDATED (e : Event) : bool :=
  match e with MESSAGE_UPDATED _ _ _ _ => true | _ => false end.

Definition is_ERROR (e : Event) : bool :=
  match e with ERROR _ => true | _ => false end.

(** [typing:stop] and [thinking:stop]. *)
Definition is_indicator_stop (e : Event) : bool :=
  match e with
  | TYPING_STOP | THINKING_STOP => true
  | _ => false
  end.

End MessageProcessor.

(** ** network/RetryStrategy.js *)

Module RetryStrategy.

Local Open Scope Q_scope.

Record Config := {
  baseDelay : Q;
  maxDelay : Q;
  factor : Q;
  jitter : bool;
  maxJitter : Q;
}.

(** The object given to the constructor; a key may be absent. *)
Record Options := {
  opt_baseDelay : option Q;
  opt_maxDelay : option Q;
  opt_factor : option Q;
  opt_jitter : option bool;
  opt_maxJitter : option Q;
}.

(** [{ baseDelay: config.baseDelay || 1000, ..., ...config }]: the
    spread comes last, so a key that is present keeps the value it was
    given, whatever that is, and an absent key gets the default. *)
Definition make_config (o : Options) : Config :=
  {| baseDelay := default 1000 (opt_baseDelay o);
     maxDelay := default 30000 (opt_maxDelay o);
     factor := default 2 (opt_factor o);
     jitter := default true (opt_jitter o);
     maxJitter := default 1000 (opt_maxJitter o) |}.

Record State := { attempts : Z }.

Definition new : State := {| attempts := 0 |}.

(** [random] is the value [Math.random()] returns, in [0, 1).  The
    product and the sum are exact here and rounded in the code, where
    they stay within the same bounds as long as those are integers below
    2^53: rounding does not pass a number that is a double itself. *)
Definition _addJitter (cfg : Config) (random delay : Q) : Q :=
  let jitterAmount := random * Qmin delay (maxJitter cfg) in
  delay + jitterAmount.

(** [Math.pow] at an integer exponent is [Qpower]; a zero factor with a
    negative exponent is outside the model.  Power, product and minimum
    are exact here.  The code computes them in doubles, with the same
    result when [baseDelay], [factor] and [maxDelay] are integers below
    2^31 (the range of a timer delay), [baseDelay] and [factor] at least
    1, and the attempt number is not negative: the product is then either
    exact or, once it has left the range of exact integers, still above
    [maxDelay].  A base delay of 0 is left out since 0 times an overflowed
    power is not a number. *)
Definition getDelay (cfg : Config) (attempt : option Z) (random : Q)
  (st : State) : Z :=
  let attemptNumber := default (attempts st) attempt in
  let exponentialDelay := baseDelay cfg * factor cfg ^ attemptNumber in
  let delay := Qmin exponentialDelay (maxDelay cfg) in
  let delay := if jitter cfg then _addJitter cfg random delay else delay in
  Qfloor delay.

Definition next (cfg : Config) (random : Q) (st : State) : Z * State :=
  let delay := getDelay cfg None random st in
  (delay, {| attempts := (attempts st + 1)%Z |}).

Definition reset (st : State) : State := {| attempts := 0 |}.

Definition getAttempts (st : State) : Z := attempts st.

Definition shouldRetry (maxAttempts : Z) (st : State) : bool :=
  bool_decide (attempts st < maxAttempts)%Z.

(** [getDelaySequence]; [randoms i] is what the i-th call of
    [Math.random()] returns. *)
Definition getDelaySequence (cfg : Config) (maxAttempts : nat)
  (randoms : nat → Q) (st : State) : list Z :=
  (λ i : nat, getDelay cfg (Some (Z.of_nat i)) (randoms i) st) <$> seq 0 maxAttempts.

(** The capped exponential delay before jitter and rounding. *)
Definition capped (cfg : Config) (n : Z) : Q :=
  Qmin (baseDelay cfg * factor cfg ^ n) (maxDelay cfg).

End RetryStrategy.

(** ** core/WebSocketManager.js *)

Module WebSocketManager.

Inductive Status := disconnected | connecting | connected | reconnecting | error.

Inductive ReadyState := CONNECTING | OPEN | CLOSING | CLOSED.

#[global] Instance Status_eq_dec : EqDecision Status.
Proof. solve_decision. Defined.

Inductive Event :=
| CONNECTION_STATUS_CHANGED (s : Status)
| CONNECTED
| DISCONNECTED
| RECONNECTING (attempt : Z)
| ERROR.

(** The fields [_handleDisconnect] and the reconnection logic work on;
    [autoReconnect], [maxReconnectAttempts], [reconnectInterval] and
    [pingInterval] are the entries of [this.config].  A timer field is
    [Some d] when it holds the handle of a timer of [d] ms; the field of
    the reconnect timer keeps the handle when the timer has fired. *)
Record State := {
  autoReconnect : bool;
  maxReconnectAttempts : Z;
  reconnectInterval : Z;
  pingInterval : Z;
  socket : option ReadyState;
  status : Status;
  reconnectAttempts : Z;
  reconnectTimer : option Z;
  pingTimer : option Z;
  isRegistered : bool;
  retryStrategy : option (RetryStrategy.Config * RetryStrategy.State);
  events : list Event;
}.

Definition emit (e : Event) (st : State) : State :=
  {| autoReconnect := autoReconnect st;
     maxReconnectAttempts := maxReconnectAttempts st;
     reconnectInterval := reconnectInterval st;
     pingInterval := pingInterval st; socket := socket st;
     status := status st; reconnectAttempts := reconnectAttempts st;
     reconnectTimer := reconnectTimer st; pingTimer := pingTimer st;
     isRegistered := isRegistered st; retryStrategy := retryStrategy st;
     events := events st ++ [e] |}.

(** [this.status = s] followed by the status-changed event. *)
Definition set_status (s : Status) (st : State) : State :=
  emit (CONNECTION_STATUS_CHANGED s)
    {| autoReconnect := autoReconnect st;
       maxReconnectAttempts := maxReconnectAttempts st;
       reconnectInterval := reconnectInterval st;
       pingInterval := pingInterval st; socket := socket st;
       status := s; reconnectAttempts := reconnectAttempts st;
       reconnectTimer := reconnectTimer st; pingTimer := pingTimer st;
       isRegistered := isRegistered st; retryStrategy := retryStrategy st;
       events := events st |}.

Definition set_timers (reconnect ping : option Z) (st : State) : State :=
  {| autoReconnect := autoReconnect st;
     maxReconnectAttempts := maxReconnectAttempts st;
     reconnectInterval := reconnectInterval st;
     pingInterval := pingInterval st; socket := socket st;
     status := status st; reconnectAttempts := reconnectAttempts st;
     reconnectTimer := reconnect; pingTimer := ping;
     isRegistered := isRegistered st; retryStrategy := retryStrategy st;
     events := events st |}.

Definition set_isRegistered (b : bool) (st : State) : State :=
  {| autoReconnect := autoReconnect st;
     maxReconnectAttempts := maxReconnectAttempts st;
     reconnectInterval := reconnectInterval st;
     pingInterval := pingInterval st; socket := socket st;
     status := status st; reconnectAttempts := reconnectAttempts st;
     reconnectTimer := reconnectTimer st; pingTimer := pingTimer st;
     isRegistered := b; retryStrategy := retryStrategy st;
     events := events st |}.

Definition set_reconnectAttempts (n : Z) (st : State) : State :=
  {| autoReconnect := autoReconnect st;
     maxReconnectAttempts := maxReconnectAttempts st;
     reconnectInterval := reconnectInterval st;
     pingInterval := pingInterval st; socket := socket st;
     status := status st; reconnectAttempts := n;
     reconnectTimer := reconnectTimer st; pingTimer := pingTimer st;
     isRegistered := isRegistered st; retryStrategy := retryStrategy st;
     events := events st |}.

Definition set_retryStrategy
  (r : option (RetryStrategy.Config * RetryStrategy.State)) (st : State)
  : State :=
  {| autoReconnect := autoReconnect st;
     maxReconnectAttempts := maxReconnectAttempts st;
     reconnectInterval := reconnectInterval st;
     pingInterval := pingInterval st; socket := socket st;
     status := status st; reconnectAttempts := reconnectAttempts st;
     reconnectTimer := reconnectTimer st; pingTimer := pingTimer st;
     isRegistered := isRegistered st; retryStrategy := r;
     events := events st |}.

Definition set_socket (autoRec : bool) (s : option ReadyState) (st : State)
  : State :=
  {| autoReconnect := autoRec;
     maxReconnectAttempts := maxReconnectAttempts st;
     reconnectInterval := reconnectInterval st;
     pingInterval := pingInterval st; socket := s;
     status := status st; reconnectAttempts := reconnectAttempts st;
     reconnectTimer := reconnectTimer st; pingTimer := pingTimer st;
     isRegistered := isRegistered st; retryStrategy := retryStrategy st;
     events := events st |}.

Definition _stopPingInterval (st : State) : State :=
  set_timers (reconnectTimer st) None st.

Definition _startPingInterval (st : State) : State :=
  set_timers (reconnectTimer st) (Some (pingInterval st)) (_stopPingInterval st).

Definition _stopReconnectTimer (st : State) : State :=
  set_timers None (pingTimer st) st.

(** The server's [ready_for_message] frame. *)
Definition _handleReadyForMessage (st : State) : State :=
  let st1 := set_reconnectAttempts 0 st in
  let st2 :=
    set_retryStrategy
      (prod_map id RetryStrategy.reset <$> retryStrategy st1) st1 in
  _startPingInterval (emit CONNECTED (set_status connected st2)).

(** [random] is what [Math.random()] returns should the retry strategy
    add jitter. *)
Definition _scheduleReconnect (random : Q) (st : State) : State :=
  let st1 := set_status reconnecting st in
  match retryStrategy st1 with
  | Some (cfg, rs) =>
      let (delay, rs') := RetryStrategy.next cfg random rs in
      set_timers (Some delay) (pingTimer st1)
        (set_retryStrategy (Some (cfg, rs')) st1)
  | None =>
      set_timers (Some (reconnectInterval st1)) (pingTimer st1) st1
  end.

(** The [close] event of the transport. *)
Definition _handleDisconnect (random : Q) (st : State) : State :=
  let wasConnected := bool_decide (status st = connected) in
  let st1 :=
    emit DISCONNECTED
      (set_status disconnected
         (_stopPingInterval (set_isRegistered false st))) in
  if wasConnected && autoReconnect st1
     && bool_decide (reconnectAttempts st1 < maxReconnectAttempts st1)
  then _scheduleReconnect random st1
  else st1.

(** [connect] as far as the state machine goes.  An old socket is closed
    and dropped and the status becomes connecting; then either the new
    socket is there, or building it threw ([throws]) and the [catch]
    leaves the manager without socket, in status error. *)
Definition connect (throws : bool) (st : State) : State :=
  if bool_decide (status st = connected) || bool_decide (status st = connecting)
  then st
  else
    let st1 := set_status connecting (set_socket (autoReconnect st) None st) in
    if throws then emit ERROR (set_status error st1)
    else set_socket (autoReconnect st1) (Some CONNECTING) st1.

(** The callback of the reconnect timer; [throws] as for [connect]. *)
Definition reconnect_timer_fires (throws : bool) (st : State) : State :=
  let st1 := set_reconnectAttempts (reconnectAttempts st + 1) st in
  connect throws (emit (RECONNECTING (reconnectAttempts st1)) st1).

Definition disconnect (permanent : bool) (st : State) : State :=
  let st1 :=
    set_socket (if permanent then false else autoReconnect st) None
      (_stopReconnectTimer (_stopPingInterval st)) in
  let st2 := set_status disconnected (set_isRegistered false st1) in
  if permanent then emit DISCONNECTED st2 else st2.

End WebSocketManager.

(** ** core/StorageManager.js *)

Module StorageManager.

Definition version : string := "1.0.0".
Definition prefix : string := "weni:webchat:".

(** A stored item: the empty string, or what [JSON.parse] makes of it:
    it throws (or yields [null], where the first property read throws),
    or yields a value without [_data], or an envelope. *)
Inductive Item (V : Type) :=
| Empty
| Unparsable
| Bare (value : V)
| Envelope (_version : option string) (_timestamp : option Z) (_data : V).

Arguments Empty {V}.
Arguments Unparsable {V}.
Arguments Bare {V} value.
Arguments Envelope {V} _version _timestamp _data.

(** The Web Storage object: its entries in the order [key(i)] lists them,
    no key twice. *)
Abbreviation Storage V := (list (string * Item V)).

(** How a call of [setItem] ends. *)
Inductive SetItemResult := Stored | QuotaExceededError | OtherError.

Section Store.
Context {V : Type}.

(** The browser's verdict on [setItem(key, item)] in a given storage. *)
Variable setItemResult : Storage V → string → Item V → SetItemResult.

Definition getItem (key : string) (st : Storage V) : option (Item V) :=
  snd <$> head (filter (λ kv, kv.1 = key) st).

Definition setItem (key : string) (item : Item V) (st : Storage V)
  : Storage V :=
  if bool_decide (key ∈ st.*1)
  then (λ kv, if bool_decide (kv.1 = key) then (key, item) else kv) <$> st
  else st ++ [(key, item)].

Definition removeItem (key : string) (st : Storage V) : Storage V :=
  filter (λ kv, kv.1 ≠ key) st.

Definition _getFullKey (key : string) : string :=
  if String.prefix prefix key then key else prefix +:+ key.

Definition _getAllKeys (st : Storage V) : list string :=
  filter (λ key, String.prefix prefix key = true) st.*1.

Definition _migrate (data : Item V) : option V :=
  match data with
  | Envelope _ _ d => Some d
  | Bare v => Some v
  | Unparsable | Empty => None
  end.

Definition get (key : string) (st : Storage V) : option V :=
  match getItem (_getFullKey key) st with
  | None => None
  | Some Empty => None
  | Some Unparsable => None
  | Some (Bare v) => Some v
  | Some (Envelope ver ts d) =>
      if Js.truthy_str ver && negb (bool_decide (ver = Some version))
      then _migrate (Envelope ver ts d)
      else Some d
  end.

(** The age an entry is sorted by: [data._timestamp || 0]; the empty
    string is read as the empty object. *)
Definition age (kv : string * Item V) : Z :=
  match kv.2 with
  | Envelope _ (Some t) _ => t
  | _ => 0
  end.

(** [items.sort((a, b) => age a - age b)]; the sort is stable. *)
Fixpoint insert_by_age (x : string * Item V) (l : Storage V) : Storage V :=
  match l with
  | [] => [x]
  | y :: l' =>
      if bool_decide (age x ≤ age y) then x :: l
      else y :: insert_by_age x l'
  end.

Definition sort_by_age (l : Storage V) : Storage V :=
  foldr insert_by_age [] l.

Definition is_unparsable (kv : string * Item V) : bool :=
  match kv.2 with Unparsable => true | _ => false end.

(** The entries under the prefix. *)
Definition prefixed (st : Storage V) : Storage V :=
  filter (λ kv, String.prefix prefix kv.1 = true) st.

(** [Math.ceil(items.length * 0.25)] *)
Definition toRemove (n : nat) : nat :=
  Z.to_nat (Qceiling (inject_Z (Z.of_nat n) * (1 # 4))).

(** An item that does not parse makes [JSON.parse] throw before anything
    is removed; the [catch] leaves the storage as it was. *)
Definition _handleQuotaExceeded (st : Storage V) : Storage V :=
  let items := prefixed st in
  if existsb is_unparsable items then st
  else
    let sorted := sort_by_age items in
    foldl (λ acc kv, removeItem kv.1 acc) st (take (toRemove (length items)) sorted).

Definition set (key : string) (value : V) (now : Z) (st : Storage V)
  : Storage V :=
  let fullKey := _getFullKey key in
  let data := Envelope (Some version) (Some now) value in
  match setItemResult st fullKey data with
  | Stored => setItem fullKey data st
  | QuotaExceededError => _handleQuotaExceeded st
  | OtherError => st
  end.

Definition remove (key : string) (st : Storage V) : Storage V :=
  removeItem (_getFullKey key) st.

Definition clear (st : Storage V) : Storage V :=
  foldl (λ acc key, removeItem key acc) st (_getAllKeys st).

Definition has (key : string) (st : Storage V) : bool :=
  bool_decide (is_Some (getItem (_getFullKey key) st)).

Definition keys (st : Storage V) : list string :=
  (λ key, String.substring (String.length prefix)
            (String.length key - String.length prefix) key)
    <$> _getAllKeys st.

(** What the specification asks of a write that runs into the quota:
    evict, then try the same write once more. *)
Definition set_with_retry (key : string) (value : V) (now : Z)
  (st : Storage V) : Storage V :=
  let fullKey := _getFullKey key in
  let data := Envelope (Some version) (Some now) value in
  match setItemResult st fullKey data with
  | Stored => setItem fullKey data st
  | QuotaExceededError =>
      let st' := _handleQuotaExceeded st in
      match setItemResult st' fullKey data with
      | Stored => setItem fullKey data st'
      | _ => st'
      end
  | OtherError => st
  end.

End Store.

End StorageManager.

(** ** utils/helpers.js and core/SessionManager.js *)

(** Strings are read as UTF-8, so that the characters beyond ASCII that
    [String.prototype.trim] and the regular expression dot single out are
    byte sequences. *)
Module Helpers.

Definition code (a : ascii) : N := N_of_ascii a.

Definition is_digit (a : ascii) : bool :=
  (48 <=? code a)%N && (code a <=? 57)%N.

(** White space and line terminators of one byte: TAB, LF, VT, FF, CR, SP. *)
Definition ws1 (a : ascii) : bool :=
  ((9 <=? code a)%N && (code a <=? 13)%N) || (code a =? 32)%N.

(** U+00A0. *)
Definition ws2 (a b : ascii) : bool :=
  (code a =? 194)%N && (code b =? 160)%N.

(** U+1680, U+2000 to U+200A, U+2028, U+2029, U+202F, U+205F, U+3000,
    U+FEFF. *)
Definition ws3 (a b c : ascii) : bool :=
  ((code a =? 225)%N && (code b =? 154)%N && (code c =? 128)%N)
  || ((code a =? 226)%N && (code b =? 128)%N
      && (((128 <=? code c)%N && (code c <=? 138)%N)
          || (code c =? 168)%N || (code c =? 169)%N || (code c =? 175)%N))
  || ((code a =? 226)%N && (code b =? 129)%N && (code c =? 159)%N)
  || ((code a =? 227)%N && (code b =? 128)%N && (code c =? 128)%N)
  || ((code a =? 239)%N && (code b =? 187)%N && (code c =? 191)%N).

(** [s.trim() === ''] *)
Fixpoint is_blank (s : string) : bool :=
  match s with
  | EmptyString => true
  | String a s1 =>
      if ws1 a then is_blank s1
      else match s1 with
           | String b s2 =>
               if ws2 a b then is_blank s2
               else match s2 with
                    | String c s3 => ws3 a b c && is_blank s3
                    | EmptyString => false
                    end
           | EmptyString => false
           end
  end.

(** The characters the dot of a regular expression does not match: LF,
    CR, U+2028 and U+2029. *)
Definition starts_with_line_terminator (s : string) : bool :=
  match s with
  | String a rest =>
      (code a =? 10)%N || (code a =? 13)%N
      || match rest with
         | String b (String c _) =>
             (code a =? 226)%N && (code b =? 128)%N
             && ((code c =? 168)%N || (code c =? 169)%N)
         | _ => false
         end
  | EmptyString => false
  end.

Fixpoint has_line_terminator (s : string) : bool :=
  match s with
  | EmptyString => false
  | String _ rest => starts_with_line_terminator s || has_line_terminator rest
  end.

(** The longest run of digits at the front removed. *)
Fixpoint skip_digits (s : string) : string :=
  match s with
  | String a rest => if is_digit a then skip_digits rest else s
  | EmptyString => s
  end.

(** [String(n)] of an integer; below 10^21 in absolute value that is its
    decimal notation. *)
Definition number_to_string (n : Z) : string :=
  NilZero.string_of_int (Z.to_int n).

(** What [generateSessionId] and the session manager read from their
    surroundings: the clock, [window.location.hostname], and [randomId],
    the number [Math.floor(Math.random() * Date.now())] evaluates to.
    With [Math.random()] in [0, 1) that is an integer from 0 up to the
    clock; which one is left to the environment, as the random number
    is. *)
Record Env := { now : Z; randomId : Z; hostname : string }.

(** [clientId] is [None] for [null], [undefined] and anything without a
    [trim] method. *)
Definition generateSessionId (clientId : option string) (env : Env) : string :=
  let validClientId :=
    match clientId with
    | None => hostname env
    | Some c => if is_blank c then hostname env else c
    end in
  number_to_string (randomId env) +:+ "@" +:+ validClientId.

End Helpers.

Module SessionManager.

Import Helpers.

(** A session object, also as it comes out of the store: a missing [id]
    reads as the empty string and a missing [lastActivity] as 0, both
    falsy. *)
Record Session := {
  id : string;
  createdAt : Z;
  lastActivity : Z;
  metadata : list (string * string);
}.

(** The storage object handed to the constructor, of which the manager
    uses [get], [set] and [remove]; [set] also reads the clock. *)
Class StorageApi (S : Type) := {
  storage_get : string → S → option Session;
  storage_set : string → Session → Z → S → S;
  storage_remove : string → S → S;
}.

Record Config := {
  autoClearCache : bool;
  cacheTimeout : Z;
  contactTimeout : Z;
  clientId : option string;
}.

Definition sessionKey : string := "weni:webchat:session".

Section Manager.
Context {S : Type} `{StorageApi S}.

Record State := {
  storage : S;
  session : option Session;
  clearTimer : option Z;
}.

(** [/^\d+@.+$/.test(sessionId)] *)
Definition _isValidSessionIdFormat (sessionId : string) : bool :=
  match sessionId with
  | String a _ =>
      is_digit a
      && match skip_digits sessionId with
         | String at_sign rest =>
             (code at_sign =? 64)%N
             && negb (bool_decide (rest = ""))
             && negb (has_line_terminator rest)
         | EmptyString => false
         end
  | EmptyString => false
  end.

Definition _isSessionValid (cfg : Config) (env : Env) (s : Session) : bool :=
  if bool_decide (id s = "") || bool_decide (lastActivity s = 0) then false
  else if negb (_isValidSessionIdFormat (id s)) then false
  else
    let elapsed := now env - lastActivity s in
    bool_decide (elapsed < contactTimeout cfg).

Definition _save (env : Env) (st : State) : State :=
  match session st with
  | None => st
  | Some s =>
      {| storage := storage_set sessionKey s (now env) (storage st);
         session := session st; clearTimer := clearTimer st |}
  end.

Definition _updateLastActivity (env : Env) (st : State) : State :=
  match session st with
  | None => st
  | Some s =>
      _save env
        {| storage := storage st;
           session := Some {| id := id s; createdAt := createdAt s;
                              lastActivity := now env;
                              metadata := metadata s |};
           clearTimer := clearTimer st |}
  end.

Definition _stopAutoClearTimer (st : State) : State :=
  {| storage := storage st; session := session st; clearTimer := None |}.

Definition _startAutoClearTimer (cfg : Config) (st : State) : State :=
  if negb (autoClearCache cfg) then st
  else {| storage := storage st; session := session st;
          clearTimer := Some (cacheTimeout cfg) |}.

Definition _createNewSession (cfg : Config) (env : Env) (st : State)
  : string * State :=
  let s := {| id := generateSessionId (clientId cfg) env;
              createdAt := now env; lastActivity := now env;
              metadata := [] |} in
  let st1 := {| storage := storage st; session := Some s;
                clearTimer := clearTimer st |} in
  (id s, _startAutoClearTimer cfg (_save env st1)).

(** [getOrCreate] past its first test: the stored session if it is valid,
    a new one otherwise. *)
Definition load_or_create (cfg : Config) (env : Env) (st : State)
  : string * State :=
  match storage_get sessionKey (storage st) with
  | Some stored =>
      if _isSessionValid cfg env stored then
        (id stored,
         _updateLastActivity env
           {| storage := storage st; session := Some stored;
              clearTimer := clearTimer st |})
      else _createNewSession cfg env st
  | None => _createNewSession cfg env st
  end.

Definition getOrCreate (cfg : Config) (env : Env) (st : State)
  : string * State :=
  match session st with
  | Some s =>
      if negb (bool_decide (id s = "")) then (id s, st)
      else load_or_create cfg env st
  | None => load_or_create cfg env st
  end.

Definition restore (cfg : Config) (env : Env) (st : State)
  : option Session * State :=
  match storage_get sessionKey (storage st) with
  | Some stored =>
      if _isSessionValid cfg env stored then
        let st1 :=
          _startAutoClearTimer cfg
            (_updateLastActivity env
               {| storage := storage st; session := Some stored;
                  clearTimer := clearTimer st |}) in
        (session st1, st1)
      else (None, st)
  | None => (None, st)
  end.

Definition getSessionId (st : State) : option string := id <$> session st.

Definition clear (st : State) : State :=
  _stopAutoClearTimer
    {| storage := storage_remove sessionKey (storage st); session := None;
       clearTimer := clearTimer st |}.

End Manager.

End SessionManager.

(** The conversation log of the later variant of core/SessionManager.js. *)
Module ConversationLog.

Section Log.
Context {Message Store : Type}.

(** [conversation] is [None] when the property is not an array, as in a
    session restored from a store written by the earlier variant. *)
Record Session := {
  id : string;
  createdAt : Z;
  lastActivity : Z;
  lastMessageSentAt : option Z;
  conversation : option (list Message);
}.

(** [storage.set(sessionKey, session)] of the injected storage object. *)
Variable storage_set : Session → Z → Store → Store.

Record State := { storage : Store; session : option Session }.

Definition set_conversation (l : list Message) (s : Session) : Session :=
  {| id := id s; createdAt := createdAt s; lastActivity := lastActivity s;
     lastMessageSentAt := lastMessageSentAt s; conversation := Some l |}.

Definition set_lastActivity (t : Z) (s : Session) : Session :=
  {| id := id s; createdAt := createdAt s; lastActivity := t;
     lastMessageSentAt := lastMessageSentAt s;
     conversation := conversation s |}.

Definition _save (now : Z) (st : State) : State :=
  match session st with
  | None => st
  | Some s => {| storage := storage_set s now (storage st);
                 session := session st |}
  end.

Definition _updateLastActivity (now : Z) (st : State) : State :=
  match session st with
  | None => st
  | Some s =>
      _save now {| storage := storage st;
                   session := Some (set_lastActivity now s) |}
  end.

(** Returns the array held by the session, installing an empty one first
    when there is none. *)
Definition getConversation (st : State) : list Message * State :=
  match session st with
  | None => ([], st)
  | Some s =>
      match conversation s with
      | Some l => (l, st)
      | None => ([], {| storage := storage st;
                        session := Some (set_conversation [] s) |})
      end
  end.

(** [list.splice(0, list.length - limit)] where [limit < list.length]:
    the delete count is truncated to an integer.  The difference is exact
    here; in the code it is when the limit is an integer, or a multiple of
    2^-20 with a list of fewer than 2^32 messages. *)
Definition splice_front (limit : Qc) (l : list Message) : list Message :=
  drop (Z.to_nat (Qfloor (Qc_of_Z (Z.of_nat (length l)) - limit)%Qc)) l.

(** [limit] is [options.limit], [Js.Undefined] when absent. *)
Definition appendToConversation (message : Message) (limit : Js.value)
  (now : Z) (st : State) : State :=
  match session st with
  | None => st
  | Some _ =>
      let (list0, st1) := getConversation st in
      let list1 := list0 ++ [message] in
      let list2 :=
        match limit with
        | Js.Num (Js.Fin q) =>
            if Js.truthy limit && bool_decide (Qc_of_Z 0 < q)%Qc
               && bool_decide (q < Qc_of_Z (Z.of_nat (length list1)))%Qc
            then splice_front q list1
            else list1
        | _ => list1
        end in
      match session st1 with
      | None => st1
      | Some s =>
          _save now
            (_updateLastActivity now
               {| storage := storage st1;
                  session := Some (set_conversation list2 s) |})
      end
  end.

Definition setConversation (messages : list Message) (now : Z) (st : State)
  : State :=
  match session st with
  | None => st
  | Some s =>
      _save now
        (_updateLastActivity now
           {| storage := storage st;
              session := Some (set_conversation messages s) |})
  end.

(** The conversation as [getConversation] would return it. *)
Definition log (st : State) : list Message := (getConversation st).1.

(** [updateConversation(messageId, update)].  Of a message object it
    reads [m.id], [None] when that is not a string, and it changes the
    object by [Object.assign(m, update)]. *)
Context {Update : Type}.
Variable message_id : Message → option string.
Variable assign : Message → Update → Message.

(** [Object.assign] on the message [list.find] selects: the first one
    with the id. *)
Fixpoint assign_first (messageId : string) (update : Update)
  (l : list Message) : list Message :=
  match l with
  | [] => []
  | m :: rest =>
      if bool_decide (message_id m = Some messageId)
      then assign m update :: rest
      else m :: assign_first messageId update rest
  end.

Definition updateConversation (messageId : string) (update : Update)
  (now : Z) (st : State) : State :=
  match session st with
  | None => st
  | Some _ =>
      let (list0, st1) := getConversation st in
      match session st1 with
      | None => st1
      | Some s =>
          _save now
            {| storage := storage st1;
               session :=
                 Some (set_conversation
                         (assign_first messageId update list0) s) |}
      end
  end.

End Log.

End ConversationLog.

(** ** modules/HistoryManager.js *)

Module HistoryManager.

#[global] Instance number_eq_dec : EqDecision Js.number.
Proof. solve_decision. Defined.

#[global] Instance value_eq_dec : EqDecision Js.value.
Proof. solve_decision. Defined.

Inductive Event :=
| HISTORY_MERGED (historyCount currentCount mergedCount : nat).

Section Merge.
Context {Message : Type}.

(** The properties of a message object the merge reads: [msg.id],
    [msg.ID] and [msg.timestamp]. *)
Variable id : Message → Js.value.
Variable ID : Message → Js.value.
Variable timestamp : Message → Js.value.

(** [msg.id || msg.ID] *)
Definition key (msg : Message) : Js.value :=
  if Js.truthy (id msg) then id msg else ID msg.

(** [msg.timestamp || 0], for a timestamp that is a number or absent; a
    timestamp of another type, which the subtraction in the comparator
    would coerce, is outside the model. *)
Definition time (msg : Message) : Qc :=
  match timestamp msg with
  | Js.Num (Js.Fin q) => q
  | _ => Qc_of_Z 0
  end.

(** A [Map] keeps its entries in insertion order; [set] on a key that is
    present replaces the value where it stands.  The keys used here are
    truthy, on which the key equality of [Map] is equality. *)
Abbreviation MessageMap := (list (Js.value * Message)).

Fixpoint map_set (k : Js.value) (v : Message) (m : MessageMap) : MessageMap :=
  match m with
  | [] => [(k, v)]
  | (k', v') :: rest =>
      if bool_decide (k' = k) then (k, v) :: rest
      else (k', v') :: map_set k v rest
  end.

Definition map_has (k : Js.value) (m : MessageMap) : bool :=
  bool_decide (k ∈ m.*1).

(** [merged.sort((a, b) => timeA - timeB)]; the sort is stable. *)
Fixpoint insert_by_time (x : Message) (l : list Message) : list Message :=
  match l with
  | [] => [x]
  | y :: l' =>
      if bool_decide (time x ≤ time y)%Qc then x :: l
      else y :: insert_by_time x l'
  end.

Definition sort_by_time (l : list Message) : list Message :=
  foldr insert_by_time [] l.

(** The two [forEach] bodies: local messages overwrite, history messages
    only fill in. *)
Definition add_current (messageMap : MessageMap) (msg : Message)
  : MessageMap :=
  if Js.truthy (key msg) then map_set (key msg) msg messageMap
  else messageMap.

Definition add_history (messageMap : MessageMap) (msg : Message)
  : MessageMap :=
  if Js.truthy (key msg) then
    if negb (map_has (key msg) messageMap)
    then map_set (key msg) msg messageMap
    else messageMap
  else messageMap.

(** [merge(historyMessages, currentMessages)]: the merged list and the
    event it emits. *)
Definition merge (historyMessages currentMessages : list Message)
  : list Message * Event :=
  let messageMap :=
    foldl add_history (foldl add_current [] currentMessages)
      historyMessages in
  let merged := sort_by_time messageMap.*2 in
  (merged,
   HISTORY_MERGED (length historyMessages) (length currentMessages)
     (length merged)).

(** The loop of [findInsertionPosition]: the index of the first message
    later than [newTimestamp], the length when there is none. *)
Fixpoint first_later (newTimestamp : Qc) (messages : list Message) : nat :=
  match messages with
  | [] => 0
  | m :: rest =>
      if bool_decide (newTimestamp < time m)%Qc then 0
      else Datatypes.S (first_later newTimestamp rest)
  end.

Definition findInsertionPosition (now : Z) (newMessage : Message)
  (messages : list Message) : nat :=
  let newTimestamp :=
    if Js.truthy (timestamp newMessage) then time newMessage
    else Qc_of_Z now in
  first_later newTimestamp messages.

Definition isUnique (newMessage : Message) (messages : list Message) : bool :=
  let newId := key newMessage in
  if negb (Js.truthy newId) then true
  else negb (bool_decide (newId ∈ key <$> messages)).

Definition removeTemporaryMessages (messages : list Message)
  : list Message :=
  filter (λ msg, Js.truthy (key msg) = true) messages.

End Merge.

End HistoryManager.

(** * Properties *)

(** ** Strings *)

Lemma string_app_nil_r (s : string) : s +:+ "" = s.
Proof.
  induction s as [|a s IH]; [done|].
  change (String a (s +:+ "") = String a s). by rewrite IH.
Qed.

Lemma string_app_assoc (s1 s2 s3 : string) :
  (s1 +:+ s2) +:+ s3 = s1 +:+ (s2 +:+ s3).
Proof.
  induction s1 as [|a s1 IH]; [done|].
  change (String a ((s1 +:+ s2) +:+ s3) = String a (s1 +:+ (s2 +:+ s3))).
  by rewrite IH.
Qed.

(** Concatenation of the payloads of a list of chunks, first chunk first. *)
Definition concat_text (chunks : list string) : string :=
  foldr String.append "" chunks.

Lemma concat_text_snoc (l : list string) (x : string) :
  concat_text (l ++ [x]) = concat_text l +:+ x.
Proof.
  induction l as [|y l IH]; cbn.
  - by rewrite string_app_nil_r.
  - fold (concat_text (l ++ [x])). fold (concat_text l).
    by rewrite IH, string_app_assoc.
Qed.

(** ** The streaming message processor *)

Section MessageProcessorFacts.
Import MessageProcessor.

(** The part of the state the sequence logic works on. *)
Definition stream_core (st : State) :=
  (streams st, pendingDeltas st, nextExpectedSeq st, activeStreamId st,
   recentIncomingTexts st).

Lemma stream_core_stopTypingIfActive st :
  stream_core (stopTypingIfActive st) = stream_core st.
Proof.
  unfold stopTypingIfActive, _stopTyping.
  destruct st as [? ? ? [] [] ? ? ? ? ? ? ?]; reflexivity.
Qed.

Lemma stream_core_enqueue m st :
  stream_core (enqueue m st) = stream_core st.
Proof.
  unfold enqueue, _processQueue, deliver.
  destruct st as [q [] ? ? ? ? ? ? ? ? ? ?]; cbn; [done|].
  destruct (q ++ [m]) as [|? []]; reflexivity.
Qed.

Lemma stream_core_handleFirstDelta env st :
  stream_core (_handleFirstDelta env st) = stream_core st.
Proof.
  unfold _handleFirstDelta, _emitDeferredStreamMessage.
  destruct (negb _).
  - rewrite stream_core_enqueue. apply stream_core_stopTypingIfActive.
  - apply stream_core_stopTypingIfActive.
Qed.

(** [raw.v || ''] is [raw.v] when that is a string. *)
Lemma delta_content (v : string) :
  default "" (Js.or_str (Some v) (Some "")) = v.
Proof.
  unfold Js.or_str, Js.truthy_str. case_bool_decide as Hv; [done|].
  cbn. destruct (decide (v = "")); [done|]. by destruct Hv.
Qed.

(** The loop of [_applyPendingDeltas] is left with its condition false:
    the bound on the unrolling never cuts it short. *)
Lemma applyPendingDeltas_loop_exits env sid fuel st :
  (size (pendingDeltas st) ≤ fuel)%nat →
  let st' := applyPendingDeltas_loop fuel env sid st in
  pendingDeltas st' !! Qc_of_Z (nextExpectedSeq st') = None.
Proof.
  revert st. induction fuel as [|fuel IH]; intros st Hsize; cbn.
  - assert (pendingDeltas st = ∅) as ->
      by (apply map_size_empty_inv; lia).
    apply lookup_empty.
  - destruct (pendingDeltas st !! Qc_of_Z (nextExpectedSeq st))
      as [content|] eqn:Hlook; [|done].
    apply IH. cbn.
    assert (pendingDeltas
              (_appendStreamContent env sid content
                 (set_pendingDeltas
                    (delete (Qc_of_Z (nextExpectedSeq st)) (pendingDeltas st))
                    st))
            = delete (Qc_of_Z (nextExpectedSeq st)) (pendingDeltas st)) as ->.
    { unfold _appendStreamContent. by case_match. }
    rewrite map_size_delete, Hlook. cbn. lia.
Qed.

Lemma applyPendingDeltas_exits env sid st :
  let st' := _applyPendingDeltas env sid st in
  pendingDeltas st' !! Qc_of_Z (nextExpectedSeq st') = None.
Proof. by apply applyPendingDeltas_loop_exits. Qed.

(** *** Reassembly of a stream from deltas in any arrival order *)

Section Reassembly.
Context (sorted : list (Z * string)) (n : Z) (sid : string).
Hypothesis sorted_keys : sorted.*1 = seqZ 1 n.
Hypothesis sid_truthy : sid ≠ "".

(** The text of the deltas with sequence numbers below [next]. *)
Definition prefix_text (next : Z) : string :=
  concat_text ((take (Z.to_nat (next - 1)) sorted).*2).

Lemma sorted_elem k v :
  (k, v) ∈ sorted → sorted !! Z.to_nat (k - 1) = Some (k, v) ∧ 1 ≤ k ≤ n.
Proof using sorted_keys.
  intros [i Hi]%list_elem_of_lookup_1.
  assert (sorted.*1 !! i = Some k) as Hk
    by (by rewrite list_lookup_fmap, Hi).
  rewrite sorted_keys in Hk. apply lookup_seqZ in Hk as [-> Hlt].
  replace (Z.to_nat (1 + Z.of_nat i - 1)) with i by lia.
  split; [done|lia].
Qed.

Lemma prefix_text_succ k v :
  (k, v) ∈ sorted → prefix_text (k + 1) = prefix_text k +:+ v.
Proof using sorted_keys.
  intros [Hlook Hk]%sorted_elem. unfold prefix_text.
  replace (Z.to_nat (k + 1 - 1)) with (S (Z.to_nat (k - 1))) by lia.
  rewrite (take_S_r _ _ _ Hlook), fmap_app. apply concat_text_snoc.
Qed.

(** The loop invariant: with the deltas [seen] received, the stream holds
    the text of all sequence numbers below [next], which have all been
    seen, and the buffer holds exactly the seen deltas from [next] on. *)
Record assembling (seen : list (Z * string)) (st : State) : Prop := {
  as_active : activeStreamId st = Some sid;
  as_next : 1 ≤ nextExpectedSeq st;
  as_text :
    text <$> streams st !! Some sid
    = Some (prefix_text (nextExpectedSeq st));
  as_below : ∀ k, 1 ≤ k < nextExpectedSeq st → k ∈ seen.*1;
  as_pending : ∀ q v,
    pendingDeltas st !! q = Some v
    ↔ ∃ k, q = Qc_of_Z k ∧ (k, v) ∈ seen ∧ nextExpectedSeq st ≤ k;
}.

Lemma assembling_core seen st st' :
  stream_core st = stream_core st' →
  assembling seen st → assembling seen st'.
Proof.
  unfold stream_core. intros [= Hs Hp Hn Ha _] [].
  split; rewrite <-?Hs, <-?Hp, <-?Hn, <-?Ha; done.
Qed.

(** One delta applied: the text grows by the payload of [next] and
    [next] advances; [pd'] is the buffer afterwards. *)
Lemma assembling_advance env seen seen' st pd' v :
  assembling seen st →
  (nextExpectedSeq st, v) ∈ seen' →
  (∀ x, x ∈ seen' → x ∈ sorted) →
  (∀ k, k ∈ seen.*1 → k ∈ seen'.*1) →
  (∀ q w, pd' !! q = Some w
          ↔ ∃ k, q = Qc_of_Z k ∧ (k, w) ∈ seen'
                 ∧ nextExpectedSeq st + 1 ≤ k) →
  let st1 := _appendStreamContent env (Some sid) v
               (set_pendingDeltas pd' st) in
  assembling seen' (set_nextExpectedSeq (nextExpectedSeq st1 + 1) st1).
Proof using sorted_keys.
  intros [Hact Hnext Htext Hbelow _] Hin Hsub Hmono Hpd'.
  destruct (streams st !! Some sid) as [cur|] eqn:Hcur; [|done].
  injection Htext as Htext.
  unfold _appendStreamContent. cbn. rewrite Hcur. cbn.
  split; cbn.
  - done.
  - lia.
  - rewrite lookup_insert_eq. cbn. f_equal.
    rewrite Htext. symmetry. apply prefix_text_succ. auto.
  - intros k Hk. destruct (decide (k = nextExpectedSeq st)) as [->|].
    + by apply (list_elem_of_fmap_2 fst) in Hin.
    + apply Hmono, Hbelow. lia.
  - done.
Qed.

Lemma assembling_drain env seen fuel st :
  (∀ x, x ∈ seen → x ∈ sorted) →
  assembling seen st →
  assembling seen (applyPendingDeltas_loop fuel env (Some sid) st).
Proof using sorted_keys.
  intros Hsub. revert st.
  induction fuel as [|fuel IH]; intros st Hst; cbn; [done|].
  destruct (pendingDeltas st !! Qc_of_Z (nextExpectedSeq st))
    as [content|] eqn:Hlook; [|done].
  apply IH.
  pose proof (as_pending _ _ Hst) as Hpd.
  apply Hpd in Hlook as Hseen.
  destruct Hseen as (k & Hk%Z2Qc_inj & Hin & _). subst k.
  apply (assembling_advance env seen seen st); try done.
  intros q w. rewrite lookup_delete_Some, Hpd. split.
  - intros (Hne & k & -> & Hkin & Hle). exists k.
    split_and!; [done..|].
    destruct (decide (k = nextExpectedSeq st)); [congruence|lia].
  - intros (k & -> & Hkin & Hle). split.
    + intros ?%Z2Qc_inj. lia.
    + exists k. split_and!; [done..|lia].
Qed.

(** A delta that has not been received before is processed. *)
Lemma assembling_delta cfg env seen st s v :
  assembling seen st →
  pendingDeltas st !! Qc_of_Z (nextExpectedSeq st) = None →
  (∀ x, x ∈ seen ++ [(s, v)] → x ∈ sorted) →
  s ∉ seen.*1 →
  let st' := process cfg env (delta_frame (Js.int s) v) st in
  assembling (seen ++ [(s, v)]) st'
  ∧ pendingDeltas st' !! Qc_of_Z (nextExpectedSeq st') = None.
Proof using sorted_keys sid_truthy.
  intros Hst Hgap Hsub Hnew.
  assert ((s, v) ∈ sorted) as [_ Hs]%sorted_elem
    by (apply Hsub, elem_of_app; right; by apply list_elem_of_singleton).
  change (process cfg env (delta_frame (Js.int s) v) st)
    with (_processDelta env (delta_frame (Js.int s) v) st).
  unfold _processDelta. cbn. rewrite delta_content.
  rewrite (bool_decide_eq_true_2 (Qc_of_Z STREAM_INITIAL_SEQUENCE ≤ _)%Qc)
    by (apply (proj1 (Z2Qc_inj_le 1 s)); lia).
  cbn. rewrite (as_active _ _ Hst). cbn.
  rewrite (bool_decide_eq_true_2 (sid ≠ "")) by done. cbn.
  set (st2 := if _isFirstDelta _ st then _ else st).
  assert (stream_core st = stream_core st2) as Hcore.
  { subst st2. destruct (_isFirstDelta _ st); [|done].
    symmetry. apply stream_core_handleFirstDelta. }
  assert (assembling seen st2) as Hst2
    by (by apply (assembling_core seen st)).
  assert (pendingDeltas st2 !! Qc_of_Z (nextExpectedSeq st2) = None)
    as Hgap2.
  { unfold stream_core in Hcore. injection Hcore as _ <- <- _ _. done. }
  clearbody st2. clear Hcore Hst Hgap st.
  pose proof (as_pending _ _ Hst2) as Hpd.
  assert (nextExpectedSeq st2 ∉ seen.*1) as Hfresh.
  { intros [[k w] [Hk Hin]]%list_elem_of_fmap_1. cbn in Hk. subst k.
    assert (pendingDeltas st2 !! Qc_of_Z (nextExpectedSeq st2) = Some w)
      as Hw by (apply Hpd; exists (nextExpectedSeq st2); done).
    congruence. }
  unfold _processDeltaSequence. rewrite (as_active _ _ Hst2).
  case_bool_decide as Heq.
  - apply Z2Qc_inj in Heq. subst s. split.
    + apply assembling_drain; [done|].
      replace (_appendStreamContent env (Some sid) v st2)
        with (_appendStreamContent env (Some sid) v
                (set_pendingDeltas (pendingDeltas st2) st2))
        by (by destruct st2).
      apply (assembling_advance env seen); try done.
      * apply elem_of_app; right. by apply list_elem_of_singleton.
      * intros k Hk. rewrite fmap_app. apply elem_of_app. by left.
      * intros q w. rewrite Hpd. split.
        -- intros (k & -> & Hin & Hle). exists k. split_and!; [done| |].
           ++ apply elem_of_app. by left.
           ++ destruct (decide (k = nextExpectedSeq st2)) as [->|]; [|lia].
              exfalso. apply Hfresh.
              by apply (list_elem_of_fmap_2 fst) in Hin.
        -- intros (k & -> & [Hin|Hin%list_elem_of_singleton]%elem_of_app
                   & Hle).
           ++ exists k. split_and!; [done..|lia].
           ++ injection Hin as -> ->. lia.
    + apply applyPendingDeltas_exits.
  - assert (s ≠ nextExpectedSeq st2) as Hne by congruence.
    case_bool_decide as Hlt.
    + apply (proj2 (Z2Qc_inj_lt _ _)) in Hlt. split.
      * destruct Hst2 as [Hact Hnext Htext Hbelow _].
        split; cbn; try done.
        -- intros k Hk. rewrite fmap_app. apply elem_of_app. left. auto.
        -- intros q w. rewrite lookup_insert_Some, Hpd. split.
           ++ intros [[<- <-]|(Hq & k & -> & Hin & Hle)].
              ** exists s. split_and!; [done| |lia].
                 apply elem_of_app; right. by apply list_elem_of_singleton.
              ** exists k. split_and!; [done| |done].
                 apply elem_of_app. by left.
           ++ intros (k & -> & [Hin|Hin%list_elem_of_singleton]%elem_of_app
                      & Hle).
              ** right. split.
                 --- intros Hk%Z2Qc_inj. subst k. apply Hnew.
                     by apply (list_elem_of_fmap_2 fst) in Hin.
                 --- exists k. done.
              ** injection Hin as -> ->. by left.
      * cbn. rewrite lookup_insert_ne; [done|].
        intros ?%Z2Qc_inj. lia.
    + exfalso. apply Hnew, (as_below _ _ Hst2).
      assert (¬ nextExpectedSeq st2 < s)
        by (intros ?; by apply Hlt, (proj1 (Z2Qc_inj_lt _ _))).
      lia.
Qed.

(** The delta frames of a list of arrivals, each with the environment
    it is processed in. *)
Definition delta_frames (arrivals : list (Env * (Z * string)))
  : list (Env * RawMessage) :=
  (λ a, (a.1, delta_frame (Js.int a.2.1) a.2.2)) <$> arrivals.

Lemma assembling_batch cfg rest : ∀ seen st,
  assembling seen st →
  pendingDeltas st !! Qc_of_Z (nextExpectedSeq st) = None →
  (∀ x, x ∈ seen ++ rest.*2 → x ∈ sorted) →
  NoDup (seen ++ rest.*2).*1 →
  let st' := processBatch cfg (delta_frames rest) st in
  assembling (seen ++ rest.*2) st'
  ∧ pendingDeltas st' !! Qc_of_Z (nextExpectedSeq st') = None.
Proof using sorted_keys sid_truthy.
  induction rest as [|[env [s v]] rest IH]; intros seen st Hst Hgap Hsub Hnd.
  - cbn. by rewrite app_nil_r.
  - cbn in *.
    replace (seen ++ (s, v) :: rest.*2)
      with ((seen ++ [(s, v)]) ++ rest.*2) in * by by rewrite <-app_assoc.
    destruct (assembling_delta cfg env seen st s v) as [Hst' Hgap']; try done.
    + intros x Hx. apply Hsub, elem_of_app. by left.
    + rewrite !fmap_app in Hnd.
      apply NoDup_app in Hnd as [Hnd _].
      apply NoDup_app in Hnd as (_ & Hnd & _).
      intros Hs. apply (Hnd s Hs). by apply list_elem_of_singleton.
    + by apply IH.
Qed.

Lemma assembling_complete seen st :
  0 ≤ n →
  assembling seen st →
  pendingDeltas st !! Qc_of_Z (nextExpectedSeq st) = None →
  seen ≡ₚ sorted →
  nextExpectedSeq st = n + 1
  ∧ pendingDeltas st = ∅
  ∧ stream_text sid st = Some (concat_text sorted.*2).
Proof using sorted_keys.
  intros Hn Hst Hgap Hperm.
  pose proof (as_pending _ _ Hst) as Hpd.
  pose proof (as_next _ _ Hst) as Hnext.
  assert (∀ k, k ∈ seen.*1 ↔ 1 ≤ k ≤ n) as Hseen.
  { intros k. rewrite Hperm, sorted_keys, elem_of_seqZ. lia. }
  assert (nextExpectedSeq st ∉ seen.*1) as Hfresh.
  { intros [[k w] [Hk Hin]]%list_elem_of_fmap_1. cbn in Hk. subst k.
    assert (pendingDeltas st !! Qc_of_Z (nextExpectedSeq st) = Some w)
      as Hw by (apply Hpd; exists (nextExpectedSeq st); done).
    congruence. }
  assert (nextExpectedSeq st = n + 1) as Hfinal.
  { destruct (decide (nextExpectedSeq st ≤ n)) as [Hle|Hgt].
    - exfalso. apply Hfresh, Hseen. lia.
    - destruct (decide (nextExpectedSeq st = n + 1)); [done|].
      assert (n + 1 ∈ seen.*1) as Hin%Hseen
        by (apply (as_below _ _ Hst); lia).
      lia. }
  split_and!; [done| |].
  - apply map_empty. intros q.
    destruct (pendingDeltas st !! q) as [w|] eqn:Hq; [|done].
    apply Hpd in Hq as (k & -> & Hin & Hle).
    assert (k ∈ seen.*1) as Hk%Hseen
      by (by apply (list_elem_of_fmap_2 fst) in Hin).
    lia.
  - unfold stream_text. rewrite (as_text _ _ Hst), Hfinal.
    unfold prefix_text. rewrite take_ge; [done|].
    rewrite <-(length_fmap fst), sorted_keys, length_seqZ. lia.
Qed.

End Reassembly.

(** C1.  A stream is opened by [stream_start], then delta frames with
    the sequence numbers 1..n, each exactly once, arrive in any order
    ([arrivals]; [sorted] is the same deltas in ascending sequence order).
    Afterwards the accumulated text of the stream is the concatenation of
    the payloads in ascending sequence order, nothing is left in
    [pendingDeltas], and the next expected sequence number is n + 1. *)
Theorem C1_reassembly_in_sequence_order :
  ∀ (cfg : Config) (env0 : Env) (st0 : State) (id : string)
    (arrivals : list (Env * (Z * string))) (sorted : list (Z * string)),
    id ≠ "" →
    arrivals.*2 ≡ₚ sorted →
    sorted.*1 = seqZ 1 (Z.of_nat (length sorted)) →
    let opened := process cfg env0 (stream_start_frame id) st0 in
    let final := processBatch cfg (delta_frames arrivals) opened in
    stream_text (MESSAGE_ID_PREFIX +:+ id) final
    = Some (concat_text sorted.*2)
    ∧ pendingDeltas final = ∅
    ∧ nextExpectedSeq final = Z.of_nat (length sorted) + 1.
Proof.
  intros cfg env0 st0 id arrivals sorted Hid Hperm Hkeys opened final.
  set (sid := MESSAGE_ID_PREFIX +:+ id).
  assert (sid ≠ "") as Hsid by done.
  assert (opened
          = set_streams (<[Some sid := {| text := ""; timestamp := now env0 |}]>
                           (streams st0))
              (_resetStreamState (Some sid) st0)) as Hopened.
  { subst opened. unfold process. cbn. unfold _processStreamStart.
    unfold _getMessageIdFromRaw. cbn. unfold Js.or_str. cbn.
    by rewrite (bool_decide_eq_true_2 (id ≠ "")) by done. }
  assert (assembling sorted sid [] opened) as Hinit.
  { rewrite Hopened. split; cbn.
    - done.
    - done.
    - by rewrite lookup_insert_eq.
    - unfold STREAM_INITIAL_SEQUENCE. intros; lia.
    - intros q v. rewrite lookup_empty. split; [done|].
      by intros (k & _ & ?%elem_of_nil & _). }
  destruct (assembling_batch sorted _ sid Hkeys Hsid cfg arrivals [] opened)
    as [Hst Hgap]; try done.
  - by rewrite Hopened.
  - cbn. intros x Hx. by rewrite <-Hperm.
  - cbn. rewrite Hperm, Hkeys. apply NoDup_seqZ.
  - cbn in Hst, Hgap. fold final in Hst, Hgap.
    destruct (assembling_complete sorted _ sid Hkeys arrivals.*2 final)
      as (Hnext & Hpd & Htext); [lia|done..].
Qed.

Definition example_cfg : Config :=
  {| messageDelay := 1000; typingDelay := 2000;
     enableTypingIndicator := true; typingTimeout := 50000 |}.

Definition at_time (t : Z) : Env := {| now := t; freshMessageId := "msg_t" |}.

(** The deltas 3, 1, 2 of the spec's second scenario. *)
Lemma C1_reassembly_witness :
  let opened := process example_cfg (at_time 1) (stream_start_frame "B") init in
  let final :=
    processBatch example_cfg
      (delta_frames [(at_time 2, (3, "!")); (at_time 3, (1, "Hi"));
                     (at_time 4, (2, " "))]) opened in
  stream_text (MESSAGE_ID_PREFIX +:+ "B") final
  = Some (concat_text [(1, "Hi"); (2, " "); (3, "!")].*2)
  ∧ pendingDeltas final = ∅
  ∧ nextExpectedSeq final = Z.of_nat (length [(1, "Hi"); (2, " "); (3, "!")]) + 1.
Proof.
  apply (C1_reassembly_in_sequence_order example_cfg (at_time 1) init "B"
           [(at_time 2, (3, "!")); (at_time 3, (1, "Hi")); (at_time 4, (2, " "))]
           [(1, "Hi"); (2, " "); (3, "!")]).
  - discriminate.
  - cbn. etrans; [apply Permutation_swap|].
    apply Permutation_skip, Permutation_swap.
  - reflexivity.
Defined.

(** *** Sequence number validation *)

Lemma isValidSequenceNumber_spec seq :
  _isValidSequenceNumber seq = true
  ↔ ∃ q, seq = Js.Num (Js.Fin q) ∧ (Qc_of_Z 1 ≤ q)%Qc.
Proof.
  unfold _isValidSequenceNumber, STREAM_INITIAL_SEQUENCE.
  destruct seq as [| | |[|q]|]; try (split; [done|by intros (? & ? & ?)]).
  rewrite bool_decide_eq_true. split.
  - intros. by exists q.
  - by intros (? & [= <-] & ?).
Qed.

(** A delta whose [seq] is not a number, is NaN or is below 1 is ignored
    without a trace. *)
Lemma invalid_seq_ignored cfg env raw st :
  _extractMessageType raw = "delta" →
  _isValidSequenceNumber (default Js.Undefined (raw_seq raw)) = false →
  process cfg env raw st = st.
Proof.
  intros Htype Hseq. unfold process. rewrite Htype. cbn.
  unfold _processDelta. by rewrite Hseq.
Qed.

(** C2.  The delta [{v: "x", seq: 1.5}] on a stream just opened: the
    non-integer sequence number passes [_isValidSequenceNumber], the
    deferred streaming message is emitted and the chunk is stored in
    [pendingDeltas] under the key 1.5. *)
Theorem C2_noninteger_seq_is_accepted :
  let opened := process example_cfg (at_time 1) (stream_start_frame "A") init in
  let st' :=
    process example_cfg (at_time 2)
      (delta_frame (Js.Num (Js.Fin (Q2Qc (3 # 2)))) "x") opened in
  _isValidSequenceNumber (Js.Num (Js.Fin (Q2Qc (3 # 2)))) = true
  ∧ pendingDeltas opened = ∅
  ∧ pendingDeltas st' !! Q2Qc (3 # 2) = Some "x"
  ∧ streamMessageEmitted opened = false
  ∧ streamMessageEmitted st' = true
  ∧ emitted opened st'
    = [MESSAGE_PROCESSED
         (_createStreamingMessage (Some "msg_A") 1)].
Proof. vm_compute. done. Qed.

(** *** What a step emits *)

Lemma emitted_app st st' (evs : list Event) :
  events st' = events st ++ evs → emitted st st' = evs.
Proof. unfold emitted. intros ->. by rewrite drop_app_length. Qed.

(** [_stopTyping] behind its guard: the stop events of the active
    indicators, and nothing but timer and flags changes. *)
Lemma stopTypingIfActive_events st :
  ∃ stops,
    events (stopTypingIfActive st) = events st ++ stops
    ∧ Forall (λ e, is_indicator_stop e = true) stops.
Proof.
  unfold stopTypingIfActive, _stopTyping.
  destruct st as [? ? ? [] [] ? ? ? ? ? ? evs]; cbn.
  - exists [TYPING_STOP; THINKING_STOP].
    split; [by rewrite <-app_assoc|by repeat constructor].
  - exists [TYPING_STOP]. split; [done|by repeat constructor].
  - exists [THINKING_STOP]. split; [done|by repeat constructor].
  - exists []. split; [by rewrite app_nil_r|constructor].
Qed.

Lemma stopTypingIfActive_idle st :
  isTypingActive st = false → isThinkingActive st = false →
  stopTypingIfActive st = st.
Proof. unfold stopTypingIfActive. by intros -> ->. Qed.

Lemma stopTypingIfActive_fields st :
  queue (stopTypingIfActive st) = queue st
  ∧ isProcessing (stopTypingIfActive st) = isProcessing st
  ∧ streamMessageEmitted (stopTypingIfActive st) = streamMessageEmitted st
  ∧ isTypingActive (stopTypingIfActive st) = false
  ∧ isThinkingActive (stopTypingIfActive st) = false.
Proof.
  unfold stopTypingIfActive, _stopTyping.
  by destruct st as [? ? ? [] [] ? ? ? ? ? ? ?].
Qed.

(** *** Duplicate suppression *)

Lemma message_frame_type raw :
  _extractMessageType raw = "message" → _getMessageType raw = "message".
Proof.
  unfold _extractMessageType, _getMessageType.
  destruct (_ && _ && _); [done|].
  destruct (Js.truthy_str (raw_type raw)); [done|].
  destruct (raw_message raw) as [m|]; [|done].
  by destruct (Js.truthy_str (m_type m)).
Qed.

(** The text of the frame after normalization: [raw.message.text] when it
    is a string. *)
Definition normalized_text (raw : RawMessage) : option string :=
  match raw_message raw with
  | Some m => match m_text m with Js.Str s => Some s | _ => None end
  | None => None
  end.

(** C3, as the code has it.  A [message] frame whose text is a non-empty
    string found in the dedup window is suppressed: processing it does
    what stopping the active indicators does and nothing else.  No
    processed-message event is emitted, queue and dedup window stay as
    they are, and with no indicator active the state is unchanged. *)
Theorem C3_duplicate_text_is_suppressed :
  ∀ (cfg : Config) (env : Env) (raw : RawMessage) (st : State) (s : string),
    _extractMessageType raw = "message" →
    normalized_text raw = Some s →
    s ≠ "" →
    s ∈ recentIncomingTexts st →
    let st' := process cfg env raw st in
    st' = stopTypingIfActive st
    ∧ filter (λ e, is_MESSAGE_PROCESSED e = true) (emitted st st') = []
    ∧ Forall (λ e, is_indicator_stop e = true) (emitted st st')
    ∧ queue st' = queue st
    ∧ recentIncomingTexts st' = recentIncomingTexts st
    ∧ (isTypingActive st = false → isThinkingActive st = false → st' = st).
Proof.
  intros cfg env raw st s Htype Htext Hs Hin st'.
  assert (st' = stopTypingIfActive st) as Hst'.
  { subst st'. unfold process. rewrite Htype. cbn.
    unfold _processUserMessage, _validateMessage. cbn.
    rewrite (message_frame_type raw Htype). cbn.
    unfold normalized_text in Htext.
    destruct (raw_message raw) as [m|]; [|done].
    destruct (m_text m) as [| | | |t] eqn:Hm; try done.
    injection Htext as ->. cbn.
    rewrite (bool_decide_eq_true_2 (s ≠ "")) by done.
    unfold _isDuplicateIncomingText.
    rewrite (bool_decide_eq_false_2 (s = "")) by done.
    assert (recentIncomingTexts (stopTypingIfActive st)
            = recentIncomingTexts st) as ->.
    { pose proof (stream_core_stopTypingIfActive st) as Hc.
      unfold stream_core in Hc. by injection Hc. }
    rewrite (bool_decide_eq_true_2 (s ∈ recentIncomingTexts st)) by done.
    rewrite (bool_decide_eq_true_2 ("message" ≠ "")) by done.
    by rewrite (bool_decide_eq_true_2 ("message" = "message")) by done. }
  destruct (stopTypingIfActive_events st) as (stops & Hev & Hstops).
  destruct (stopTypingIfActive_fields st) as (Hq & _).
  rewrite Hst'. rewrite (emitted_app _ _ stops Hev).
  split_and!; try done.
  - clear Hev. induction Hstops as [|e stops He _ IH]; [done|].
    rewrite filter_cons_False; [done|]. by destruct e.
  - pose proof (stream_core_stopTypingIfActive st) as Hc.
    unfold stream_core in Hc. by injection Hc.
  - apply stopTypingIfActive_idle.
Qed.

Lemma C3_duplicate_text_witness :
  let st := set_recentIncomingTexts ["Hello"] init in
  let st' := process example_cfg (at_time 1) (text_message_frame "Hello") st in
  st' = stopTypingIfActive st
  ∧ filter (λ e, is_MESSAGE_PROCESSED e = true) (emitted st st') = []
  ∧ Forall (λ e, is_indicator_stop e = true) (emitted st st')
  ∧ queue st' = queue st
  ∧ recentIncomingTexts st' = recentIncomingTexts st
  ∧ (isTypingActive st = false → isThinkingActive st = false → st' = st).
Proof.
  apply (C3_duplicate_text_is_suppressed example_cfg (at_time 1)
           (text_message_frame "Hello")
           (set_recentIncomingTexts ["Hello"] init) "Hello").
  - reflexivity.
  - reflexivity.
  - discriminate.
  - cbn. apply list_elem_of_here.
Defined.

(** The specification's sentence fails twice.  First: once a finished stream
    has put "Hello" into the window, two [message] frames with that text
    are both suppressed, so they yield no processed-message event rather
    than one.  Second: a frame suppressed while the typing indicator is
    shown still changes the state, since the indicator is stopped before
    the window is consulted. *)
Lemma C3_counterexample :
  let streamed :=
    processBatch example_cfg
      [(at_time 1, stream_start_frame "A");
       (at_time 2, delta_frame (Js.int 1) "Hello");
       (at_time 3, stream_end_frame (Some "A"))] init in
  let after_first :=
    process example_cfg (at_time 4) (text_message_frame "Hello") streamed in
  let after_second :=
    process example_cfg (at_time 5) (text_message_frame "Hello") after_first in
  let typing :=
    process example_cfg (at_time 6) (typing_start_frame None) after_second in
  let after_third :=
    process example_cfg (at_time 7) (text_message_frame "Hello") typing in
  recentIncomingTexts after_first = ["Hello"]
  ∧ length (filter (λ e, is_MESSAGE_PROCESSED e = true)
              (emitted streamed after_second)) ≠ 1%nat
  ∧ isTypingActive typing = true
  ∧ isTypingActive after_third = false
  ∧ emitted typing after_third = [TYPING_STOP]
  ∧ after_third ≠ typing.
Proof.
  cbv zeta. split_and!; [by vm_compute..|].
  intros Heq. apply (f_equal isTypingActive) in Heq. by vm_compute in Heq.
Qed.

(** No [message] frame changes the dedup window, suppressed or not. *)
Lemma message_frame_keeps_window cfg env raw st :
  _extractMessageType raw = "message" →
  recentIncomingTexts (process cfg env raw st) = recentIncomingTexts st.
Proof.
  intros Htype. unfold process. rewrite Htype. cbn.
  assert (∀ st', stream_core st' = stream_core st →
                 recentIncomingTexts st' = recentIncomingTexts st) as Hcore.
  { intros st' Hc. unfold stream_core in Hc. by injection Hc. }
  unfold _processUserMessage.
  repeat case_match; try done; apply Hcore;
    rewrite ?stream_core_enqueue; apply stream_core_stopTypingIfActive.
Qed.

(** Message frames never enter the dedup window themselves: two frames
    with the same text, not finalized by any stream, are both delivered. *)
Lemma identical_messages_both_delivered :
  let st' :=
    processBatch example_cfg
      [(at_time 1, text_message_frame "Hi"); (at_time 2, text_message_frame "Hi")]
      init in
  recentIncomingTexts st' = []
  ∧ length (filter (λ e, is_MESSAGE_PROCESSED e = true) (emitted init st'))
    = 2%nat.
Proof. by vm_compute. Qed.

(** *** End of a stream *)

Lemma events_cleanupStream messageId st :
  events (_cleanupStream messageId st) = events st.
Proof. unfold _cleanupStream. by case_bool_decide. Qed.

Lemma filter_updates_after_stops (stops : list Event) (e : Event) :
  Forall (λ e, is_indicator_stop e = true) stops →
  is_MESSAGE_UPDATED e = true →
  filter (λ e, is_MESSAGE_UPDATED e = true) (stops ++ [e]) = [e]
  ∧ filter (λ e, is_ERROR e = true) (stops ++ [e]) = [].
Proof.
  intros Hstops He. induction Hstops as [|x stops Hx _ [IH1 IH2]].
  - change ([] ++ [e]) with [e].
    rewrite filter_cons_True, filter_cons_False by (by destruct e). done.
  - change ((x :: stops) ++ [e]) with (x :: (stops ++ [e])).
    rewrite !filter_cons_False by (by destruct x). done.
Qed.

(** A stream record exists only under an id some frame has carried: the
    id of a [stream_start], or the id of a delta that arrived with no stream
    active. *)
Lemma absent_appendStreamContent env sid content st (k : option string) :
  streams st !! k = None →
  streams (_appendStreamContent env sid content st) !! k = None.
Proof.
  intros Hk. unfold _appendStreamContent.
  destruct (streams st !! sid) as [cur|] eqn:Hsid; [|done].
  cbn. rewrite lookup_insert_ne; [done|]. congruence.
Qed.

Lemma absent_applyPendingDeltas_loop env sid fuel (k : option string) :
  ∀ st, streams st !! k = None →
        streams (applyPendingDeltas_loop fuel env sid st) !! k = None.
Proof.
  induction fuel as [|fuel IH]; intros st Hk; cbn; [done|].
  destruct (pendingDeltas st !! _); [|done].
  apply IH. cbn. by apply absent_appendStreamContent.
Qed.

Lemma absent_processDeltaSequence env seq content st (k : option string) :
  streams st !! k = None →
  streams (_processDeltaSequence env seq content st) !! k = None.
Proof.
  intros Hk. unfold _processDeltaSequence, _applyPendingDeltas.
  repeat case_bool_decide; [|done..].
  apply absent_applyPendingDeltas_loop. cbn.
  by apply absent_appendStreamContent.
Qed.

Lemma streams_handleFirstDelta env st :
  streams (_handleFirstDelta env st) = streams st.
Proof.
  pose proof (stream_core_handleFirstDelta env st) as Hc.
  unfold stream_core in Hc. by injection Hc.
Qed.

Lemma streams_initializeSyntheticStream env raw st :
  streams (_initializeSyntheticStream env raw st)
  = <[_getMessageIdFromRaw raw := {| text := ""; timestamp := now env |}]>
      (streams st).
Proof.
  unfold _initializeSyntheticStream.
  match goal with
  | |- streams (enqueue ?m ?s) = _ =>
      pose proof (stream_core_enqueue m s) as Hc
  end.
  unfold stream_core in Hc. by injection Hc.
Qed.

Lemma absent_process cfg env raw st (k : option string) :
  _getMessageIdFromRaw raw ≠ k →
  streams st !! k = None →
  streams (process cfg env raw st) !! k = None.
Proof.
  intros Hid Hk.
  assert (∀ st', stream_core st' = stream_core st → streams st' !! k = None)
    as Hcore.
  { intros st' Hc. unfold stream_core in Hc. injection Hc as -> _ _ _ _. done. }
  unfold process. repeat case_match.
  - unfold _processUserMessage.
    repeat case_match; try done; apply Hcore;
      rewrite ?stream_core_enqueue; apply stream_core_stopTypingIfActive.
  - unfold _processStreamStart.
    destruct (_getMessageIdFromRaw raw) as [messageId|]; [|done].
    cbn. by rewrite lookup_insert_ne.
  - unfold _processDelta.
    destruct (negb _); [done|].
    destruct (default Js.Undefined (raw_seq raw)) as [| | |[|q]|]; try done.
    apply absent_processDeltaSequence.
    assert (streams (if negb (Js.truthy_str (activeStreamId st))
                     then _initializeSyntheticStream env raw st else st)
              !! k = None) as Hk1.
    { destruct (negb _); [|done].
      rewrite streams_initializeSyntheticStream. by rewrite lookup_insert_ne. }
    destruct (_isFirstDelta q _); [|done].
    by rewrite streams_handleFirstDelta.
  - unfold _processStreamEnd.
    destruct (_getMessageIdFromRaw raw) as [messageId|]; [|done].
    unfold _rememberIncomingText, _cleanupStream.
    repeat case_match; cbn; rewrite ?lookup_delete_None;
      try right; apply Hcore, stream_core_stopTypingIfActive.
  - unfold _handleTypingIndicator. by repeat case_match.
  - done.
Qed.

Lemma absent_processBatch cfg frames (k : option string) :
  ∀ st,
    (∀ f, f ∈ frames → _getMessageIdFromRaw f.2 ≠ k) →
    streams st !! k = None →
    streams (processBatch cfg frames st) !! k = None.
Proof.
  induction frames as [|[env raw] frames IH]; intros st Hids Hk; [done|].
  cbn. apply IH.
  - intros f Hf. apply Hids. by right.
  - apply absent_process; [|done]. apply (Hids (env, raw)). by left.
Qed.

Lemma events_rememberIncomingText t st :
  events (_rememberIncomingText t st) = events st.
Proof. unfold _rememberIncomingText. by case_bool_decide. Qed.

(** C7, as the code has it.  A [stream_end] frame with an id emits exactly
    one message-updated event, for the prefixed id and with status
    delivered, and no error event.  Its text is the text accumulated in
    the stream record held under that id, and the empty text when there
    is no such record; there is none when no earlier frame carried the
    id.  That no [stream_start] carried it is not enough: a delta carrying
    the id opens a stream under it when none is active.  A [stream_end]
    frame from which no id can be taken emits the error event and nothing
    else. *)
Theorem C7_stream_end_of_unknown_stream :
  ∀ (cfg : Config) (env : Env) (raw : RawMessage) (st : State),
    _extractMessageType raw = "stream_end" →
    let st' := process cfg env raw st in
    match _getMessageIdFromRaw raw with
    | Some messageId =>
        let finalText :=
          match streams st !! Some messageId with
          | Some streamData => text streamData
          | None => ""
          end in
        filter (λ e, is_MESSAGE_UPDATED e = true) (emitted st st')
        = [MESSAGE_UPDATED (Some messageId) finalText delivered (now env)]
        ∧ filter (λ e, is_ERROR e = true) (emitted st st') = []
        ∧ ∀ frames : list (Env * RawMessage),
            st = processBatch cfg frames init →
            (∀ f, f ∈ frames → _getMessageIdFromRaw f.2 ≠ Some messageId) →
            streams st !! Some messageId = None
    | None =>
        emitted st st' = [ERROR "stream_end received without id"]
    end.
Proof.
  intros cfg env raw st Htype st'. subst st'.
  unfold process. rewrite Htype. cbn. unfold _processStreamEnd.
  destruct (_getMessageIdFromRaw raw) as [messageId|].
  - assert (streams (stopTypingIfActive st) = streams st) as Hstreams.
    { pose proof (stream_core_stopTypingIfActive st) as Hc.
      unfold stream_core in Hc. by injection Hc. }
    rewrite Hstreams. cbv zeta.
    set (finalText := match streams st !! Some messageId with
                      | Some streamData => text streamData
                      | None => ""
                      end).
    destruct (stopTypingIfActive_events st) as (stops & Hev & Hstops).
    rewrite (emitted_app _ _
               (stops ++ [MESSAGE_UPDATED (Some messageId) finalText delivered
                            (now env)])).
    + split_and!.
      * by apply filter_updates_after_stops.
      * by apply filter_updates_after_stops.
      * intros frames -> Hids. by apply absent_processBatch.
    + rewrite events_rememberIncomingText, events_cleanupStream. cbn.
      by rewrite Hev, <-app_assoc.
  - by apply emitted_app.
Qed.

Lemma C7_stream_end_witness :
  let st' := process example_cfg (at_time 9) (stream_end_frame (Some "Z")) init in
  (filter (λ e, is_MESSAGE_UPDATED e = true) (emitted init st')
   = [MESSAGE_UPDATED (Some "msg_Z") "" delivered 9]
   ∧ filter (λ e, is_ERROR e = true) (emitted init st') = [])
  ∧ emitted init (process example_cfg (at_time 9) (stream_end_frame None) init)
    = [ERROR "stream_end received without id"].
Proof.
  split.
  - destruct (C7_stream_end_of_unknown_stream example_cfg (at_time 9)
                (stream_end_frame (Some "Z")) init eq_refl)
      as (Hupdate & Herror & _).
    split; [exact Hupdate|exact Herror].
  - apply (C7_stream_end_of_unknown_stream example_cfg (at_time 9)
             (stream_end_frame None) init); reflexivity.
Defined.

(** A delta carrying the id X arrives at a fresh processor, with no
    stream active and no [stream_start] before it: it opens a stream
    under msg_X and its text is appended there.  The [stream_end] for X,
    an id that was never stream_start'ed, then reports the text Hi and
    not the empty text. *)
Lemma C7_counterexample :
  let delta :=
    {| raw_type := None; raw_v := Some "Hi"; raw_seq := Some (Js.int 1);
       raw_id := Some "X"; raw_from := None; raw_timestamp := None;
       raw_persisted := false; raw_metadata := None; raw_message := None |} in
  let st := process example_cfg (at_time 1) delta init in
  let st' := process example_cfg (at_time 2) (stream_end_frame (Some "X")) st in
  _extractMessageType delta = "delta"
  ∧ streams init !! Some "msg_X" = None
  ∧ filter (λ e, is_MESSAGE_UPDATED e = true) (emitted st st')
    = [MESSAGE_UPDATED (Some "msg_X") "Hi" delivered 2]
  ∧ filter (λ e, is_MESSAGE_UPDATED e = true) (emitted st st')
    ≠ [MESSAGE_UPDATED (Some "msg_X") "" delivered 2].
Proof. cbv zeta. split_and!; by vm_compute. Qed.

(** *** Typing indicator during a stream *)

(** Once the first delta in sequence has been applied, [typing_start] is
    dropped. *)
Lemma typing_start_dropped_after_content cfg env raw st :
  _extractMessageType raw = "typing_start" →
  Js.truthy_str (activeStreamId st) = true →
  STREAM_INITIAL_SEQUENCE < nextExpectedSeq st →
  process cfg env raw st = st.
Proof.
  intros Htype Hact Hnext. unfold process. rewrite Htype. cbn.
  unfold _handleTypingIndicator. rewrite Hact.
  rewrite (bool_decide_eq_true_2 _ Hnext). by destruct (enableTypingIndicator cfg).
Qed.

(** While nothing has been applied yet the indicator is raised. *)
Lemma typing_start_raised_before_content cfg env raw st :
  _extractMessageType raw = "typing_start" →
  enableTypingIndicator cfg = true →
  nextExpectedSeq st = STREAM_INITIAL_SEQUENCE →
  let st' := process cfg env raw st in
  typingTimer st' = Some (typingTimeout cfg)
  ∧ if bool_decide (raw_from raw = Some "ai-assistant")
    then emitted st st' = [THINKING_START] ∧ isThinkingActive st' = true
    else emitted st st' = [TYPING_START] ∧ isTypingActive st' = true.
Proof.
  intros Htype Hcfg Hnext st'. subst st'. unfold process. rewrite Htype. cbn.
  unfold _handleTypingIndicator. rewrite Hcfg, Hnext. cbn.
  rewrite (bool_decide_eq_false_2 (STREAM_INITIAL_SEQUENCE < _)) by done.
  rewrite andb_false_r.
  case_bool_decide; (split; [done|split; [by apply emitted_app|done]]).
Qed.

(** C8.  [stream_start], then the delta with sequence number 2, which is
    buffered while 1 is missing, then [typing_start]: a delta of the
    active stream has been received, and yet the indicator is raised. *)
Theorem C8_typing_start_after_buffered_delta :
  let opened := process example_cfg (at_time 1) (stream_start_frame "A") init in
  let buffered :=
    process example_cfg (at_time 2) (delta_frame (Js.int 2) "x") opened in
  let st' := process example_cfg (at_time 3) (typing_start_frame None) buffered in
  activeStreamId buffered = Some "msg_A"
  ∧ pendingDeltas buffered !! Qc_of_Z 2 = Some "x"
  ∧ nextExpectedSeq buffered = 1
  ∧ isTypingActive buffered = false
  ∧ isTypingActive st' = true
  ∧ emitted buffered st' = [TYPING_START].
Proof. by vm_compute. Qed.

End MessageProcessorFacts.

(** ** The connection engine *)

Section WebSocketManagerFacts.
Import WebSocketManager.

Lemma status_scheduleReconnect random st :
  status (_scheduleReconnect random st) = reconnecting
  ∧ is_Some (reconnectTimer (_scheduleReconnect random st)).
Proof.
  unfold _scheduleReconnect. cbn.
  destruct (retryStrategy st) as [[cfg rs]|]; cbn; eauto.
Qed.

(** C5.  When the transport closes, the engine ends up reconnecting, with
    the reconnect timer armed, exactly when it was connected before,
    [autoReconnect] is set and fewer than [maxReconnectAttempts] attempts
    have been made; otherwise it ends up disconnected and no timer is
    armed by the close. *)
Theorem C5_reconnect_iff_connected_and_allowed :
  ∀ (random : Q) (st : State),
    let st' := _handleDisconnect random st in
    (status st' = reconnecting
     ↔ status st = connected ∧ autoReconnect st = true
       ∧ reconnectAttempts st < maxReconnectAttempts st)
    ∧ (status st' = reconnecting → is_Some (reconnectTimer st'))
    ∧ (status st' ≠ reconnecting →
       status st' = disconnected ∧ reconnectTimer st' = reconnectTimer st).
Proof.
  intros random st st'. subst st'. unfold _handleDisconnect.
  set (st1 := emit DISCONNECTED _).
  assert (status st1 = disconnected ∧ reconnectTimer st1 = reconnectTimer st
          ∧ autoReconnect st1 = autoReconnect st
          ∧ reconnectAttempts st1 = reconnectAttempts st
          ∧ maxReconnectAttempts st1 = maxReconnectAttempts st)
    as (Hs & Ht & -> & -> & ->) by done.
  clearbody st1.
  destruct (status_scheduleReconnect random st1) as [Hr Htimer].
  case_bool_decide as Hc; cbn.
  - destruct (autoReconnect st); cbn.
    + case_bool_decide as Hlt.
      * split_and!; [done|done|]. by intros [].
      * rewrite Hs. split_and!; [|done|done]. split; [done|]. by intros (_ & _ & ?).
    + rewrite Hs. split_and!; [|done|done]. split; [done|]. by intros (_ & ? & _).
  - rewrite Hs. split_and!; [|done|done]. split; [done|]. by intros (? & _ & _).
Qed.

End WebSocketManagerFacts.

(** ** The retry policy *)

Section RetryStrategyFacts.
Import RetryStrategy.
Local Open Scope Q_scope.

(** The amount [_addJitter] adds when jitter is enabled. *)
Definition jitter_amount (cfg : Config) (n : Z) (random : Q) : Q :=
  if jitter cfg then random * Qmin (capped cfg n) (maxJitter cfg) else 0.

Lemma getDelay_formula cfg n random st :
  getDelay cfg (Some n) random st
  = Qfloor (capped cfg n + jitter_amount cfg n random).
Proof.
  unfold getDelay, jitter_amount, _addJitter, capped.
  change (default (attempts st) (Some n)) with n. cbv zeta.
  destruct (jitter cfg); [done|].
  apply Qfloor_comp. lra.
Qed.

Lemma Qmin_inject_Z (a b : Z) : Qmin (inject_Z a) (inject_Z b) == inject_Z (Z.min a b).
Proof.
  destruct (Z.le_ge_cases a b) as [Hle|Hle].
  - rewrite Z.min_l by done. apply Q.min_l. by rewrite <-Zle_Qle.
  - rewrite Z.min_r by done. apply Q.min_r. by rewrite <-Zle_Qle.
Qed.

(** With integer parameters the capped delay is an integer, and rounding
    down leaves it as it is. *)
Lemma capped_integral cfg (b f m n : Z) :
  (0 <= n)%Z →
  baseDelay cfg == inject_Z b → factor cfg == inject_Z f →
  maxDelay cfg == inject_Z m →
  capped cfg n == inject_Z (Z.min (b * f ^ n) m).
Proof.
  intros Hn Hb Hf Hm. unfold capped. rewrite Hb, Hf, Hm.
  rewrite <-Zpower_Qpower by done.
  rewrite <-inject_Z_mult. apply Qmin_inject_Z.
Qed.

(** The parameters on which the code computes the capped delay exactly:
    integers below 2^31, base delay and factor at least 1, the cap not
    negative. *)
Definition exact_parameters (cfg : Config) (b f m : Z) : Prop :=
  baseDelay cfg == inject_Z b ∧ factor cfg == inject_Z f
  ∧ maxDelay cfg == inject_Z m
  ∧ (1 ≤ b < 2 ^ 31)%Z ∧ (1 ≤ f < 2 ^ 31)%Z ∧ (0 ≤ m < 2 ^ 31)%Z.

(** Without jitter the delay is the capped delay itself. *)
Lemma getDelay_exact cfg (b f m n : Z) random st :
  exact_parameters cfg b f m → (0 ≤ n)%Z → jitter cfg = false →
  getDelay cfg (Some n) random st = Z.min (b * f ^ n) m.
Proof.
  intros (Hb & Hf & Hm & _) Hn Hj. rewrite getDelay_formula.
  unfold jitter_amount. rewrite Hj.
  rewrite (Qfloor_comp _ (inject_Z (Z.min (b * f ^ n) m))).
  - apply Qfloor_Z.
  - rewrite (capped_integral cfg b f m n) by done. lra.
Qed.





End RetryStrategyFacts.

(** ** The persistent store *)

Section StorageManagerFacts.
Import StorageManager.
Context {V : Type}.
Implicit Types (st l : Storage V) (x kv : string * Item V).

Lemma insert_by_age_perm x l : insert_by_age x l ≡ₚ x :: l.
Proof.
  induction l as [|y l IH]; cbn; [done|].
  case_bool_decide; [done|]. by rewrite IH, Permutation_swap.
Qed.

Lemma sort_by_age_perm l : sort_by_age l ≡ₚ l.
Proof.
  induction l as [|x l IH]; cbn; [done|].
  fold (sort_by_age l). by rewrite insert_by_age_perm, IH.
Qed.

Lemma insert_by_age_sorted x l :
  StronglySorted (λ a b, age a ≤ age b) l →
  StronglySorted (λ a b, age a ≤ age b) (insert_by_age x l).
Proof.
  induction 1 as [|y l Hl IH Hy]; cbn.
  - repeat constructor.
  - case_bool_decide as Hle.
    + constructor; [by constructor|].
      constructor; [done|]. eapply Forall_impl; [done|]. cbn. intros; lia.
    + constructor; [done|].
      rewrite insert_by_age_perm. constructor; [lia|done].
Qed.

Lemma sort_by_age_sorted l :
  StronglySorted (λ a b, age a ≤ age b) (sort_by_age l).
Proof.
  induction l as [|x l IH]; cbn; [constructor|].
  by apply insert_by_age_sorted.
Qed.

(** [Math.ceil(n * 0.25)] is n/4 rounded up. *)
Lemma toRemove_spec (n : nat) :
  Z.of_nat (toRemove n) = (Z.of_nat n + 3) `div` 4.
Proof.
  unfold toRemove, Qceiling, Qfloor. cbn. rewrite ?Z.mul_1_r.
  rewrite Z2Nat.id; Z.div_mod_to_equations; lia.
Qed.

Lemma toRemove_le (n : nat) : (toRemove n ≤ n)%nat.
Proof. pose proof (toRemove_spec n). Z.div_mod_to_equations. lia. Qed.

Lemma foldl_removeItem l st :
  foldl (λ acc kv, removeItem kv.1 acc) st l
  = filter (λ kv, kv.1 ∉ l.*1) st.
Proof.
  revert st. induction l as [|x l IH]; intros st; cbn.
  - induction st as [|y st IHst]; [done|].
    rewrite filter_cons_True by apply not_elem_of_nil. by f_equal.
  - rewrite IH. unfold removeItem. rewrite list_filter_filter.
    apply list_filter_iff. intros y. rewrite not_elem_of_cons. tauto.
Qed.

Lemma NoDup_keys_filter (P : string * Item V → Prop)
  `{∀ x, Decision (P x)} l :
  NoDup l.*1 → NoDup (filter P l).*1.
Proof.
  intros Hnd. apply (sublist_NoDup _ l.*1); [done|].
  apply fmap_sublist, sublist_filter.
Qed.

Lemma filter_all (P : string * Item V → Prop) `{∀ x, Decision (P x)} l :
  (∀ x, x ∈ l → P x) → filter P l = l.
Proof.
  induction l as [|y l IH]; intros Hall; [done|].
  rewrite filter_cons_True by (apply Hall; left).
  f_equal. apply IH. intros x Hx. apply Hall. by right.
Qed.

Lemma filter_none (P : string * Item V → Prop) `{∀ x, Decision (P x)} l :
  (∀ x, x ∈ l → ¬ P x) → filter P l = [].
Proof.
  induction l as [|y l IH]; intros Hall; [done|].
  rewrite filter_cons_False by (apply Hall; left).
  apply IH. intros x Hx. apply Hall. by right.
Qed.

(** C9, as the code has it.  A write that fails on the quota only evicts:
    of the entries under the prefix, sorted by ascending envelope timestamp,
    the first quarter (rounded up) is removed, so that no entry kept is
    older than an entry removed; entries outside the prefix stay; the
    storage afterwards is the old one minus the evicted keys, so the value
    that was to be written is not written, and [setItem] is not called a
    second time. *)
Theorem C9_quota_evicts_oldest_quarter :
  ∀ (setItemResult : Storage V → string → Item V → SetItemResult)
    (key : string) (value : V) (now : Z) (st : Storage V),
    NoDup st.*1 →
    setItemResult st (_getFullKey key)
      (Envelope (Some version) (Some now) value) = QuotaExceededError →
    existsb is_unparsable (prefixed st) = false →
    let st' := set setItemResult key value now st in
    ∃ removed kept : Storage V,
      sort_by_age (prefixed st) = removed ++ kept
      ∧ Z.of_nat (length removed)
        = (Z.of_nat (length (prefixed st)) + 3) `div` 4
      ∧ (∀ r k, r ∈ removed → k ∈ kept → age r ≤ age k)
      ∧ st' = filter (λ kv, kv.1 ∉ removed.*1) st
      ∧ prefixed st' ≡ₚ kept
      ∧ filter (λ kv, String.prefix prefix kv.1 ≠ true) st'
        = filter (λ kv, String.prefix prefix kv.1 ≠ true) st.
Proof.
  intros setItemResult key value now st Hnd Hquota Hparse st'.
  subst st'. unfold set. rewrite Hquota.
  unfold _handleQuotaExceeded. rewrite Hparse.
  set (sorted := sort_by_age (prefixed st)).
  set (k := toRemove (length (prefixed st))).
  exists (take k sorted), (drop k sorted).
  assert (sorted = take k sorted ++ drop k sorted) as Hsplit
    by (by rewrite take_drop).
  assert (sorted ≡ₚ prefixed st) as Hperm by apply sort_by_age_perm.
  assert (NoDup (take k sorted ++ drop k sorted).*1) as Hkeys.
  { rewrite <-Hsplit, Hperm. by apply NoDup_keys_filter. }
  rewrite fmap_app in Hkeys. apply NoDup_app in Hkeys as (_ & Hdisjoint & _).
  assert (∀ x, x ∈ take k sorted → String.prefix prefix x.1 = true) as Hpre.
  { intros x Hx. assert (x ∈ prefixed st) as Hin.
    { rewrite <-Hperm, Hsplit. apply elem_of_app. by left. }
    by apply list_elem_of_filter in Hin as [? _]. }
  split_and!.
  - done.
  - rewrite length_take_le.
    + apply toRemove_spec.
    + rewrite (Permutation_length Hperm). apply toRemove_le.
  - intros r x Hr Hx.
    apply (StronglySorted_app_1_elem_of (λ a b, age a ≤ age b)
             (take k sorted) (drop k sorted)); [|done..].
    rewrite <-Hsplit. apply sort_by_age_sorted.
  - apply foldl_removeItem.
  - rewrite foldl_removeItem. unfold prefixed.
    rewrite list_filter_filter.
    rewrite (list_filter_iff _
               (λ kv, (kv.1 ∉ (take k sorted).*1)
                      ∧ (String.prefix prefix kv.1 = true)))
      by (intros; tauto).
    rewrite <-list_filter_filter. fold (prefixed st).
    rewrite <-Hperm. rewrite Hsplit at 1. rewrite filter_app.
    rewrite filter_none, filter_all; [done| |].
    + intros x Hx Hin. apply (Hdisjoint x.1); [done|].
      by apply list_elem_of_fmap_2.
    + intros x Hx Hnot. apply Hnot. by apply list_elem_of_fmap_2.
  - rewrite foldl_removeItem, list_filter_filter.
    apply list_filter_iff. intros x. split; [tauto|].
    intros Hx. split; [done|].
    intros [y [Hy Hin]]%list_elem_of_fmap_1. apply Hx.
    rewrite Hy. by apply Hpre.
Qed.

End StorageManagerFacts.

(** A store that takes four entries: the fifth makes [setItem] throw. *)
Definition four_entries (st : StorageManager.Storage string) (key : string)
  (item : StorageManager.Item string) : StorageManager.SetItemResult :=
  if bool_decide (key ∈ st.*1) || bool_decide (length st < 4)%nat
  then StorageManager.Stored
  else StorageManager.QuotaExceededError.

Definition full_store : StorageManager.Storage string :=
  [("weni:webchat:a", StorageManager.Envelope (Some "1.0.0") (Some 40) "A");
   ("weni:webchat:b", StorageManager.Envelope (Some "1.0.0") (Some 10) "B");
   ("weni:webchat:c", StorageManager.Envelope (Some "1.0.0") (Some 30) "C");
   ("weni:webchat:d", StorageManager.Envelope (Some "1.0.0") (Some 20) "D")].

Lemma C9_quota_witness :
  ∃ removed kept : StorageManager.Storage string,
    StorageManager.sort_by_age (StorageManager.prefixed full_store)
    = removed ++ kept
    ∧ Z.of_nat (length removed)
      = (Z.of_nat (length (StorageManager.prefixed full_store)) + 3) `div` 4
    ∧ (∀ r k, r ∈ removed → k ∈ kept →
              StorageManager.age r ≤ StorageManager.age k)
    ∧ StorageManager.set four_entries "session" "S" 50 full_store
      = filter (λ kv, kv.1 ∉ removed.*1) full_store
    ∧ StorageManager.prefixed
        (StorageManager.set four_entries "session" "S" 50 full_store) ≡ₚ kept
    ∧ filter (λ kv, String.prefix StorageManager.prefix kv.1 ≠ true)
        (StorageManager.set four_entries "session" "S" 50 full_store)
      = filter (λ kv, String.prefix StorageManager.prefix kv.1 ≠ true)
          full_store.
Proof.
  apply (C9_quota_evicts_oldest_quarter four_entries "session" "S" 50 full_store).
  - apply (bool_decide_unpack (NoDup full_store.*1)). by vm_compute.
  - by vm_compute.
  - by vm_compute.
Defined.

(** With room for four entries and four stored, writing a fifth runs into
    the quota; the oldest entry is evicted, which makes room, and yet the
    new value is not in the store: the write is not tried again, unlike in
    [set_with_retry]. *)
Lemma C9_counterexample :
  let st' := StorageManager.set four_entries "session" "S" 50 full_store in
  four_entries full_store "weni:webchat:session"
    (StorageManager.Envelope (Some "1.0.0") (Some 50) "S")
  = StorageManager.QuotaExceededError
  ∧ st'.*1 = ["weni:webchat:a"; "weni:webchat:c"; "weni:webchat:d"]
  ∧ four_entries st' "weni:webchat:session"
      (StorageManager.Envelope (Some "1.0.0") (Some 50) "S")
    = StorageManager.Stored
  ∧ StorageManager.has "session" st' = false
  ∧ StorageManager.get "session" st' = None
  ∧ StorageManager.get "session"
      (StorageManager.set_with_retry four_entries "session" "S" 50 full_store)
    = Some "S"
  ∧ st' ≠ StorageManager.set_with_retry four_entries "session" "S" 50 full_store.
Proof.
  cbv zeta. split_and!; [by vm_compute..|].
  intros Heq. apply (f_equal length) in Heq. by vm_compute in Heq.
Qed.

(** ** The conversation log *)

Section ConversationLogFacts.
Import ConversationLog.
Context {Message Store : Type}.
Variable storage_set : @Session Message → Z → Store → Store.
Implicit Types (st : @State Message Store) (m : Message).

Lemma log_save now st : log (_save storage_set now st) = log st.
Proof.
  unfold log, _save, getConversation.
  destruct (session st) as [s|] eqn:Hs; cbn; rewrite ?Hs;
    [by destruct (conversation s)|done].
Qed.

Lemma log_updateLastActivity now st :
  log (_updateLastActivity storage_set now st) = log st.
Proof.
  unfold _updateLastActivity. destruct (session st) as [s|] eqn:Hs; [|done].
  rewrite log_save. unfold log, getConversation. cbn. rewrite Hs.
  by destruct (conversation s).
Qed.

(** What [appendToConversation] leaves in the log, in terms of the list
    it trims. *)
Lemma log_appendToConversation m limit now st s :
  session st = Some s →
  log (appendToConversation storage_set m limit now st)
  = let list1 := log st ++ [m] in
    match limit with
    | Js.Num (Js.Fin q) =>
        if Js.truthy limit && bool_decide (Qc_of_Z 0 < q)%Qc
           && bool_decide (q < Qc_of_Z (Z.of_nat (length list1)))%Qc
        then splice_front q list1
        else list1
    | _ => list1
    end.
Proof.
  intros Hs.
  assert (log st = default [] (conversation s)) as ->.
  { unfold log, getConversation. rewrite Hs. by destruct (conversation s). }
  unfold appendToConversation, getConversation. rewrite Hs.
  by destruct (conversation s) as [l|]; cbn; rewrite ?Hs.
Qed.

Lemma Qfloor_Qc_of_Z (z : Z) : Qfloor (Qc_of_Z z) = z.
Proof. apply Qfloor_Z. Qed.

Lemma splice_front_integer (k : Z) (l : list Message) :
  0 < k < Z.of_nat (length l) →
  splice_front (Qc_of_Z k) l = drop (length l - Z.to_nat k) l.
Proof.
  intros Hk. unfold splice_front.
  rewrite <-Z2Qc_inj_sub, Qfloor_Qc_of_Z. f_equal. lia.
Qed.

(** C10, as the code has it.  With a live session and a limit that is a
    positive integer, the log after appending [m] is the old log followed
    by [m], cut at the front to its last [limit] messages: it has at most
    [limit] messages, ends with [m], and is a suffix of the untrimmed
    list; without a limit the log is the old one followed by [m]. *)
Theorem C10_append_keeps_last_limit :
  ∀ (m : Message) (now : Z) (st : State) (s : Session) (k : Z),
    session st = Some s →
    0 < k →
    let st' := appendToConversation storage_set m (Js.int k) now st in
    log st' = drop (length (log st) + 1 - Z.to_nat k) (log st ++ [m])
    ∧ (length (log st') ≤ Z.to_nat k)%nat
    ∧ last (log st') = Some m
    ∧ log st' `suffix_of` log st ++ [m]
    ∧ log (appendToConversation storage_set m Js.Undefined now st)
      = log st ++ [m].
Proof.
  intros m now st s k Hs Hk st'.
  assert (log st' = drop (length (log st) + 1 - Z.to_nat k) (log st ++ [m]))
    as Hlog.
  { subst st'. rewrite (log_appendToConversation _ _ _ _ s Hs). cbn.
    rewrite (bool_decide_eq_true_2 (Qc_of_Z k ≠ Qc_of_Z 0))
      by (intros ?%Z2Qc_inj; lia).
    rewrite (bool_decide_eq_true_2 (Qc_of_Z 0 < Qc_of_Z k)%Qc)
      by (by apply (proj1 (Z2Qc_inj_lt 0 k))).
    cbn. case_bool_decide as Hlt.
    - apply (proj2 (Z2Qc_inj_lt _ _)) in Hlt.
      rewrite splice_front_integer by lia.
      by rewrite length_app, Nat.add_1_r, Nat.add_1_r.
    - assert (¬ k < Z.of_nat (length (log st ++ [m]))) as Hge
        by (intros ?; by apply Hlt, (proj1 (Z2Qc_inj_lt _ _))).
      rewrite length_app in Hge. cbn in Hge.
      replace (length (log st) + 1 - Z.to_nat k)%nat with 0%nat by lia.
      done. }
  split_and!.
  - done.
  - rewrite Hlog, length_drop, length_app. cbn. lia.
  - rewrite Hlog.
    destruct (decide (length (log st) + 1 - Z.to_nat k ≤ length (log st))%nat)
      as [Hle|Hgt]; [|lia].
    rewrite drop_app_le by done. apply last_snoc.
  - rewrite Hlog. apply suffix_drop.
  - by rewrite (log_appendToConversation _ _ _ _ s Hs).
Qed.

End ConversationLogFacts.

(** A store of one slot, holding what was saved last. *)
Definition slot_set (s : @ConversationLog.Session string) (now : Z)
  (store : option (@ConversationLog.Session string))
  : option (@ConversationLog.Session string) := Some s.

Definition chat (l : list string)
  : @ConversationLog.State string (option (@ConversationLog.Session string)) :=
  {| ConversationLog.storage := None;
     ConversationLog.session :=
       Some {| ConversationLog.id := "1@host"; ConversationLog.createdAt := 1;
               ConversationLog.lastActivity := 1;
               ConversationLog.lastMessageSentAt := None;
               ConversationLog.conversation := Some l |} |}.

Lemma C10_append_witness :
  let st' :=
    ConversationLog.appendToConversation slot_set "c" (Js.int 2) 5
      (chat ["a"; "b"]) in
  ConversationLog.log st' = ["b"; "c"]
  ∧ (length (ConversationLog.log st') ≤ Z.to_nat 2)%nat
  ∧ last (ConversationLog.log st') = Some "c".
Proof.
  intros st'. subst st'.
  destruct (C10_append_keeps_last_limit slot_set "c" 5 (chat ["a"; "b"])
              {| ConversationLog.id := "1@host"; ConversationLog.createdAt := 1;
                 ConversationLog.lastActivity := 1;
                 ConversationLog.lastMessageSentAt := None;
                 ConversationLog.conversation := Some ["a"; "b"] |} 2)
    as (Hlog & Hlen & Hlast & _); [reflexivity|lia|].
  split_and!; [|done..]. rewrite Hlog. reflexivity.
Defined.

(** A limit that is a positive number but not an integer: with the limit
    2.5 and two messages in the log, the third is appended and nothing is
    dropped, since the delete count 0.5 is truncated to 0.  The log then
    has three messages, more than the limit. *)
Lemma C10_counterexample :
  let limit := Q2Qc (5 # 2) in
  let st' :=
    ConversationLog.appendToConversation slot_set "c" (Js.Num (Js.Fin limit)) 5
      (chat ["a"; "b"]) in
  (Qc_of_Z 0 < limit)%Qc
  ∧ ConversationLog.log st' = ["a"; "b"; "c"]
  ∧ ¬ (Qc_of_Z (Z.of_nat (length (ConversationLog.log st'))) ≤ limit)%Qc.
Proof. cbv zeta. split_and!; by vm_compute. Qed.

(** ** Session identity *)

Section SessionIdFacts.
Import Helpers SessionManager.

Fixpoint all_digits (s : string) : bool :=
  match s with
  | EmptyString => true
  | String a rest => is_digit a && all_digits rest
  end.

Lemma all_digits_string_of_uint (u : Decimal.uint) :
  all_digits (NilEmpty.string_of_uint u) = true.
Proof. induction u; cbn; done. Qed.

(** A non-negative integer is written as a non-empty run of digits. *)
Lemma number_to_string_digits (z : Z) :
  0 ≤ z →
  ∃ a ds, number_to_string z = String a ds
          ∧ all_digits (String a ds) = true.
Proof.
  intros Hz. unfold number_to_string.
  destruct z as [|p|p]; [by exists "0"%char, ""| |lia].
  cbn. pose proof (all_digits_string_of_uint (Pos.to_uint p)) as Hall.
  destruct (Pos.to_uint p) as [|u|u|u|u|u|u|u|u|u|u]; cbn in *;
    [by exists "0"%char, ""|eauto..].
Qed.

Lemma skip_digits_before_at (ds rest : string) :
  all_digits ds = true →
  skip_digits (ds +:+ String "@" rest) = String "@" rest.
Proof.
  induction ds as [|a ds IH]; [done|].
  intros [Ha Hds]%andb_prop.
  change (String a ds +:+ String "@" rest)
    with (String a (ds +:+ String "@" rest)).
  cbn [skip_digits]. rewrite Ha. by apply IH.
Qed.

(** [digits@host] has the session id format as soon as the host part is
    not empty and holds no line terminator. *)
Lemma digits_at_host_valid (a : ascii) (ds host : string) :
  all_digits (String a ds) = true →
  host ≠ "" →
  has_line_terminator host = false →
  _isValidSessionIdFormat (String a ds +:+ "@" +:+ host) = true.
Proof.
  intros Hall Hhost Hlt. pose proof Hall as [Ha _]%andb_prop.
  unfold _isValidSessionIdFormat.
  change (String a ds +:+ "@" +:+ host)
    with (String a (ds +:+ String "@" host)).
  lazy beta iota. rewrite Ha. cbn [andb].
  change (String a (ds +:+ String "@" host))
    with (String a ds +:+ String "@" host).
  rewrite skip_digits_before_at by done.
  rewrite Hlt. by rewrite (bool_decide_eq_false_2 (host = "")).
Qed.

(** The host part of a generated id. *)
Definition host_part (clientId : option string) (env : Env) : string :=
  match clientId with
  | None => hostname env
  | Some c => if is_blank c then hostname env else c
  end.

Lemma generateSessionId_valid (clientId : option string) (env : Env) :
  0 ≤ randomId env →
  host_part clientId env ≠ "" →
  has_line_terminator (host_part clientId env) = false →
  _isValidSessionIdFormat (generateSessionId clientId env) = true.
Proof.
  intros Hrandom Hhost Hlt. unfold generateSessionId.
  fold (host_part clientId env).
  destruct (number_to_string_digits (randomId env) Hrandom)
    as (a & ds & -> & Hall).
  by apply digits_at_host_valid.
Qed.

Lemma isSessionValid_spec (cfg : Config) (env : Env) (s : Session) :
  _isSessionValid cfg env s = true
  ↔ id s ≠ "" ∧ lastActivity s ≠ 0
    ∧ _isValidSessionIdFormat (id s) = true
    ∧ now env - lastActivity s < contactTimeout cfg.
Proof.
  unfold _isSessionValid.
  repeat case_bool_decide; cbn;
    destruct (_isValidSessionIdFormat (id s)); cbn;
    (split; [done || (intros _; by split_and!)|by intros (? & ? & ? & ?)]).
Qed.

Section Manager.
Context {S : Type} `{StorageApi S}.
Implicit Types (st : @State S).

(** A session already in memory is returned without a look at the store. *)
Lemma getOrCreate_in_memory cfg env st s :
  session st = Some s → id s ≠ "" → getOrCreate cfg env st = (id s, st).
Proof.
  intros Hs Hid. unfold getOrCreate. rewrite Hs.
  by rewrite (bool_decide_eq_false_2 (id s = "")).
Qed.

(** What [getOrCreate] chooses between when no session id is in memory:
    the stored session is loaded when there is one with a non-empty id of
    the format digits@host and a last activity that is set and less than
    [contactTimeout] before the clock. *)
Definition loads_stored (cfg : Config) (env : Env) (st : State)
  : option Session :=
  match storage_get sessionKey (storage st) with
  | Some stored =>
      if bool_decide (id stored ≠ "" ∧ lastActivity stored ≠ 0
                      ∧ _isValidSessionIdFormat (id stored) = true
                      ∧ now env - lastActivity stored < contactTimeout cfg)
      then Some stored else None
  | None => None
  end.

(** C4, as the code has it.  With no session id in memory, [getOrCreate]
    returns the id of the stored session when that session is valid: its
    id is not empty and has the format digits@host, and its last activity
    is set and less than [contactTimeout] ago.  In every other case (no
    stored session, an id of another format, no last activity, or one that
    lies [contactTimeout] or more back) it returns a generated id, the
    random number followed by the at sign and the host part.  Either way
    the id returned is the id of the session in memory afterwards.  The
    generated id has the format digits@host whenever the host part (the
    client id, or else the host name) is not empty and has no line
    terminator in it; the random number is taken between 0 and 10^21,
    where it is written in plain decimal digits. *)
Theorem C4_getOrCreate_loads_valid_or_creates :
  ∀ (cfg : Config) (env : Env) (st : State),
    (∀ s, session st = Some s → id s = "") →
    let result := getOrCreate cfg env st in
    match loads_stored cfg env st with
    | Some stored =>
        result.1 = id stored
        ∧ _isValidSessionIdFormat result.1 = true
    | None =>
        result.1
        = number_to_string (randomId env) +:+ "@"
          +:+ host_part (clientId cfg) env
        ∧ (0 ≤ randomId env < 10 ^ 21 →
           host_part (clientId cfg) env ≠ "" →
           has_line_terminator (host_part (clientId cfg) env) = false →
           _isValidSessionIdFormat result.1 = true)
    end
    ∧ getSessionId result.2 = Some result.1.
Proof.
  intros cfg env st Hmem result. subst result.
  assert (getOrCreate cfg env st = load_or_create cfg env st) as ->.
  { unfold getOrCreate. destruct (session st) as [s|] eqn:Hs; [|done].
    by rewrite (Hmem s eq_refl). }
  assert (generateSessionId (clientId cfg) env
          = number_to_string (randomId env) +:+ "@"
            +:+ host_part (clientId cfg) env) as Hgen by done.
  assert (∀ st0 : State,
            (_createNewSession cfg env st0).1
            = generateSessionId (clientId cfg) env
            ∧ getSessionId (_createNewSession cfg env st0).2
              = Some (generateSessionId (clientId cfg) env)) as Hnew.
  { intros st0. unfold _createNewSession, _startAutoClearTimer, _save, getSessionId.
    cbn. by destruct (negb (autoClearCache cfg)). }
  assert (0 ≤ randomId env < 10 ^ 21 →
          host_part (clientId cfg) env ≠ "" →
          has_line_terminator (host_part (clientId cfg) env) = false →
          _isValidSessionIdFormat (generateSessionId (clientId cfg) env) = true)
    as Hfresh.
  { intros [Hrandom _] Hhost Hlt. by apply generateSessionId_valid. }
  unfold loads_stored, load_or_create.
  destruct (storage_get sessionKey (storage st)) as [stored|].
  - destruct (_isSessionValid cfg env stored) eqn:Hvalid.
    + pose proof Hvalid as Hspec. apply isSessionValid_spec in Hspec.
      rewrite (bool_decide_eq_true_2 _ Hspec).
      destruct Hspec as (_ & _ & Hformat & _).
      split; [done|]. unfold _updateLastActivity, _save, getSessionId. done.
    + rewrite bool_decide_eq_false_2
        by (intros Hspec%isSessionValid_spec; congruence).
      destruct (Hnew st) as [-> ->]. rewrite <-Hgen. done.
  - destruct (Hnew st) as [-> ->]. rewrite <-Hgen. done.
Qed.

End Manager.

End SessionIdFacts.

(** The session manager on top of the persistent store, with a browser
    that never runs out of quota. *)
#[local] Instance browser_storage :
  SessionManager.StorageApi (StorageManager.Storage SessionManager.Session) :=
  {| SessionManager.storage_get := StorageManager.get;
     SessionManager.storage_set :=
       StorageManager.set (λ _ _ _, StorageManager.Stored);
     SessionManager.storage_remove := StorageManager.remove |}.

Definition session_cfg : SessionManager.Config :=
  {| SessionManager.autoClearCache := true;
     SessionManager.cacheTimeout := 1800000;
     SessionManager.contactTimeout := 86400000;
     SessionManager.clientId := None |}.

(** A store holding the session 1544648616824@localhost, last active at
    time [t]. *)
Definition store_with_session (t : Z)
  : @SessionManager.State (StorageManager.Storage SessionManager.Session) :=
  {| SessionManager.storage :=
       [("weni:webchat:session",
         StorageManager.Envelope (Some "1.0.0") (Some t)
           {| SessionManager.id := "1544648616824@localhost";
              SessionManager.createdAt := 1000;
              SessionManager.lastActivity := t;
              SessionManager.metadata := [] |})];
     SessionManager.session := None;
     SessionManager.clearTimer := None |}.

(** A page on [host] at time [t], where [Math.random()] returns one
    half. *)
Definition browser (t : Z) (host : string) : Helpers.Env :=
  {| Helpers.now := t; Helpers.randomId := t / 2; Helpers.hostname := host |}.

Lemma C4_getOrCreate_witness :
  let result :=
    (SessionManager.getOrCreate session_cfg (browser 100000000 "localhost")
       (store_with_session 99000000)).1 in
  SessionManager._isValidSessionIdFormat result = true
  ∧ result = "1544648616824@localhost".
Proof.
  intros result. subst result.
  destruct (C4_getOrCreate_loads_valid_or_creates session_cfg
              (browser 100000000 "localhost") (store_with_session 99000000))
    as [[Hresult Hformat] _].
  - intros s [=].
  - split; [exact Hformat|exact Hresult].
Defined.

(** The stored id has the format, but the session was last active more
    than [contactTimeout] ago: a new id is generated instead of the stored
    one being returned.  And where the page has no host name, a generated
    id ends in the at sign and does not have the format. *)
Lemma C4_counterexample :
  let expired :=
    SessionManager.getOrCreate session_cfg (browser 100000000 "localhost")
      (store_with_session 1000) in
  let hostless :=
    SessionManager.getOrCreate session_cfg (browser 100000000 "")
      (store_with_session 1000) in
  SessionManager._isValidSessionIdFormat "1544648616824@localhost" = true
  ∧ expired.1 = "50000000@localhost"
  ∧ expired.1 ≠ "1544648616824@localhost"
  ∧ hostless.1 = "50000000@"
  ∧ SessionManager._isValidSessionIdFormat hostless.1 = false.
Proof. cbv zeta. split_and!; by vm_compute. Qed.

(** * Further properties *)

(** ** More on the streaming message processor *)


Section StreamInvariants.
Import MessageProcessor.

(** *** Projections of the stream handlers *)

Lemma core_fields st st' :
  stream_core st' = stream_core st →
  streams st' = streams st ∧ pendingDeltas st' = pendingDeltas st
  ∧ nextExpectedSeq st' = nextExpectedSeq st
  ∧ activeStreamId st' = activeStreamId st
  ∧ recentIncomingTexts st' = recentIncomingTexts st.
Proof. unfold stream_core. by intros [= -> -> -> -> ->]. Qed.

Lemma fields_appendStreamContent env sid content st :
  let st' := _appendStreamContent env sid content st in
  pendingDeltas st' = pendingDeltas st
  ∧ nextExpectedSeq st' = nextExpectedSeq st
  ∧ activeStreamId st' = activeStreamId st
  ∧ recentIncomingTexts st' = recentIncomingTexts st
  ∧ isTypingActive st' = isTypingActive st
  ∧ isThinkingActive st' = isThinkingActive st.
Proof. unfold _appendStreamContent. by case_match. Qed.

Lemma fields_applyPendingDeltas_loop env sid fuel :
  ∀ st,
    let st' := applyPendingDeltas_loop fuel env sid st in
    nextExpectedSeq st ≤ nextExpectedSeq st'
    ∧ activeStreamId st' = activeStreamId st
    ∧ recentIncomingTexts st' = recentIncomingTexts st
    ∧ isTypingActive st' = isTypingActive st
    ∧ isThinkingActive st' = isThinkingActive st.
Proof.
  induction fuel as [|fuel IH]; intros st; cbn; [by split_and!|].
  destruct (pendingDeltas st !! _) as [content|]; [|by split_and!].
  match goal with
  | |- context [applyPendingDeltas_loop fuel env sid ?s] =>
      destruct (IH s) as (Hn & -> & -> & -> & ->)
  end.
  cbn in *.
  match goal with
  | |- context [_appendStreamContent env sid content ?s] =>
      destruct (fields_appendStreamContent env sid content s)
        as (_ & Hn' & -> & -> & -> & ->);
      rewrite Hn' in Hn
  end.
  cbn in *. rewrite Hn'. split_and!; try done. lia.
Qed.

Lemma fields_processDeltaSequence env q content st :
  let st' := _processDeltaSequence env q content st in
  nextExpectedSeq st ≤ nextExpectedSeq st'
  ∧ activeStreamId st' = activeStreamId st
  ∧ recentIncomingTexts st' = recentIncomingTexts st
  ∧ isTypingActive st' = isTypingActive st
  ∧ isThinkingActive st' = isThinkingActive st.
Proof.
  unfold _processDeltaSequence, _applyPendingDeltas.
  repeat case_bool_decide; [|by split_and!..].
  match goal with
  | |- context [applyPendingDeltas_loop ?f env ?sid ?s] =>
      destruct (fields_applyPendingDeltas_loop env sid f s)
        as (Hn & -> & -> & -> & ->)
  end.
  cbn in *.
  destruct (fields_appendStreamContent env (activeStreamId st) content st)
    as (_ & Hn' & -> & -> & -> & ->).
  rewrite Hn' in Hn. rewrite ?Hn'. split_and!; try done. lia.
Qed.

(** *** X1: stale deltas *)

(** X1.  While a stream is active, a delta whose sequence number lies
    below the next expected one (a chunk that was applied already, or a
    number below 1) is dropped: the state, and with it the event log, is
    what it was. *)
Theorem stale_delta_is_ignored :
  ∀ (cfg : Config) (env : Env) (raw : RawMessage) (st : State) (q : Qc),
    _extractMessageType raw = "delta" →
    raw_seq raw = Some (Js.Num (Js.Fin q)) →
    Js.truthy_str (activeStreamId st) = true →
    (q < Qc_of_Z (nextExpectedSeq st))%Qc →
    process cfg env raw st = st.
Proof.
  intros cfg env raw st q Htype Hseq Hactive Hlt.
  unfold process. rewrite Htype. cbn.
  unfold _processDelta. rewrite Hseq. cbn.
  destruct (negb (bool_decide _)) eqn:Hvalid; [done|].
  apply negb_false_iff, bool_decide_eq_true in Hvalid.
  rewrite Hactive. cbn.
  assert (_isFirstDelta q st = false) as ->.
  { unfold _isFirstDelta. case_bool_decide as Hn; [|done].
    rewrite Hn in Hlt. cbn. apply bool_decide_eq_false.
    by apply Qclt_not_le. }
  unfold _processDeltaSequence.
  rewrite bool_decide_eq_false_2.
  2:{ intros ->. by apply (Qclt_not_le _ _ Hlt). }
  rewrite bool_decide_eq_false_2; [done|].
  intros Hgt. by apply (Qclt_not_le _ _ Hlt), Qclt_le_weak.
Qed.

Lemma stale_delta_witness :
  let opened :=
    processBatch example_cfg
      [(at_time 1, stream_start_frame "A");
       (at_time 2, delta_frame (Js.int 1) "Hi")] init in
  process example_cfg (at_time 3) (delta_frame (Js.int 1) "Hi") opened = opened.
Proof.
  intros opened.
  apply (stale_delta_is_ignored example_cfg (at_time 3)
           (delta_frame (Js.int 1) "Hi") opened (Qc_of_Z 1));
    by vm_compute.
Defined.


(** *** The handlers, one by one *)

Lemma process_cases cfg env raw st (P : State → Prop) :
  P (_processUserMessage env raw st) →
  P (_processStreamStart env raw st) →
  P (_processDelta env raw st) →
  P (_processStreamEnd env raw st) →
  P (_handleTypingIndicator cfg raw st) →
  P (emit (MESSAGE_UNKNOWN raw) st) →
  P (process cfg env raw st).
Proof. intros. unfold process. by repeat case_match. Qed.

Lemma stream_core_processUserMessage env raw st :
  stream_core (_processUserMessage env raw st) = stream_core st.
Proof.
  unfold _processUserMessage.
  repeat case_match; try done;
    rewrite ?stream_core_enqueue; apply stream_core_stopTypingIfActive.
Qed.

Lemma stream_core_handleTypingIndicator cfg raw st :
  stream_core (_handleTypingIndicator cfg raw st) = stream_core st.
Proof. unfold _handleTypingIndicator. by repeat case_match. Qed.

(** The state a delta is sequenced in: a synthetic stream when none is
    active, the deferred message on the first delta. *)
Definition delta_entry (env : Env) (raw : RawMessage) (q : Qc) (st : State)
  : State :=
  let st1 := if negb (Js.truthy_str (activeStreamId st))
             then _initializeSyntheticStream env raw st
             else st in
  if _isFirstDelta q st1 then _handleFirstDelta env st1 else st1.

Lemma processDelta_valid env raw st q :
  raw_seq raw = Some (Js.Num (Js.Fin q)) →
  (Qc_of_Z STREAM_INITIAL_SEQUENCE ≤ q)%Qc →
  _processDelta env raw st
  = _processDeltaSequence env q
      (default "" (Js.or_str (raw_v raw) (Some ""))) (delta_entry env raw q st).
Proof.
  intros Hseq Hq. unfold _processDelta, delta_entry. rewrite Hseq. cbn.
  by rewrite (bool_decide_eq_true_2 _ Hq).
Qed.

Lemma processDelta_cases env raw st :
  _processDelta env raw st = st
  ∨ ∃ q, (Qc_of_Z STREAM_INITIAL_SEQUENCE ≤ q)%Qc
         ∧ _processDelta env raw st
           = _processDeltaSequence env q
               (default "" (Js.or_str (raw_v raw) (Some "")))
               (delta_entry env raw q st).
Proof.
  unfold _processDelta, delta_entry.
  destruct (_isValidSequenceNumber _) eqn:Hvalid; [|by left].
  apply isValidSequenceNumber_spec in Hvalid as (q & -> & Hq).
  right. by exists q.
Qed.

Lemma delta_entry_active env raw q st :
  Js.truthy_str (activeStreamId st) = true →
  stream_core (delta_entry env raw q st) = stream_core st.
Proof.
  intros Hact. unfold delta_entry. rewrite Hact. cbn.
  destruct (_isFirstDelta q st); [|done].
  apply stream_core_handleFirstDelta.
Qed.

Lemma delta_entry_synthetic env raw q st :
  Js.truthy_str (activeStreamId st) = false →
  stream_core (delta_entry env raw q st)
  = (<[_getMessageIdFromRaw raw := {| text := ""; timestamp := now env |}]>
       (streams st),
     ∅, STREAM_INITIAL_SEQUENCE, _getMessageIdFromRaw raw,
     recentIncomingTexts st).
Proof.
  intros Hact. unfold delta_entry. rewrite Hact. cbn.
  assert (stream_core (_initializeSyntheticStream env raw st)
          = (<[_getMessageIdFromRaw raw
               := {| text := ""; timestamp := now env |}]> (streams st),
             ∅, STREAM_INITIAL_SEQUENCE, _getMessageIdFromRaw raw,
             recentIncomingTexts st)) as Hsyn.
  { unfold _initializeSyntheticStream. by rewrite stream_core_enqueue. }
  destruct (_isFirstDelta q _); [|done].
  by rewrite stream_core_handleFirstDelta.
Qed.

(** What [stream_end] leaves behind. *)
Lemma processStreamEnd_fields env raw st id :
  _getMessageIdFromRaw raw = Some id →
  let st' := _processStreamEnd env raw st in
  let finalText := default "" (stream_text id st) in
  streams st' = delete (Some id) (streams st)
  ∧ (activeStreamId st = Some id →
     activeStreamId st' = None ∧ pendingDeltas st' = ∅
     ∧ nextExpectedSeq st' = STREAM_INITIAL_SEQUENCE
     ∧ streamMessageEmitted st' = false)
  ∧ (activeStreamId st ≠ Some id →
     activeStreamId st' = activeStreamId st
     ∧ pendingDeltas st' = pendingDeltas st
     ∧ nextExpectedSeq st' = nextExpectedSeq st)
  ∧ isTypingActive st' = false ∧ isThinkingActive st' = false
  ∧ recentIncomingTexts st'
    = recentIncomingTexts (_rememberIncomingText finalText st)
  ∧ events st'
    = events (stopTypingIfActive st)
      ++ [MESSAGE_UPDATED (Some id) finalText delivered (now env)].
Proof.
  intros Hid. unfold _processStreamEnd, stream_text. rewrite Hid.
  destruct (core_fields st (stopTypingIfActive st)
              (stream_core_stopTypingIfActive st))
    as (Hs & Hp & Hn & Ha & Hw).
  destruct (stopTypingIfActive_fields st) as (_ & _ & _ & Hty & Hth).
  revert Hs Hp Hn Ha Hw Hty Hth.
  generalize (stopTypingIfActive st). intros s1 Hs Hp Hn Ha Hw Hty Hth.
  rewrite Hs.
  assert (match streams st !! Some id with
          | Some streamData => text streamData
          | None => ""
          end = default "" (text <$> streams st !! Some id)) as ->
    by (by destruct (streams st !! Some id)).
  generalize (default "" (text <$> streams st !! Some id)). intros finalText.
  unfold _rememberIncomingText, _cleanupStream.
  destruct s1; cbn in *. subst.
  repeat case_bool_decide; cbn; split_and!; try done; by intros [].
Qed.

(** *** X2: the sequencing invariant *)

(** The next expected sequence number is at least 1 and no buffered chunk
    waits under it. *)
Definition sequenced (st : State) : Prop :=
  STREAM_INITIAL_SEQUENCE ≤ nextExpectedSeq st
  ∧ pendingDeltas st !! Qc_of_Z (nextExpectedSeq st) = None.

Lemma sequenced_core st st' :
  sequenced st → stream_core st' = stream_core st → sequenced st'.
Proof.
  intros Hst (_ & Hp & Hn & _)%core_fields. unfold sequenced.
  by rewrite Hp, Hn.
Qed.

Lemma sequenced_process cfg env raw st :
  sequenced st → sequenced (process cfg env raw st).
Proof.
  intros Hst. apply process_cases.
  - by apply (sequenced_core st _ Hst), stream_core_processUserMessage.
  - unfold _processStreamStart. by destruct (_getMessageIdFromRaw raw).
  - destruct (processDelta_cases env raw st) as [->|(q & Hq & ->)]; [done|].
    assert (sequenced (delta_entry env raw q st)) as [Hn Hp].
    { destruct (Js.truthy_str (activeStreamId st)) eqn:Hact.
      - by apply (sequenced_core st _ Hst), delta_entry_active.
      - pose proof (delta_entry_synthetic env raw q st Hact) as Hc.
        unfold stream_core in Hc. injection Hc as _ Hp Hn _ _.
        unfold sequenced. by rewrite Hp, Hn. }
    split.
    + etrans; [exact Hn|]. apply fields_processDeltaSequence.
    + unfold _processDeltaSequence.
      case_bool_decide as Heq; [apply applyPendingDeltas_exits|].
      case_bool_decide as Hlt; [|done].
      cbn. by rewrite lookup_insert_ne.
  - destruct (_getMessageIdFromRaw raw) as [messageId|] eqn:Hid.
    + destruct (processStreamEnd_fields env raw st messageId Hid)
        as (_ & Hactive & Hother & _).
      destruct (decide (activeStreamId st = Some messageId)) as [Ha|Ha].
      * destruct (Hactive Ha) as (_ & Hp & Hn & _).
        unfold sequenced. by rewrite Hp, Hn.
      * destruct (Hother Ha) as (_ & Hp & Hn).
        unfold sequenced. rewrite Hp, Hn. apply Hst.
    + unfold _processStreamEnd. by rewrite Hid.
  - by apply (sequenced_core st _ Hst), stream_core_handleTypingIndicator.
  - done.
Qed.

(** X2.  Whatever frames arrive, in whatever order: the next expected
    sequence number never drops below 1, and no buffered chunk is ever
    left waiting under the number that is expected next. *)
Theorem no_chunk_waits_at_expected_seq :
  ∀ (cfg : Config) (frames : list (Env * RawMessage)) (st : State),
    STREAM_INITIAL_SEQUENCE ≤ nextExpectedSeq st →
    pendingDeltas st !! Qc_of_Z (nextExpectedSeq st) = None →
    let st' := processBatch cfg frames st in
    STREAM_INITIAL_SEQUENCE ≤ nextExpectedSeq st'
    ∧ pendingDeltas st' !! Qc_of_Z (nextExpectedSeq st') = None.
Proof.
  intros cfg frames.
  induction frames as [|[env raw] frames IH]; intros st Hn Hp; [done|].
  cbn. by apply IH; apply (sequenced_process cfg env raw st).
Qed.

Lemma no_chunk_waits_witness :
  let st' :=
    processBatch example_cfg
      [(at_time 1, stream_start_frame "A");
       (at_time 2, delta_frame (Js.int 3) "c");
       (at_time 3, delta_frame (Js.int 1) "a")] init in
  STREAM_INITIAL_SEQUENCE ≤ nextExpectedSeq st'
  ∧ pendingDeltas st' !! Qc_of_Z (nextExpectedSeq st') = None.
Proof.
  apply (no_chunk_waits_at_expected_seq example_cfg
           [(at_time 1, stream_start_frame "A");
            (at_time 2, delta_frame (Js.int 3) "c");
            (at_time 3, delta_frame (Js.int 1) "a")] init);
    by vm_compute.
Defined.


(** *** X3: a delta only appends *)

Lemma streams_appendStreamContent env sid content st :
  (∀ k, k ≠ sid →
        streams (_appendStreamContent env sid content st) !! k
        = streams st !! k)
  ∧ (∀ t, text <$> streams st !! sid = Some t →
          text <$> streams (_appendStreamContent env sid content st) !! sid
          = Some (t +:+ content)).
Proof.
  unfold _appendStreamContent.
  destruct (streams st !! sid) as [cur|] eqn:Hcur; cbn.
  - split.
    + intros k Hk. by rewrite lookup_insert_ne.
    + intros t [= <-]. by rewrite lookup_insert_eq.
  - by split.
Qed.

Lemma streams_applyPendingDeltas_loop env sid fuel :
  ∀ st,
    (∀ k, k ≠ sid →
          streams (applyPendingDeltas_loop fuel env sid st) !! k
          = streams st !! k)
    ∧ (∀ t, text <$> streams st !! sid = Some t →
            ∃ suffix,
              text <$> streams (applyPendingDeltas_loop fuel env sid st) !! sid
              = Some (t +:+ suffix)).
Proof.
  induction fuel as [|fuel IH]; intros st; cbn.
  - split; [done|]. intros t Ht. exists "". by rewrite string_app_nil_r.
  - destruct (pendingDeltas st !! _) as [content|].
    2:{ split; [done|]. intros t Ht. exists "". by rewrite string_app_nil_r. }
    match goal with
    | |- context [applyPendingDeltas_loop fuel env sid ?s] =>
        destruct (IH s) as [Hother Hgrow]
    end.
    match type of Hother with
    | context [_appendStreamContent env sid content ?s] =>
        destruct (streams_appendStreamContent env sid content s)
          as [Hother1 Hgrow1]
    end.
    split.
    + intros k Hk. rewrite (Hother k Hk). cbn. by rewrite (Hother1 k Hk).
    + intros t Ht.
      destruct (Hgrow (t +:+ content)) as [suffix Hsuffix].
      { cbn. by apply Hgrow1. }
      exists (content +:+ suffix). by rewrite <-string_app_assoc.
Qed.

Lemma streams_processDeltaSequence env q content st :
  let sid := activeStreamId st in
  let st' := _processDeltaSequence env q content st in
  (∀ k, k ≠ sid → streams st' !! k = streams st !! k)
  ∧ (∀ t, text <$> streams st !! sid = Some t →
          ∃ suffix, text <$> streams st' !! sid = Some (t +:+ suffix)).
Proof.
  cbn. unfold _processDeltaSequence, _applyPendingDeltas.
  case_bool_decide as Heq.
  - match goal with
    | |- context [applyPendingDeltas_loop ?f env ?sid ?s] =>
        destruct (streams_applyPendingDeltas_loop env sid f s)
          as [Hother Hgrow]
    end.
    destruct (streams_appendStreamContent env (activeStreamId st) content st)
      as [Hother1 Hgrow1].
    split.
    + intros k Hk. rewrite (Hother k Hk). cbn. by rewrite (Hother1 k Hk).
    + intros t Ht.
      destruct (Hgrow (t +:+ content)) as [suffix Hsuffix].
      { cbn. by apply Hgrow1. }
      exists (content +:+ suffix). by rewrite <-string_app_assoc.
  - assert (∀ t, text <$> streams st !! activeStreamId st = Some t →
                 ∃ suffix,
                   text <$> streams st !! activeStreamId st
                   = Some (t +:+ suffix)) as Hsame.
    { intros t Ht. exists "". by rewrite string_app_nil_r. }
    by case_bool_decide.
Qed.

(** X3.  A delta frame for the active stream only ever appends: the text
    accumulated so far is a prefix of the text afterwards, the stream stays
    the active one, and the record of no other stream is touched. *)
Theorem delta_only_appends :
  ∀ (cfg : Config) (env : Env) (raw : RawMessage) (st : State)
    (sid t : string),
    _extractMessageType raw = "delta" →
    activeStreamId st = Some sid →
    sid ≠ "" →
    stream_text sid st = Some t →
    let st' := process cfg env raw st in
    (∃ suffix, stream_text sid st' = Some (t +:+ suffix))
    ∧ activeStreamId st' = Some sid
    ∧ ∀ k, k ≠ Some sid → streams st' !! k = streams st !! k.
Proof.
  intros cfg env raw st sid t Htype Hactive Hsid Ht st'. subst st'.
  unfold process. rewrite Htype. cbn. unfold stream_text in *.
  destruct (processDelta_cases env raw st) as [->|(q & Hq & ->)].
  { split_and!; [|done..]. exists "". by rewrite string_app_nil_r. }
  assert (Js.truthy_str (activeStreamId st) = true) as Htruthy.
  { rewrite Hactive. cbn. by apply bool_decide_eq_true. }
  destruct (core_fields _ _ (delta_entry_active env raw q st Htruthy))
    as (Hs & _ & _ & Ha & _).
  match goal with
  | |- context [_processDeltaSequence env q ?c ?s] =>
      destruct (streams_processDeltaSequence env q c s) as [Hother Hgrow];
      destruct (fields_processDeltaSequence env q c s) as (_ & Ha' & _)
  end.
  rewrite Ha, Hactive in Hother, Hgrow, Ha'. rewrite Hs in Hother, Hgrow.
  split_and!; [by apply Hgrow|done|done].
Qed.

Lemma delta_only_appends_witness :
  let opened :=
    processBatch example_cfg
      [(at_time 1, stream_start_frame "A");
       (at_time 2, delta_frame (Js.int 1) "Hel")] init in
  let st' := process example_cfg (at_time 3) (delta_frame (Js.int 2) "lo") opened in
  (∃ suffix, stream_text "msg_A" st' = Some ("Hel" +:+ suffix))
  ∧ activeStreamId st' = Some "msg_A"
  ∧ ∀ k, k ≠ Some "msg_A" → streams st' !! k = streams opened !! k.
Proof.
  intros opened.
  apply (delta_only_appends example_cfg (at_time 3)
           (delta_frame (Js.int 2) "lo") opened "msg_A" "Hel");
    by vm_compute.
Defined.

(** *** X4: the dedup window *)

Lemma elem_of_drop_inv {A} (x : A) (n : nat) (l : list A) :
  x ∈ drop n l → x ∈ l.
Proof.
  intros Hx. rewrite <-(take_drop n l). apply elem_of_app. by right.
Qed.

Lemma last_drop_lt {A} (n : nat) (l : list A) :
  (n < length l)%nat → last (drop n l) = last l.
Proof.
  intros Hn. rewrite !last_lookup, lookup_drop, length_drop.
  f_equal. lia.
Qed.

Lemma rememberIncomingText_window (t : string) st :
  let l := recentIncomingTexts (_rememberIncomingText t st) in
  ((length (recentIncomingTexts st) ≤ 5)%nat → (length l ≤ 5)%nat)
  ∧ ("" ∉ recentIncomingTexts st → "" ∉ l)
  ∧ (t ≠ "" → (length l ≤ 5)%nat ∧ last l = Some t).
Proof.
  unfold _rememberIncomingText. case_bool_decide as Ht; [done|]. cbn.
  assert ("" ∉ recentIncomingTexts st → "" ∉ recentIncomingTexts st ++ [t])
    as Hno.
  { intros Hno [Hin|Hin%list_elem_of_singleton]%elem_of_app; by try apply Ht. }
  case_bool_decide as Hlen.
  - rewrite length_drop. rewrite length_app in *. cbn in *. split_and!.
    + lia.
    + intros H Hin%elem_of_drop_inv. by apply Hno.
    + intros _. split; [lia|].
      rewrite last_drop_lt, last_snoc; [done|].
      rewrite length_app. cbn. lia.
  - rewrite length_app in *. cbn in *. split_and!.
    + lia.
    + done.
    + intros _. split; [lia|]. by rewrite last_snoc.
Qed.

Definition window_ok (st : State) : Prop :=
  (length (recentIncomingTexts st) ≤ 5)%nat ∧ "" ∉ recentIncomingTexts st.

Lemma window_ok_process cfg env raw st :
  window_ok st → window_ok (process cfg env raw st).
Proof.
  intros Hst.
  assert (∀ st', recentIncomingTexts st' = recentIncomingTexts st →
                 window_ok st') as Hsame.
  { intros st' Hw. unfold window_ok. by rewrite Hw. }
  apply process_cases.
  - apply Hsame. by apply core_fields, stream_core_processUserMessage.
  - unfold _processStreamStart. by destruct (_getMessageIdFromRaw raw).
  - destruct (processDelta_cases env raw st) as [->|(q & Hq & ->)]; [done|].
    apply Hsame.
    match goal with
    | |- context [_processDeltaSequence env q ?c ?s] =>
        destruct (fields_processDeltaSequence env q c s) as (_ & _ & -> & _)
    end.
    destruct (Js.truthy_str (activeStreamId st)) eqn:Hact.
    + by apply core_fields, delta_entry_active.
    + pose proof (delta_entry_synthetic env raw q st Hact) as Hc.
      unfold stream_core in Hc. by injection Hc.
  - destruct (_getMessageIdFromRaw raw) as [messageId|] eqn:Hid.
    + destruct (processStreamEnd_fields env raw st messageId Hid)
        as (_ & _ & _ & _ & _ & Hw & _).
      unfold window_ok. rewrite Hw.
      match goal with
      | |- context [_rememberIncomingText ?t st] =>
          destruct (rememberIncomingText_window t st) as (Hlen & Hno & _)
      end.
      destruct Hst. by split; [apply Hlen|apply Hno].
    + unfold _processStreamEnd. by rewrite Hid.
  - apply Hsame. by apply core_fields, stream_core_handleTypingIndicator.
  - done.
Qed.

(** X4.  The dedup window never holds more than 5 texts and never the
    empty text, whatever frames are processed. *)
Theorem dedup_window_is_bounded :
  ∀ (cfg : Config) (frames : list (Env * RawMessage)) (st : State),
    (length (recentIncomingTexts st) ≤ 5)%nat →
    "" ∉ recentIncomingTexts st →
    let st' := processBatch cfg frames st in
    (length (recentIncomingTexts st') ≤ 5)%nat
    ∧ "" ∉ recentIncomingTexts st'.
Proof.
  intros cfg frames.
  induction frames as [|[env raw] frames IH]; intros st Hlen Hno; [done|].
  cbn. by apply IH; apply (window_ok_process cfg env raw st).
Qed.

Lemma dedup_window_witness :
  let st' :=
    processBatch example_cfg
      [(at_time 1, stream_start_frame "A");
       (at_time 2, delta_frame (Js.int 1) "Hello");
       (at_time 3, stream_end_frame (Some "A"))] init in
  (length (recentIncomingTexts st') ≤ 5)%nat ∧ "" ∉ recentIncomingTexts st'.
Proof.
  apply (dedup_window_is_bounded example_cfg
           [(at_time 1, stream_start_frame "A");
            (at_time 2, delta_frame (Js.int 1) "Hello");
            (at_time 3, stream_end_frame (Some "A"))] init).
  - cbn. lia.
  - cbn. apply not_elem_of_nil.
Defined.


(** *** X5, X6: the end of a stream *)

(** X5.  [stream_end] closes its own stream and no other: the record
    under its id is deleted and every other record kept; if the stream was
    the active one the sequencing state is reset (chunks still buffered
    are dropped), otherwise the active stream, its buffer and its expected
    sequence number are untouched.  The one event besides indicator stops
    is the final update, carrying the whole accumulated text. *)
Theorem stream_end_closes_only_its_stream :
  ∀ (cfg : Config) (env : Env) (raw : RawMessage) (st : State) (id : string),
    _extractMessageType raw = "stream_end" →
    _getMessageIdFromRaw raw = Some id →
    let st' := process cfg env raw st in
    let finalText := default "" (stream_text id st) in
    streams st' !! Some id = None
    ∧ (∀ k, k ≠ Some id → streams st' !! k = streams st !! k)
    ∧ (activeStreamId st = Some id →
       activeStreamId st' = None ∧ pendingDeltas st' = ∅
       ∧ nextExpectedSeq st' = STREAM_INITIAL_SEQUENCE)
    ∧ (activeStreamId st ≠ Some id →
       activeStreamId st' = activeStreamId st
       ∧ pendingDeltas st' = pendingDeltas st
       ∧ nextExpectedSeq st' = nextExpectedSeq st)
    ∧ ∃ stops,
        emitted st st'
        = stops ++ [MESSAGE_UPDATED (Some id) finalText delivered (now env)]
        ∧ Forall (λ e, is_indicator_stop e = true) stops.
Proof.
  intros cfg env raw st id Htype Hid st' finalText. subst st' finalText.
  unfold process. rewrite Htype. cbn.
  destruct (processStreamEnd_fields env raw st id Hid)
    as (Hs & Hactive & Hother & _ & _ & _ & Hev).
  rewrite Hs. split_and!.
  - apply lookup_delete_eq.
  - intros k Hk. by apply lookup_delete_ne.
  - intros Ha. destruct (Hactive Ha) as (? & ? & ? & _). done.
  - done.
  - destruct (stopTypingIfActive_events st) as (stops & Hstops & Hall).
    exists stops. split; [|done].
    apply emitted_app. by rewrite Hev, Hstops, <-app_assoc.
Qed.

Lemma stream_end_closes_witness :
  let st :=
    processBatch example_cfg
      [(at_time 1, stream_start_frame "A");
       (at_time 2, delta_frame (Js.int 1) "Hi");
       (at_time 3, delta_frame (Js.int 3) "!")] init in
  let st' := process example_cfg (at_time 4) (stream_end_frame (Some "A")) st in
  streams st' !! Some "msg_A" = None
  ∧ activeStreamId st' = None ∧ pendingDeltas st' = ∅
  ∧ emitted st st' = [MESSAGE_UPDATED (Some "msg_A") "Hi" delivered 4].
Proof.
  intros st.
  destruct (stream_end_closes_only_its_stream example_cfg (at_time 4)
              (stream_end_frame (Some "A")) st "msg_A")
    as (Hgone & _ & Hactive & _ & _); [by vm_compute..|].
  destruct Hactive as (Ha & Hp & _); [by vm_compute|].
  split_and!; [exact Hgone|exact Ha|exact Hp|by vm_compute].
Defined.

(** A [message] frame whose text is in the dedup window does what
    stopping the indicators does. *)
Lemma duplicate_message_step cfg env raw st (s : string) :
  _extractMessageType raw = "message" →
  normalized_text raw = Some s →
  s ≠ "" →
  s ∈ recentIncomingTexts st →
  process cfg env raw st = stopTypingIfActive st.
Proof.
  intros Htype Htext Hs Hin.
  unfold process. rewrite Htype. cbn.
  unfold _processUserMessage, _validateMessage. cbn.
  rewrite (message_frame_type raw Htype). cbn.
  unfold normalized_text in Htext.
  destruct (raw_message raw) as [m|]; [|done].
  destruct (m_text m) as [| | | |t] eqn:Hm; try done.
  injection Htext as ->. cbn.
  rewrite (bool_decide_eq_true_2 (s ≠ "")) by done.
  unfold _isDuplicateIncomingText.
  rewrite (bool_decide_eq_false_2 (s = "")) by done.
  destruct (core_fields _ _ (stream_core_stopTypingIfActive st))
    as (_ & _ & _ & _ & ->).
  rewrite (bool_decide_eq_true_2 (s ∈ recentIncomingTexts st)) by done.
  rewrite (bool_decide_eq_true_2 ("message" ≠ "")) by done.
  by rewrite (bool_decide_eq_true_2 ("message" = "message")) by done.
Qed.

(** X6.  The text a stream has delivered is remembered when the stream
    ends, so a [message] frame that repeats it right afterwards is
    dropped without any effect: no event, no state change. *)
Theorem text_repeated_after_stream_end_is_dropped :
  ∀ (cfg : Config) (env1 env2 : Env) (raw_end raw_msg : RawMessage)
    (st : State) (id t : string),
    _extractMessageType raw_end = "stream_end" →
    _getMessageIdFromRaw raw_end = Some id →
    stream_text id st = Some t →
    t ≠ "" →
    _extractMessageType raw_msg = "message" →
    normalized_text raw_msg = Some t →
    let ended := process cfg env1 raw_end st in
    last (recentIncomingTexts ended) = Some t
    ∧ process cfg env2 raw_msg ended = ended.
Proof.
  intros cfg env1 env2 raw_end raw_msg st id t Hend Hid Ht Hne Hmsg Htext ended.
  assert (ended = _processStreamEnd env1 raw_end st) as Hended.
  { subst ended. unfold process. by rewrite Hend. }
  destruct (processStreamEnd_fields env1 raw_end st id Hid)
    as (_ & _ & _ & Hty & Hth & Hw & _).
  rewrite <-Hended in Hty, Hth, Hw. rewrite Ht in Hw. cbn in Hw.
  destruct (rememberIncomingText_window t st) as (_ & _ & Hlast).
  destruct (Hlast Hne) as [_ Hl]. rewrite <-Hw in Hl.
  split; [done|].
  rewrite (duplicate_message_step cfg env2 raw_msg ended t); try done.
  - by apply stopTypingIfActive_idle.
  - apply last_Some in Hl as [l' ->]. apply elem_of_app. right.
    by apply list_elem_of_singleton.
Qed.

Lemma text_repeated_witness :
  let st :=
    processBatch example_cfg
      [(at_time 1, stream_start_frame "A");
       (at_time 2, delta_frame (Js.int 1) "Hello")] init in
  let ended := process example_cfg (at_time 3) (stream_end_frame (Some "A")) st in
  last (recentIncomingTexts ended) = Some "Hello"
  ∧ process example_cfg (at_time 4) (text_message_frame "Hello") ended = ended.
Proof.
  intros st.
  apply (text_repeated_after_stream_end_is_dropped example_cfg (at_time 3)
           (at_time 4) (stream_end_frame (Some "A"))
           (text_message_frame "Hello") st "msg_A" "Hello");
    by vm_compute.
Defined.


(** *** X7, X8: the delivery queue *)

(** The suspended loop of [_processQueue] resumed [n] times. *)
Fixpoint resume_times (n : nat) (st : State) : State :=
  match n with
  | O => st
  | S n' => resume_times n' (_processQueue_resume st)
  end.

Lemma resume_times_delivers (q : list Message) :
  ∀ st,
    queue st = q →
    q ≠ [] →
    let st' := resume_times (length q) st in
    events st' = events st ++ (MESSAGE_PROCESSED <$> q)
    ∧ queue st' = [] ∧ isProcessing st' = false.
Proof.
  induction q as [|m rest IH]; intros st Hq Hne; [done|].
  cbn. unfold _processQueue_resume. rewrite Hq.
  destruct rest as [|m' rest'].
  - cbn. by split_and!.
  - destruct (IH (deliver m (m' :: rest') st)) as (Hev & Hqueue & Hproc);
      [done..|].
    split_and!; [|done..].
    rewrite Hev. cbn. by rewrite <-app_assoc.
Qed.

(** X7.  A message that arrives while the delivery loop is suspended is
    queued without an event, and when the loop has resumed once per queued
    message, every message has been emitted exactly once, in arrival
    order, the queue is empty and the loop has ended. *)
Theorem queue_is_delivered_in_arrival_order :
  ∀ (m : Message) (st : State),
    isProcessing st = true →
    let queued := enqueue m st in
    let st' := resume_times (length (queue queued)) queued in
    emitted st queued = []
    ∧ queue queued = queue st ++ [m]
    ∧ emitted st st' = MESSAGE_PROCESSED <$> (queue st ++ [m])
    ∧ queue st' = [] ∧ isProcessing st' = false.
Proof.
  intros m st Hproc queued st'.
  assert (queued = set_queue (queue st ++ [m]) st) as Hqueued.
  { subst queued. unfold enqueue, _processQueue. cbn. by rewrite Hproc. }
  assert (queue queued = queue st ++ [m]) as Hq by (by rewrite Hqueued).
  assert (events queued = events st) as Hev by (by rewrite Hqueued).
  destruct (resume_times_delivers (queue st ++ [m]) queued Hq)
    as (Hev' & Hq' & Hproc').
  { by destruct (queue st). }
  subst st'. rewrite Hq, length_app in *.
  split_and!; try done.
  - apply emitted_app. by rewrite Hev, app_nil_r.
  - apply emitted_app. by rewrite Hev', Hev.
Qed.

Lemma queue_delivery_witness :
  let text_message (t : string) :=
    _normalizeMessage (at_time 1) (text_message_frame t) in
  let suspended :=
    set_isProcessing true (set_queue [text_message "a"; text_message "b"] init) in
  let st' := resume_times 3 (enqueue (text_message "c") suspended) in
  emitted suspended st'
  = [MESSAGE_PROCESSED (text_message "a"); MESSAGE_PROCESSED (text_message "b");
     MESSAGE_PROCESSED (text_message "c")]
  ∧ queue st' = [] ∧ isProcessing st' = false.
Proof.
  intros text_message suspended.
  destruct (queue_is_delivered_in_arrival_order (text_message "c") suspended)
    as (_ & _ & Hev & Hq & Hproc); [reflexivity|].
  split_and!; [exact Hev|exact Hq|exact Hproc].
Defined.

(** X8.  [clearQueue] drops what is queued for good: however often the
    suspended loop resumes afterwards, nothing is emitted, and the
    processor is idle, so that the next message is emitted at once. *)
Theorem clearQueue_drops_queued_messages :
  ∀ (n : nat) (m : Message) (st : State),
    let cleared := resume_times n (clearQueue st) in
    emitted st cleared = []
    ∧ queue cleared = [] ∧ isProcessing cleared = false
    ∧ emitted st (enqueue m cleared) = [MESSAGE_PROCESSED m].
Proof.
  intros n m st.
  assert (resume_times n (clearQueue st) = clearQueue st) as ->.
  { induction n as [|n IH]; [done|]. cbn. exact IH. }
  cbn. split_and!; try done.
  - apply emitted_app. cbn. by rewrite app_nil_r.
  - by apply emitted_app.
Qed.


(** *** X9: a delta with no stream open *)

Lemma enqueue_fields m st :
  streamMessageEmitted (enqueue m st) = streamMessageEmitted st
  ∧ (isProcessing st = false → queue st = [] →
     events (enqueue m st) = events st ++ [MESSAGE_PROCESSED m]).
Proof.
  unfold enqueue, _processQueue, deliver.
  destruct st as [q [] ? ? ? ? ? ? ? ? ? ?]; cbn; [done|].
  split.
  - by destruct (q ++ [m]) as [|? []].
  - by intros _ ->.
Qed.

Lemma filter_processed_stops (stops : list Event) :
  Forall (λ e, is_indicator_stop e = true) stops →
  filter (λ e, is_MESSAGE_PROCESSED e = true) stops = [].
Proof.
  induction 1 as [|e stops He _ IH]; [done|].
  rewrite filter_cons_False; [done|]. by destruct e.
Qed.

Lemma delta_entry_synthetic_emits env raw q st :
  Js.truthy_str (activeStreamId st) = false →
  (Qc_of_Z STREAM_INITIAL_SEQUENCE ≤ q)%Qc →
  let st2 := delta_entry env raw q st in
  streamMessageEmitted st2 = true
  ∧ (isProcessing st = false → queue st = [] →
     ∃ stops,
       events st2
       = events st
         ++ MESSAGE_PROCESSED
              (_createStreamingMessage (_getMessageIdFromRaw raw) (now env))
            :: stops
       ∧ Forall (λ e, is_indicator_stop e = true) stops).
Proof.
  intros Hact Hq. unfold delta_entry. rewrite Hact. cbn.
  unfold _initializeSyntheticStream.
  match goal with
  | |- context [enqueue ?m ?s] =>
      destruct (enqueue_fields m s) as [Hemitted Hevents];
      pose proof (stream_core_enqueue m s) as Hcore;
      revert Hemitted Hevents Hcore; generalize (enqueue m s)
  end.
  cbn. intros st1 Hemitted Hevents (_ & _ & Hn & _)%core_fields.
  cbn in Hn. unfold _isFirstDelta.
  rewrite Hn, (bool_decide_eq_true_2 _ Hq).
  rewrite (bool_decide_eq_true_2 (STREAM_INITIAL_SEQUENCE = _)) by done. cbn.
  unfold _handleFirstDelta.
  destruct (stopTypingIfActive_fields st1) as (_ & _ & Hkeep & _).
  rewrite Hkeep, Hemitted. cbn. split; [by rewrite Hkeep, Hemitted|].
  intros Hproc Hqueue.
  destruct (stopTypingIfActive_events st1) as (stops & -> & Hstops).
  exists stops. split; [|done].
  by rewrite (Hevents Hproc Hqueue), <-app_assoc.
Qed.

(** X9.  A delta with a valid sequence number that arrives while no
    stream is active opens a synthetic stream under the id the frame
    carries ([None] when it carries none): the stream record is created
    anew, the streaming message is marked as emitted, and the chunk is
    applied when its number is 1 and buffered otherwise.  On an idle
    processor exactly one processed-message event is emitted, the empty
    streaming message. *)
Theorem delta_without_stream_opens_synthetic_stream :
  ∀ (cfg : Config) (env : Env) (raw : RawMessage) (st : State) (q : Qc),
    _extractMessageType raw = "delta" →
    raw_seq raw = Some (Js.Num (Js.Fin q)) →
    (Qc_of_Z STREAM_INITIAL_SEQUENCE ≤ q)%Qc →
    Js.truthy_str (activeStreamId st) = false →
    let st' := process cfg env raw st in
    let id := _getMessageIdFromRaw raw in
    let content := default "" (Js.or_str (raw_v raw) (Some "")) in
    activeStreamId st' = id
    ∧ streamMessageEmitted st' = true
    ∧ (if bool_decide (q = Qc_of_Z STREAM_INITIAL_SEQUENCE)
       then streams st' !! id
            = Some {| text := content; timestamp := now env |}
            ∧ nextExpectedSeq st' = STREAM_INITIAL_SEQUENCE + 1
            ∧ pendingDeltas st' = ∅
       else streams st' !! id = Some {| text := ""; timestamp := now env |}
            ∧ nextExpectedSeq st' = STREAM_INITIAL_SEQUENCE
            ∧ pendingDeltas st' = {[ q := content ]})
    ∧ (isProcessing st = false → queue st = [] →
       filter (λ e, is_MESSAGE_PROCESSED e = true) (emitted st st')
       = [MESSAGE_PROCESSED (_createStreamingMessage id (now env))]).
Proof.
  intros cfg env raw st q Htype Hseq Hq Hact st' id content.
  subst st' id content.
  unfold process. rewrite Htype. cbn.
  rewrite (processDelta_valid env raw st q Hseq Hq).
  generalize (default "" (Js.or_str (raw_v raw) (Some ""))). intros content.
  pose proof (delta_entry_synthetic env raw q st Hact) as Hcore.
  destruct (delta_entry_synthetic_emits env raw q st Hact Hq)
    as [Hemitted Hevents].
  revert Hcore Hemitted Hevents.
  generalize (delta_entry env raw q st). generalize (_getMessageIdFromRaw raw).
  intros id st2 Hcore Hemitted Hevents.
  unfold stream_core in Hcore.
  destruct st2 as [qu proc timer ty th ss w a p n e evs].
  cbn in Hcore, Hemitted, Hevents. injection Hcore as -> -> -> -> ->.
  subst e.
  unfold _processDeltaSequence, _applyPendingDeltas, _appendStreamContent.
  cbn. rewrite lookup_insert_eq. cbn.
  case_bool_decide as Hone; cbn.
  - rewrite map_size_empty. cbn. rewrite lookup_insert_eq.
    split_and!; try done.
    intros Hproc Hqueue.
    destruct (Hevents Hproc Hqueue) as (stops & -> & Hstops).
    rewrite (emitted_app _ _
               (MESSAGE_PROCESSED (_createStreamingMessage id (now env))
                :: stops
                   ++ [MESSAGE_UPDATED id ("" +:+ content) streaming
                         (now env)]))
      by (cbn; by rewrite <-app_assoc).
    rewrite filter_cons_True by done. f_equal.
    rewrite filter_app, (filter_processed_stops stops Hstops). done.
  - rewrite (bool_decide_eq_true_2 (Qc_of_Z STREAM_INITIAL_SEQUENCE < q)%Qc).
    2:{ apply Qcnot_le_lt. intros Hle. by apply Hone, Qcle_antisym. }
    cbn. rewrite lookup_insert_eq. split_and!; try done.
    intros Hproc Hqueue.
    destruct (Hevents Hproc Hqueue) as (stops & -> & Hstops).
    rewrite (emitted_app _ _
               (MESSAGE_PROCESSED (_createStreamingMessage id (now env))
                :: stops)) by done.
    rewrite filter_cons_True by done. f_equal.
    by apply filter_processed_stops.
Qed.

Lemma synthetic_stream_witness :
  let st' :=
    process example_cfg (at_time 7)
      {| raw_type := None; raw_v := Some "Hi"; raw_seq := Some (Js.int 1);
         raw_id := Some "S"; raw_from := None; raw_timestamp := None;
         raw_persisted := false; raw_metadata := None; raw_message := None |}
      init in
  activeStreamId st' = Some "msg_S"
  ∧ stream_text "msg_S" st' = Some "Hi"
  ∧ filter (λ e, is_MESSAGE_PROCESSED e = true) (emitted init st')
    = [MESSAGE_PROCESSED (_createStreamingMessage (Some "msg_S") 7)].
Proof.
  intros st'.
  destruct (delta_without_stream_opens_synthetic_stream example_cfg (at_time 7)
              {| raw_type := None; raw_v := Some "Hi";
                 raw_seq := Some (Js.int 1); raw_id := Some "S";
                 raw_from := None; raw_timestamp := None;
                 raw_persisted := false; raw_metadata := None;
                 raw_message := None |} init (Qc_of_Z 1))
    as (Ha & _ & _ & Hev); [by vm_compute..|].
  split_and!; [exact Ha|by vm_compute|by apply Hev].
Defined.

End StreamInvariants.

(** ** More on the retry policy *)

Section RetryScheduleFacts.
Import RetryStrategy.
Local Open Scope Q_scope.

Lemma getDelaySequence_lookup cfg maxAttempts randoms st (i : nat) :
  (i < maxAttempts)%nat →
  getDelaySequence cfg maxAttempts randoms st !! i
  = Some (getDelay cfg (Some (Z.of_nat i)) (randoms i) st).
Proof.
  intros Hi. unfold getDelaySequence.
  rewrite list_lookup_fmap, lookup_seq_lt by done. done.
Qed.

(** X10.  [getDelaySequence(n)] lists the delays of the attempts 0 to
    n - 1 whatever the attempt counter is, which it does not change.
    Without jitter, for an integer base delay and an integer factor of at
    least 1 and an integer cap that is not negative, all below 2^31,
    entry [i] is min(baseDelay * factor^i, maxDelay): the list never
    decreases and none of its entries exceeds [maxDelay]. *)
Theorem delay_sequence_is_a_backoff_schedule :
  ∀ (cfg : Config) (maxAttempts : nat) (randoms : nat → Q) (st : State)
    (b f m : Z),
    jitter cfg = false →
    exact_parameters cfg b f m →
    let ds := getDelaySequence cfg maxAttempts randoms st in
    length ds = maxAttempts
    ∧ (∀ st', getDelaySequence cfg maxAttempts randoms st' = ds)
    ∧ (∀ (i : nat) (d : Z),
         ds !! i = Some d →
         d = Z.min (b * f ^ Z.of_nat i) m ∧ (d ≤ m)%Z)
    ∧ (∀ (i j : nat) (d e : Z),
         (i ≤ j)%nat → ds !! i = Some d → ds !! j = Some e → (d ≤ e)%Z).
Proof.
  intros cfg maxAttempts randoms st b f m Hjitter Hexact ds.
  assert (length ds = maxAttempts) as Hlen.
  { subst ds. unfold getDelaySequence. by rewrite length_fmap, length_seq. }
  assert (∀ (i : nat) (d : Z),
            ds !! i = Some d → d = Z.min (b * f ^ Z.of_nat i) m) as Hentry.
  { intros i d Hd.
    assert (i < maxAttempts)%nat as Hi
      by (rewrite <-Hlen; by eapply lookup_lt_Some).
    subst ds. rewrite getDelaySequence_lookup in Hd by done.
    injection Hd as <-. apply getDelay_exact; [done|lia|done]. }
  split_and!; [done|done| |].
  - intros i d Hd. split; [by apply Hentry|].
    rewrite (Hentry i d Hd). apply Z.le_min_r.
  - intros i j d e Hij Hd He.
    rewrite (Hentry i d Hd), (Hentry j e He).
    destruct Hexact as (_ & _ & _ & Hb & Hf & _).
    apply Z.min_le_compat_r, Z.mul_le_mono_nonneg_l; [lia|].
    apply Z.pow_le_mono_r; lia.
Qed.

Lemma delay_sequence_witness :
  let cfg :=
    make_config {| opt_baseDelay := None; opt_maxDelay := Some 5000;
                   opt_factor := None; opt_jitter := Some false;
                   opt_maxJitter := None |} in
  exact_parameters cfg 1000%Z 2%Z 5000%Z
  ∧ getDelaySequence cfg 5 (λ _, 0) new = [1000; 2000; 4000; 5000; 5000]%Z
  ∧ length (getDelaySequence cfg 5 (λ _, 0) new) = 5%nat.
Proof.
  intros cfg.
  assert (exact_parameters cfg 1000%Z 2%Z 5000%Z) as Hexact
    by (unfold exact_parameters; split_and!; (reflexivity || lia)).
  destruct (delay_sequence_is_a_backoff_schedule cfg 5 (λ _, 0) new
              1000%Z 2%Z 5000%Z)
    as (Hlen & _); [reflexivity|exact Hexact|].
  split_and!; [exact Hexact|by vm_compute|exact Hlen].
Defined.

(** [next] called once for every number in [randoms]: the delays it
    returned, and the strategy afterwards. *)
Fixpoint next_times (cfg : Config) (randoms : list Q) (st : State)
  : list Z * State :=
  match randoms with
  | [] => ([], st)
  | r :: rest =>
      let (d, st1) := next cfg r st in
      let (ds, st2) := next_times cfg rest st1 in
      (d :: ds, st2)
  end.

Lemma next_times_spec cfg (randoms : list Q) :
  ∀ st,
    (next_times cfg randoms st).1
    = imap (λ i r, getDelay cfg (Some (attempts st + Z.of_nat i)%Z) r st)
        randoms
    ∧ attempts (next_times cfg randoms st).2
      = (attempts st + Z.of_nat (length randoms))%Z.
Proof.
  induction randoms as [|r rest IH]; intros st; cbn.
  - split; [done|]. change (Z.of_nat 0) with 0%Z. by rewrite Z.add_0_r.
  - destruct (IH {| attempts := (attempts st + 1)%Z |}) as [Hds Hn].
    destruct (next_times cfg rest _) as [ds st2]. cbn in *.
    split.
    + f_equal.
      * unfold getDelay. cbn. by rewrite Z.add_0_r.
      * rewrite Hds. apply imap_ext. intros i x _. cbn.
        unfold getDelay. cbn.
        by replace (attempts st + 1 + Z.of_nat i)%Z
             with (attempts st + Z.of_nat (S i))%Z by lia.
    + rewrite Hn. lia.
Qed.

(** X11.  After [reset], successive calls of [next] return what
    [getDelaySequence] lists, entry by entry, and count the attempts:
    after [k] calls [getAttempts] is [k] and [shouldRetry(max)] holds
    exactly while [k < max]. *)
Theorem next_walks_the_delay_sequence :
  ∀ (cfg : Config) (randoms : list Q) (maxAttempts : Z) (st : State),
    let k := length randoms in
    let result := next_times cfg randoms (reset st) in
    result.1 = getDelaySequence cfg k (λ i, default 0 (randoms !! i)) st
    ∧ getAttempts result.2 = Z.of_nat k
    ∧ (shouldRetry maxAttempts result.2 = true ↔ (Z.of_nat k < maxAttempts)%Z).
Proof.
  intros cfg randoms maxAttempts st k result. subst k result.
  destruct (next_times_spec cfg randoms (reset st)) as [Hds Hn].
  cbn in Hds, Hn. split_and!.
  - rewrite Hds. unfold getDelaySequence.
    apply list_eq. intros i.
    rewrite list_lookup_imap, list_lookup_fmap.
    destruct (randoms !! i) as [r|] eqn:Hr; cbn.
    + rewrite lookup_seq_lt by (by eapply lookup_lt_Some). cbn.
      rewrite Hr. unfold getDelay. cbn. by rewrite Z.add_0_l.
    + rewrite lookup_seq_ge; [done|]. by apply lookup_ge_None.
  - done.
  - unfold shouldRetry. by rewrite bool_decide_eq_true, Hn.
Qed.




End RetryScheduleFacts.

(** ** More on the connection engine *)

Section ConnectionLifecycle.
Import WebSocketManager.

(** What can happen to a manager: a call of [connect] or [disconnect],
    the server's [ready_for_message] frame, the [close] event of the
    transport, the callback of a reconnect timer.  [throws] tells whether
    building the socket fails.  A timer callback is possible at any time:
    that covers a timer whose handle [_scheduleReconnect] has overwritten
    and which no [clearTimeout] reaches any more. *)
Inductive ConnStep :=
| Connect (throws : bool)
| ReadyForMessage
| TransportClosed (random : Q)
| ReconnectTimerFired (throws : bool)
| Disconnect (permanent : bool).

Definition conn_step (s : ConnStep) (st : State) : State :=
  match s with
  | Connect throws => connect throws st
  | ReadyForMessage => _handleReadyForMessage st
  | TransportClosed random => _handleDisconnect random st
  | ReconnectTimerFired throws => reconnect_timer_fires throws st
  | Disconnect permanent => disconnect permanent st
  end.

Definition conn_run (steps : list ConnStep) (st : State) : State :=
  foldl (λ st s, conn_step s st) st steps.

(** No reconnection is scheduled and none will be. *)
Definition stays_down (st : State) : Prop :=
  autoReconnect st = false ∧ status st ≠ reconnecting
  ∧ reconnectTimer st = None.

Lemma stays_down_connect throws st :
  stays_down st → stays_down (connect throws st).
Proof.
  intros (Hauto & Hstatus & Htimer). unfold connect.
  destruct (_ || _); [done|]. by destruct throws.
Qed.

Lemma stays_down_step s st : stays_down st → stays_down (conn_step s st).
Proof.
  intros Hst. pose proof Hst as (Hauto & Hstatus & Htimer).
  destruct s as [throws| |random|throws|permanent]; cbn.
  - by apply stays_down_connect.
  - done.
  - unfold _handleDisconnect. cbn. rewrite Hauto, andb_false_r. done.
  - unfold reconnect_timer_fires. by apply stays_down_connect.
  - unfold disconnect. by destruct permanent.
Qed.

(** X13.  After [disconnect(true)] no reconnection is scheduled any more.
    Whatever happens next (calls of [connect], failing or not, handshakes,
    closes of the transport, callbacks of reconnect timers armed earlier,
    further disconnects): [autoReconnect] stays off, the status is never
    reconnecting and the [reconnectTimer] field stays empty; and a close
    of the transport, in whatever state it finds the manager, only reports
    the disconnection, its two events being the whole of what it emits.
    This does not keep the manager from connecting: [connect] still does,
    and so does the callback of a reconnect timer armed before whose
    handle was lost. *)
Theorem no_reconnect_is_scheduled_after_permanent_disconnect :
  ∀ (steps : list ConnStep) (st : State),
    let st' := conn_run steps (disconnect true st) in
    autoReconnect st' = false
    ∧ status st' ≠ reconnecting
    ∧ reconnectTimer st' = None
    ∧ ∀ random : Q,
        let closed := _handleDisconnect random st' in
        status closed = disconnected
        ∧ reconnectTimer closed = None
        ∧ events closed
          = events st' ++ [CONNECTION_STATUS_CHANGED disconnected; DISCONNECTED].
Proof.
  intros steps st.
  assert (stays_down (disconnect true st)) as Hdown by done.
  revert Hdown. generalize (disconnect true st).
  induction steps as [|s steps IH]; intros st0 Hdown.
  - destruct Hdown as (Hauto & Hstatus & Htimer). cbn.
    split_and!; [done..|]. intros random.
    unfold _handleDisconnect. cbn. rewrite Hauto, andb_false_r. cbn.
    split_and!; [done..|]. by rewrite <-app_assoc.
  - cbn. by apply IH, stays_down_step.
Qed.

(** X14.  The handshake starts the backoff over: when the transport
    closes after a [ready_for_message], with reconnection allowed, the
    reconnect timer is armed with the delay of attempt 0 of the retry
    strategy (the fixed interval when there is none), whatever the number
    of earlier attempts was, and the attempt counter is back at 0. *)
Theorem handshake_resets_backoff :
  ∀ (random : Q) (st : State),
    autoReconnect st = true →
    0 < maxReconnectAttempts st →
    let st' := _handleDisconnect random (_handleReadyForMessage st) in
    status st' = reconnecting
    ∧ reconnectAttempts st' = 0
    ∧ reconnectTimer st'
      = Some match retryStrategy st with
             | Some (cfg, rs) => RetryStrategy.getDelay cfg (Some 0) random rs
             | None => reconnectInterval st
             end
    ∧ pingTimer st' = None.
Proof.
  intros random st Hauto Hmax. cbn.
  unfold _handleDisconnect, _handleReadyForMessage. cbn.
  rewrite Hauto, (bool_decide_eq_true_2 _ Hmax). cbn.
  unfold _scheduleReconnect. cbn.
  by destruct (retryStrategy st) as [[cfg rs]|].
Qed.

Definition fresh_manager : State :=
  {| autoReconnect := true; maxReconnectAttempts := 30;
     reconnectInterval := 3000; pingInterval := 50000; socket := None;
     status := disconnected; reconnectAttempts := 0; reconnectTimer := None;
     pingTimer := None; isRegistered := false;
     retryStrategy :=
       Some (RetryStrategy.make_config
               {| RetryStrategy.opt_baseDelay := None;
                  RetryStrategy.opt_maxDelay := None;
                  RetryStrategy.opt_factor := None;
                  RetryStrategy.opt_jitter := Some false;
                  RetryStrategy.opt_maxJitter := None |},
             RetryStrategy.new);
     events := [] |}.

Lemma handshake_resets_backoff_witness :
  let st :=
    conn_run [Connect false; ReadyForMessage; TransportClosed 0;
              ReconnectTimerFired false; TransportClosed 0;
              ReconnectTimerFired false] fresh_manager in
  let st' := _handleDisconnect 0 (_handleReadyForMessage st) in
  reconnectAttempts st = 2
  ∧ status st' = reconnecting ∧ reconnectAttempts st' = 0
  ∧ reconnectTimer st' = Some 1000.
Proof.
  intros st.
  destruct (handshake_resets_backoff 0 st) as (Hs & Ha & Ht & _);
    [by vm_compute..|].
  split_and!; [by vm_compute|exact Hs|exact Ha|].
  rewrite Ht. by vm_compute.
Defined.

(** The keepalive is armed only while connected, with the configured
    interval. *)
Definition keepalive_ok (st : State) : Prop :=
  pingTimer st = None
  ∨ (pingTimer st = Some (pingInterval st) ∧ status st = connected).

Lemma keepalive_ok_connect throws st :
  keepalive_ok st → keepalive_ok (connect throws st).
Proof.
  intros Hst. unfold connect.
  destruct (bool_decide (status st = connected)) eqn:Hc; [done|].
  destruct (bool_decide (status st = connecting)); [done|]. cbn.
  apply bool_decide_eq_false in Hc.
  destruct Hst as [Hnone|[_ Hconn]]; [|done].
  left. by destruct throws.
Qed.

Lemma keepalive_ok_step s st : keepalive_ok st → keepalive_ok (conn_step s st).
Proof.
  intros Hst. destruct s as [throws| |random|throws|permanent]; cbn.
  - by apply keepalive_ok_connect.
  - by right.
  - left. unfold _handleDisconnect, _scheduleReconnect. cbn.
    repeat case_match; done.
  - unfold reconnect_timer_fires. apply keepalive_ok_connect.
    destruct Hst as [Hnone|[Hsome Hconn]]; [by left|by right].
  - left. unfold disconnect. by destruct permanent.
Qed.

(** X15.  Keepalive pings conn_run only while the connection is up: starting
    with no ping timer, after any sequence of connection attempts,
    handshakes, closes, timer expiries and disconnects, a ping timer is
    armed only in status connected, and then with [pingInterval]. *)
Theorem keepalive_only_while_connected :
  ∀ (steps : list ConnStep) (st : State),
    pingTimer st = None →
    let st' := conn_run steps st in
    pingTimer st' = None
    ∨ (pingTimer st' = Some (pingInterval st') ∧ status st' = connected).
Proof.
  intros steps st Hnone.
  assert (keepalive_ok st) as Hok by (by left).
  clear Hnone. revert st Hok.
  induction steps as [|s steps IH]; intros st Hok; [done|].
  cbn. by apply IH, keepalive_ok_step.
Qed.

Lemma keepalive_witness :
  let up := conn_run [Connect false; ReadyForMessage] fresh_manager in
  let down := conn_run [TransportClosed 0] up in
  (pingTimer up = Some 50000 ∧ status up = connected)
  ∧ pingTimer down = None.
Proof.
  intros up down.
  destruct (keepalive_only_while_connected [Connect false; ReadyForMessage]
              fresh_manager) as [Hnone|[Hsome Hconn]]; [reflexivity| |].
  - discriminate Hnone.
  - split; [split; [exact Hsome|exact Hconn]|reflexivity].
Defined.

End ConnectionLifecycle.

(** ** More on the persistent store *)

Section StoreOperations.
Import StorageManager.
Context {V : Type}.
Implicit Types (st : Storage V) (key : string) (item : Item V).

Lemma getItem_setItem_eq key item st :
  getItem key (setItem key item st) = Some item.
Proof.
  unfold getItem, setItem. case_bool_decide as Hin.
  - induction st as [|[k i] st IH]; [by apply elem_of_nil in Hin|].
    rewrite fmap_cons in *. cbn [fst] in *. case_bool_decide as Hk.
    + by rewrite filter_cons_True.
    + rewrite filter_cons_False by done. apply IH.
      apply elem_of_cons in Hin as [Heq|Hin]; [by destruct Hk|done].
  - rewrite filter_app.
    rewrite (filter_none (λ kv, kv.1 = key) st).
    + by rewrite filter_cons_True.
    + intros [k i] Hkv Hk. cbn in Hk. subst k. apply Hin.
      apply list_elem_of_fmap. by exists (key, i).
Qed.

Lemma getItem_setItem_ne key key' item st :
  key' ≠ key → getItem key' (setItem key item st) = getItem key' st.
Proof.
  intros Hne. unfold getItem, setItem. f_equal. f_equal.
  case_bool_decide as Hin.
  - clear Hin. induction st as [|[k i] st IH]; [done|].
    rewrite fmap_cons. cbn [fst]. case_bool_decide as Hk.
    + subst k. rewrite !filter_cons_False by (cbn; congruence).
      apply IH.
    + destruct (decide (k = key')) as [->|Hk'].
      * rewrite !filter_cons_True by done. by rewrite IH.
      * rewrite !filter_cons_False by done. apply IH.
  - rewrite filter_app, filter_cons_False by (cbn; congruence).
    by rewrite filter_nil, app_nil_r.
Qed.

Lemma getItem_removeItem_eq key st : getItem key (removeItem key st) = None.
Proof.
  unfold getItem, removeItem.
  rewrite (filter_none (λ kv, kv.1 = key)); [done|].
  by intros kv [Hne _]%list_elem_of_filter.
Qed.

Lemma getItem_removeItem_ne key key' st :
  key' ≠ key → getItem key' (removeItem key st) = getItem key' st.
Proof.
  intros Hne. unfold getItem, removeItem. f_equal. f_equal.
  induction st as [|[k i] st IH]; [done|].
  destruct (decide (k = key)) as [->|Hk].
  - rewrite (filter_cons_False (λ kv, kv.1 ≠ key)) by (cbn; tauto).
    rewrite (filter_cons_False (λ kv, kv.1 = key')) by (cbn; congruence).
    apply IH.
  - rewrite (filter_cons_True (λ kv, kv.1 ≠ key)) by done.
    destruct (decide (k = key')) as [->|Hk'].
    + rewrite !filter_cons_True by done. by rewrite IH.
    + rewrite !filter_cons_False by done. apply IH.
Qed.

Lemma string_prefix_app (p s : string) : String.prefix p (p +:+ s) = true.
Proof.
  induction p as [|a p IH]; [by destruct s|].
  change (String a p +:+ s) with (String a (p +:+ s)). cbn.
  by destruct (ascii_dec a a).
Qed.

(** Every key the store works on lies under its prefix, and prefixing
    twice is prefixing once. *)
Lemma prefix_getFullKey key : String.prefix prefix (_getFullKey key) = true.
Proof.
  unfold _getFullKey. destruct (String.prefix prefix key) eqn:Hp; [done|].
  apply string_prefix_app.
Qed.

Lemma getFullKey_idemp key : _getFullKey (_getFullKey key) = _getFullKey key.
Proof.
  unfold _getFullKey at 1. by rewrite prefix_getFullKey.
Qed.

Section Writes.
Variable setItemResult : Storage V → string → Item V → SetItemResult.

(** X16.  What a successful [set] stored is what [get] returns, under
    the key as it was given or under the prefixed key, and [has] agrees;
    a key with another full key reads as before. *)
Theorem get_after_set :
  ∀ (key : string) (value : V) (now : Z) (st : Storage V),
    setItemResult st (_getFullKey key)
      (Envelope (Some version) (Some now) value) = Stored →
    let st' := set setItemResult key value now st in
    get key st' = Some value
    ∧ get (_getFullKey key) st' = Some value
    ∧ has key st' = true
    ∧ ∀ key', _getFullKey key' ≠ _getFullKey key →
              get key' st' = get key' st ∧ has key' st' = has key' st.
Proof.
  intros key value now st Hstored st'. subst st'.
  unfold set. rewrite Hstored.
  assert (get key (setItem (_getFullKey key)
                     (Envelope (Some version) (Some now) value) st)
          = Some value) as Hget.
  { unfold get. by rewrite getItem_setItem_eq. }
  split_and!.
  - done.
  - unfold get in *. by rewrite getFullKey_idemp.
  - unfold has. rewrite getItem_setItem_eq. by apply bool_decide_eq_true.
  - intros key' Hne. unfold get, has.
    by rewrite !getItem_setItem_ne.
Qed.

(** The entries outside the prefix, which belong to others. *)
Definition foreign (st : Storage V) : Storage V :=
  filter (λ kv, String.prefix prefix kv.1 ≠ true) st.

Lemma foreign_removeItem key st :
  String.prefix prefix key = true →
  foreign (removeItem key st) = foreign st.
Proof.
  intros Hp. unfold foreign, removeItem.
  induction st as [|[k i] st IH]; [done|].
  destruct (decide (k = key)) as [->|Hk].
  - rewrite (filter_cons_False (λ kv, kv.1 ≠ key)) by (cbn; tauto).
    rewrite (filter_cons_False _ (key, i)) by (cbn; tauto). apply IH.
  - rewrite (filter_cons_True (λ kv, kv.1 ≠ key)) by done.
    destruct (decide (String.prefix prefix k ≠ true)) as [Hf|Hf].
    + rewrite !(filter_cons_True _ (k, i)) by done. by rewrite IH.
    + rewrite !(filter_cons_False _ (k, i)) by done. apply IH.
Qed.

Lemma foreign_setItem key item st :
  String.prefix prefix key = true →
  foreign (setItem key item st) = foreign st.
Proof.
  intros Hp. unfold foreign, setItem. case_bool_decide as Hin.
  - clear Hin. induction st as [|[k i] st IH]; [done|].
    rewrite fmap_cons. cbn [fst]. case_bool_decide as Hk.
    + subst k.
      rewrite !filter_cons_False by (cbn; tauto). apply IH.
    + destruct (decide (String.prefix prefix k ≠ true)) as [Hf|Hf].
      * rewrite !(filter_cons_True _ (k, i)) by done. by rewrite IH.
      * rewrite !(filter_cons_False _ (k, i)) by done. apply IH.
  - rewrite filter_app, filter_cons_False by (cbn; tauto).
    by rewrite filter_nil, app_nil_r.
Qed.

Lemma foreign_removeItems (ks : list string) :
  ∀ st,
    Forall (λ key, String.prefix prefix key = true) ks →
    foreign (foldl (λ acc key, removeItem key acc) st ks) = foreign st.
Proof.
  induction ks as [|key ks IH]; intros st Hks; [done|].
  apply Forall_cons in Hks as [Hkey Hks]. cbn.
  rewrite (IH _ Hks). by apply foreign_removeItem.
Qed.

Lemma foldl_removeItem_keys (l : Storage V) st :
  foldl (λ acc kv, removeItem kv.1 acc) st l
  = foldl (λ acc key, removeItem key acc) st l.*1.
Proof. revert st. induction l as [|kv l IH]; intros st; [done|]. apply IH. Qed.

(** X17.  The store keeps to its own keys: whatever [set] does (store
    the value, evict entries after a quota error, or give up), and
    whatever [remove] and [clear] are called with, the entries outside the
    prefix stay as they are, in their order. *)
Theorem entries_of_others_are_never_touched :
  ∀ (key : string) (value : V) (now : Z) (st : Storage V),
    foreign (set setItemResult key value now st) = foreign st
    ∧ foreign (remove key st) = foreign st
    ∧ foreign (clear st) = foreign st.
Proof.
  intros key value now st. split_and!.
  - unfold set. destruct (setItemResult _ _ _).
    + apply foreign_setItem, prefix_getFullKey.
    + unfold _handleQuotaExceeded. destruct (existsb _ _); [done|].
      rewrite foldl_removeItem_keys. apply foreign_removeItems.
      apply Forall_forall. intros k Hk.
      apply list_elem_of_fmap in Hk as (kv & -> & Hkv).
      apply elem_of_take in Hkv as (i & Hkv & _).
      apply list_elem_of_lookup_2 in Hkv.
      rewrite sort_by_age_perm in Hkv.
      by apply list_elem_of_filter in Hkv as [Hp _].
    + done.
  - apply foreign_removeItem, prefix_getFullKey.
  - unfold clear. apply foreign_removeItems.
    apply Forall_forall. intros k Hk.
    by apply list_elem_of_filter in Hk as [Hp _].
Qed.

End Writes.

(** X18.  [remove] deletes the entry of its key and no other: the key
    reads as absent afterwards, every key with another full key as
    before. *)
Theorem get_after_remove :
  ∀ (key : string) (st : Storage V),
    get key (remove key st) = None
    ∧ has key (remove key st) = false
    ∧ ∀ key', _getFullKey key' ≠ _getFullKey key →
              get key' (remove key st) = get key' st
              ∧ has key' (remove key st) = has key' st.
Proof.
  intros key st. unfold get, has, remove. split_and!.
  - by rewrite getItem_removeItem_eq.
  - rewrite getItem_removeItem_eq. apply bool_decide_eq_false. by intros [].
  - intros key' Hne. by rewrite !getItem_removeItem_ne.
Qed.

Lemma removeItems_filter (ks : list string) :
  ∀ st,
    foldl (λ acc key, removeItem key acc) st ks
    = filter (λ kv, kv.1 ∉ ks) st.
Proof.
  induction ks as [|key ks IH]; intros st; cbn.
  - symmetry. apply filter_all. intros kv _. apply not_elem_of_nil.
  - rewrite IH. unfold removeItem.
    induction st as [|[k i] st IHst]; [done|].
    destruct (decide (k = key)) as [->|Hk].
    + rewrite (filter_cons_False (λ kv, kv.1 ≠ key)) by (cbn; tauto).
      rewrite (filter_cons_False (λ kv, kv.1 ∉ key :: ks)).
      2:{ cbn. intros Hn. apply Hn. by left. }
      apply IHst.
    + rewrite (filter_cons_True (λ kv, kv.1 ≠ key)) by done.
      destruct (decide (k ∈ ks)) as [Hin|Hin].
      * rewrite (filter_cons_False (λ kv, kv.1 ∉ ks)) by (cbn; tauto).
        rewrite (filter_cons_False (λ kv, kv.1 ∉ key :: ks)).
        2:{ cbn. intros Hn. apply Hn. by right. }
        apply IHst.
      * rewrite (filter_cons_True (λ kv, kv.1 ∉ ks)) by done.
        rewrite (filter_cons_True (λ kv, kv.1 ∉ key :: ks)).
        2:{ cbn. by intros [?|?]%elem_of_cons. }
        by rewrite IHst.
Qed.

Lemma filter_ext_in (P Q : string * Item V → Prop)
  `{∀ x, Decision (P x)} `{∀ x, Decision (Q x)} (l : Storage V) :
  (∀ x, x ∈ l → (P x ↔ Q x)) → filter P l = filter Q l.
Proof.
  induction l as [|x l IH]; intros Hext; [done|].
  assert (filter P l = filter Q l) as Hl.
  { apply IH. intros y Hy. apply Hext. by right. }
  destruct (decide (P x)) as [Hp|Hp].
  - rewrite !filter_cons_True; [by rewrite Hl| |done].
    apply Hext; [by left|done].
  - rewrite !filter_cons_False; [done| |done].
    intros Hq. apply Hp, Hext; [by left|done].
Qed.

(** X19.  [clear] leaves exactly the entries outside the prefix: no key
    of the store is listed any more and every key reads as absent. *)
Theorem clear_removes_all_own_entries :
  ∀ (st : Storage V),
    clear st = filter (λ kv, String.prefix prefix kv.1 ≠ true) st
    ∧ keys (clear st) = []
    ∧ ∀ key, get key (clear st) = None ∧ has key (clear st) = false.
Proof.
  intros st.
  assert (clear st = filter (λ kv, String.prefix prefix kv.1 ≠ true) st)
    as Hclear.
  { unfold clear. rewrite removeItems_filter.
    apply filter_ext_in. intros [k i] Hkv. cbn.
    unfold _getAllKeys. rewrite list_elem_of_filter.
    split.
    - intros Hno Hp. apply Hno. split; [done|].
      apply list_elem_of_fmap. by exists (k, i).
    - by intros Hp [Hp' _]. }
  assert (∀ key, getItem (_getFullKey key) (clear st) = None) as Hnone.
  { intros key. rewrite Hclear. unfold getItem.
    rewrite (filter_none (λ kv, kv.1 = _getFullKey key)); [done|].
    intros [k i] [Hp _]%list_elem_of_filter Hk. cbn in *. subst k.
    by rewrite prefix_getFullKey in Hp. }
  split_and!; [done| |].
  - unfold keys, _getAllKeys. rewrite Hclear.
    assert (filter (λ key, String.prefix prefix key = true)
              (filter (λ kv : string * Item V,
                         String.prefix prefix kv.1 ≠ true) st).*1 = [])
      as ->; [|done].
    clear Hclear Hnone. induction st as [|[k i] st IH]; [done|].
    destruct (decide (String.prefix prefix k ≠ true)) as [Hf|Hf].
    + rewrite (filter_cons_True _ (k, i)) by done.
      rewrite fmap_cons. cbn [fst].
      rewrite filter_cons_False; [exact IH|exact Hf].
    + by rewrite (filter_cons_False _ (k, i)).
  - intros key. unfold get, has. rewrite Hnone. split; [done|].
    apply bool_decide_eq_false. by intros [].
Qed.

End StoreOperations.

Lemma get_after_set_witness :
  let st' := StorageManager.set four_entries "a" "A2" 60 full_store in
  StorageManager.get "a" st' = Some "A2"
  ∧ StorageManager.get "b" st' = Some "B".
Proof.
  intros st'.
  destruct (get_after_set four_entries "a" "A2" 60 full_store)
    as (Hget & _ & _ & Hother); [by vm_compute|].
  split; [exact Hget|].
  destruct (Hother "b") as [Hb _]; [by vm_compute|].
  fold st' in Hb. rewrite Hb. by vm_compute.
Defined.

(** ** More on session identity *)

Section SessionLifecycle.
Import Helpers SessionManager.

Lemma skip_digits_split (s : string) :
  ∃ ds, s = ds +:+ skip_digits s ∧ all_digits ds = true.
Proof.
  induction s as [|a s (ds & Hs & Hds)]; [by exists ""|].
  cbn [skip_digits]. destruct (is_digit a) eqn:Ha.
  - exists (String a ds). split.
    + change (String a ds +:+ skip_digits s)
        with (String a (ds +:+ skip_digits s)). by rewrite <-Hs.
    + cbn. by rewrite Ha.
  - by exists "".
Qed.

Lemma code_at_sign (a : ascii) : (code a =? 64)%N = true → a = "@"%char.
Proof.
  intros Ha%N.eqb_eq. unfold code in Ha.
  rewrite <-(ascii_N_embedding a), Ha. done.
Qed.

(** X20.  The format check [/^\d+@.+$/] accepts exactly the ids made of
    a non-empty run of decimal digits, an at sign, and a non-empty host
    part without line terminator. *)
Theorem session_id_format_is_digits_at_host :
  ∀ (sessionId : string),
    _isValidSessionIdFormat sessionId = true
    ↔ ∃ digits host : string,
        sessionId = digits +:+ "@" +:+ host
        ∧ digits ≠ "" ∧ all_digits digits = true
        ∧ host ≠ "" ∧ has_line_terminator host = false.
Proof.
  intros sessionId. split.
  - unfold _isValidSessionIdFormat.
    destruct sessionId as [|a s] eqn:Hs; [done|]. rewrite <-Hs.
    intros [Ha Hrest]%andb_prop.
    destruct (skip_digits_split sessionId) as (ds & Hsplit & Hds).
    destruct (skip_digits sessionId) as [|at_sign rest]; [done|].
    apply andb_prop in Hrest as [[Hat Hne]%andb_prop Hlt].
    apply code_at_sign in Hat as ->.
    exists ds, rest. split_and!; try done.
    + intros ->. rewrite Hs in Hsplit. injection Hsplit as -> _.
      by vm_compute in Ha.
    + apply negb_true_iff, bool_decide_eq_false in Hne. done.
    + by apply negb_true_iff in Hlt.
  - intros (digits & host & -> & Hne & Hds & Hhost & Hlt).
    destruct digits as [|a ds]; [done|].
    by apply digits_at_host_valid.
Qed.

Lemma generateSessionId_nonempty (clientId : option string) (env : Env) :
  generateSessionId clientId env ≠ "".
Proof.
  unfold generateSessionId.
  by destruct (number_to_string _).
Qed.

Section Manager.
Context {S : Type} `{StorageApi S}.
Implicit Types (st : @State S).

(** What [getOrCreate] leaves in memory. *)
Lemma getOrCreate_session cfg env st :
  ∃ s, session (getOrCreate cfg env st).2 = Some s
       ∧ id s = (getOrCreate cfg env st).1
       ∧ id s ≠ ""
       ∧ ((∀ s0, session st = Some s0 → id s0 = "") →
          lastActivity s = now env
          ∧ storage (getOrCreate cfg env st).2
            = storage_set sessionKey s (now env) (storage st)).
Proof.
  assert (∃ s, session (load_or_create cfg env st).2 = Some s
               ∧ id s = (load_or_create cfg env st).1
               ∧ id s ≠ ""
               ∧ lastActivity s = now env
               ∧ storage (load_or_create cfg env st).2
                 = storage_set sessionKey s (now env) (storage st))
    as Hload.
  { assert (∃ s, session (_createNewSession cfg env st).2 = Some s
                 ∧ id s = (_createNewSession cfg env st).1
                 ∧ id s ≠ ""
                 ∧ lastActivity s = now env
                 ∧ storage (_createNewSession cfg env st).2
                   = storage_set sessionKey s (now env) (storage st))
      as Hnew.
    { unfold _createNewSession, _startAutoClearTimer, _save. cbn.
      eexists. destruct (negb (autoClearCache cfg)); cbn;
        (split_and!; [done|done|apply generateSessionId_nonempty|done|done]). }
    unfold load_or_create.
    destruct (storage_get sessionKey (storage st)) as [stored|]; [|done].
    destruct (_isSessionValid cfg env stored) eqn:Hvalid; [|done].
    apply isSessionValid_spec in Hvalid as (Hid & _).
    unfold _updateLastActivity, _save. cbn. eexists. by split_and!. }
  unfold getOrCreate.
  destruct (session st) as [s0|] eqn:Hs0.
  - case_bool_decide as Hid; cbn.
    + destruct Hload as (s & Hs & Hids & Hne & Hact & Hsto).
      exists s. by split_and!.
    + exists s0. split_and!; try done. intros Hmem. destruct Hid. by apply Hmem.
  - destruct Hload as (s & Hs & Hids & Hne & Hact & Hsto).
    exists s. by split_and!.
Qed.

(** X21.  The identity of a session does not change while it is in
    memory: once [getOrCreate] has returned an id, every later call
    returns the same id and leaves the manager and the store as they
    are. *)
Theorem getOrCreate_is_stable :
  ∀ (cfg : Config) (env env' : Env) (st : State),
    getOrCreate cfg env' (getOrCreate cfg env st).2 = getOrCreate cfg env st.
Proof.
  intros cfg env env' st.
  destruct (getOrCreate_session cfg env st) as (s & Hs & Hid & Hne & _).
  rewrite (getOrCreate_in_memory cfg env' _ s Hs Hne), Hid.
  by destruct (getOrCreate cfg env st).
Qed.

(** The manager a page creates when it is loaded again: same store,
    nothing in memory. *)
Definition reloaded (st : @State S) : @State S :=
  {| storage := storage st; session := None; clearTimer := None |}.

(** X22.  A session survives a reload of the page.  When [getOrCreate]
    has loaded or created a session at a time other than 0 and the write
    to the store went through, a manager started later on the same store,
    less than [contactTimeout] after, finds that session again:
    [getOrCreate] and [restore] both return its id, provided the id has
    the session id format. *)
Theorem session_survives_reload :
  ∀ (cfg : Config) (env env' : Env) (st : State),
    (∀ s, session st = Some s → id s = "") →
    let first := getOrCreate cfg env st in
    storage_get sessionKey (storage first.2) = session first.2 →
    _isValidSessionIdFormat first.1 = true →
    now env ≠ 0 →
    now env' - now env < contactTimeout cfg →
    (getOrCreate cfg env' (reloaded first.2)).1 = first.1
    ∧ id <$> (restore cfg env' (reloaded first.2)).1 = Some first.1.
Proof.
  intros cfg env env' st Hmem first Hstored Hformat Hnow Helapsed.
  destruct (getOrCreate_session cfg env st) as (s & Hs & Hid & Hne & Hrest).
  destruct (Hrest Hmem) as [Hact _]. fold first in Hs, Hid.
  rewrite Hs in Hstored.
  assert (_isSessionValid cfg env' s = true) as Hvalid.
  { apply isSessionValid_spec. rewrite Hid, Hact. by split_and!; [congruence|..]. }
  split.
  - unfold getOrCreate, load_or_create. cbn. by rewrite Hstored, Hvalid.
  - unfold restore. cbn. rewrite Hstored, Hvalid.
    unfold _startAutoClearTimer, _updateLastActivity, _save. cbn.
    destruct (negb (autoClearCache cfg)); cbn; by rewrite Hid.
Qed.

(** X23.  [clear] forgets the session: nothing is left in memory, the
    auto-clear timer is stopped, and once the entry is gone from the store
    [restore] finds nothing and [getOrCreate] makes a new session instead
    of returning the old id. *)
Theorem clear_forgets_the_session :
  ∀ (cfg : Config) (env : Env) (st : State),
    storage_get sessionKey (storage_remove sessionKey (storage st)) = None →
    getSessionId (clear st) = None
    ∧ clearTimer (clear st) = None
    ∧ restore cfg env (clear st) = (None, clear st)
    ∧ (getOrCreate cfg env (clear st)).1 = generateSessionId (clientId cfg) env.
Proof.
  intros cfg env st Hgone. split_and!; [done|done| |].
  - unfold restore. cbn. by rewrite Hgone.
  - unfold getOrCreate, load_or_create. cbn. by rewrite Hgone.
Qed.

End Manager.

End SessionLifecycle.

(** A manager on an empty store. *)
Definition first_visit
  : @SessionManager.State (StorageManager.Storage SessionManager.Session) :=
  {| SessionManager.storage := []; SessionManager.session := None;
     SessionManager.clearTimer := None |}.

Lemma session_survives_reload_witness :
  let first :=
    SessionManager.getOrCreate session_cfg (browser 100000000 "localhost")
      first_visit in
  first.1 = "50000000@localhost"
  ∧ (SessionManager.getOrCreate session_cfg (browser 100500000 "localhost")
       (reloaded first.2)).1 = first.1.
Proof.
  intros first.
  destruct (session_survives_reload session_cfg
              (browser 100000000 "localhost") (browser 100500000 "localhost")
              first_visit)
    as [Hsame _].
  - intros s [=].
  - by vm_compute.
  - by vm_compute.
  - by vm_compute.
  - by vm_compute.
  - split; [by vm_compute|exact Hsame].
Defined.

Lemma clear_forgets_witness :
  let st := store_with_session 99000000 in
  SessionManager.getSessionId (SessionManager.clear st) = None
  ∧ (SessionManager.getOrCreate session_cfg (browser 100000000 "localhost")
       (SessionManager.clear st)).1 = "50000000@localhost".
Proof.
  intros st.
  destruct (clear_forgets_the_session session_cfg
              (browser 100000000 "localhost") st)
    as (Hid & _ & _ & Hnew); [by vm_compute|].
  split; [exact Hid|]. rewrite Hnew. by vm_compute.
Defined.

(** ** More on the conversation log *)

Section ConversationLogOperations.
Import ConversationLog.
Context {Message Store Update : Type}.
Variable storage_set : @Session Message → Z → Store → Store.
Variable message_id : Message → option string.
Variable assign : Message → Update → Message.
Implicit Types (st : @State Message Store) (m : Message).

Lemma Qfloor_shift (z : Z) (x : Q) : Qfloor (inject_Z z + x) = z + Qfloor x.
Proof.
  pose proof (Qfloor_le x) as Hle. pose proof (Qlt_floor x) as Hlt.
  apply Z.le_antisymm.
  - apply Z.lt_succ_r. rewrite Zlt_Qlt.
    pose proof (Qfloor_le (inject_Z z + x)) as Hle'.
    rewrite <-Z.add_1_r, !inject_Z_plus in *. cbn in *. lra.
  - rewrite <-(Qfloor_Z (z + Qfloor x)). apply Qfloor_resp_le.
    rewrite inject_Z_plus. lra.
Qed.

(** The delete count of the splice: the length less the limit rounded
    up. *)
Lemma splice_front_ceiling (q : Qc) (l : list Message) :
  (Qc_of_Z 0 < q)%Qc →
  splice_front q l = drop (length l - Z.to_nat (Qceiling q)) l.
Proof.
  intros Hq. unfold splice_front. f_equal.
  assert (Qfloor (Qc_of_Z (Z.of_nat (length l)) - q)%Qc
          = Z.of_nat (length l) - Qceiling q) as ->.
  { unfold Qceiling.
    rewrite <-Z.add_opp_r, Z.opp_involutive, <-Qfloor_shift.
    apply Qfloor_comp. unfold Qcminus, Qcplus, Qcopp. cbn.
    rewrite !Qred_correct. done. }
  assert (0 < Qceiling q) as Hc.
  { rewrite Zlt_Qlt. eapply Qlt_le_trans; [|apply Qle_ceiling]. exact Hq. }
  lia.
Qed.

(** The limits on which the code computes the delete count of the splice
    exactly: anything that is not a positive number, where there is no
    splice, and the positive multiples of 2^-20 (the integers and the
    halves among them) while the log has fewer than 2^32 messages. *)
Definition exact_limit (limit : Js.value) (messages : nat) : Prop :=
  match limit with
  | Js.Num (Js.Fin q) =>
      (Qc_of_Z 0 < q)%Qc →
      (∃ a : Z, (q * Qc_of_Z (2 ^ 20) = Qc_of_Z a)%Qc)
      ∧ Z.of_nat messages < 2 ^ 32
  | _ => True
  end.

(** X24.  [appendToConversation] beyond integer limits.  A limit that is
    a positive multiple of 2^-20, on a log of fewer than 2^32 messages,
    keeps the last ceil(limit) messages of the old log followed by [m];
    a limit that is no positive number (absent, not a number, NaN, zero or
    negative) keeps everything.  In each of these cases the appended
    message is the last one of the log. *)
Theorem append_trims_to_ceiling_of_limit :
  ∀ (m : Message) (limit : Js.value) (now : Z) (st : State) (s : Session),
    session st = Some s →
    exact_limit limit (length (log st)) →
    let st' := appendToConversation storage_set m limit now st in
    log st'
    = match limit with
      | Js.Num (Js.Fin q) =>
          if bool_decide (Qc_of_Z 0 < q)%Qc
          then drop (length (log st) + 1 - Z.to_nat (Qceiling q))
                 (log st ++ [m])
          else log st ++ [m]
      | _ => log st ++ [m]
      end
    ∧ last (log st') = Some m.
Proof.
  intros m limit now st s Hs _ st'.
  assert (log st'
          = match limit with
            | Js.Num (Js.Fin q) =>
                if bool_decide (Qc_of_Z 0 < q)%Qc
                then drop (length (log st) + 1 - Z.to_nat (Qceiling q))
                       (log st ++ [m])
                else log st ++ [m]
            | _ => log st ++ [m]
            end) as Hlog.
  { subst st'. rewrite (log_appendToConversation _ _ _ _ _ s Hs). cbn zeta.
    destruct limit as [| | |[|q]|]; try done.
    case_bool_decide as Hpos; [|by rewrite andb_false_r].
    assert (Js.truthy (Js.Num (Js.Fin q)) = true) as ->.
    { cbn. apply bool_decide_eq_true. intros ->. by apply Qclt_not_le in Hpos. }
    cbn [andb]. case_bool_decide as Hlt.
    - rewrite splice_front_ceiling by done.
      by rewrite length_app, Nat.add_1_r, Nat.add_1_r.
    - apply Qcnot_lt_le in Hlt.
      assert (Z.of_nat (length (log st ++ [m])) ≤ Qceiling q) as Hge.
      { rewrite <-(Qceiling_Z (Z.of_nat _)). by apply Qceiling_resp_le. }
      rewrite length_app in Hge. cbn in Hge.
      replace (length (log st) + 1 - Z.to_nat (Qceiling q))%nat with 0%nat
        by lia.
      done. }
  split; [done|]. rewrite Hlog.
  assert (∀ n, (0 < n)%nat →
               last (drop (length (log st) + 1 - n) (log st ++ [m])) = Some m)
    as Hdrop.
  { intros n Hn. rewrite drop_app_le by lia. apply last_snoc. }
  destruct limit as [| | |[|q]|]; try apply last_snoc.
  case_bool_decide as Hpos; [|apply last_snoc].
  apply Hdrop.
  assert (0 < Qceiling q); [|lia].
  rewrite Zlt_Qlt. eapply Qlt_le_trans; [|apply Qle_ceiling]. exact Hpos.
Qed.


(** X25.  Every change of the conversation is written to the store:
    after [appendToConversation] and after [setConversation] on a live
    session, the session written last is the one in memory, holding the
    new conversation and the time of the change as its last activity;
    id and creation time are those of the session before. *)
Theorem conversation_changes_are_persisted :
  ∀ (m : Message) (limit : Js.value) (messages : list Message) (now : Z)
    (st : State) (s : Session),
    session st = Some s →
    let appended := appendToConversation storage_set m limit now st in
    let replaced := setConversation storage_set messages now st in
    (∃ s', session appended = Some s'
           ∧ storage appended
             = storage_set s' now (storage_set s' now (storage st))
           ∧ conversation s' = Some (log appended)
           ∧ lastActivity s' = now
           ∧ id s' = id s ∧ createdAt s' = createdAt s)
    ∧ (∃ s', session replaced = Some s'
             ∧ storage replaced
               = storage_set s' now (storage_set s' now (storage st))
             ∧ conversation s' = Some messages
             ∧ lastActivity s' = now
             ∧ id s' = id s ∧ createdAt s' = createdAt s).
Proof.
  intros m limit messages now st s Hs. cbn zeta. split.
  - unfold log, appendToConversation, getConversation. rewrite Hs.
    destruct (conversation s) as [l|]; cbn; rewrite ?Hs; cbn;
      eexists; split_and!; done.
  - unfold setConversation. rewrite Hs. cbn.
    eexists. split_and!; done.
Qed.

Lemma assign_first_none (messageId : string) (update : Update)
  (l : list Message) :
  Forall (λ m, message_id m ≠ Some messageId) l →
  assign_first message_id assign messageId update l = l.
Proof.
  induction 1 as [|m l Hm _ IH]; [done|].
  cbn. rewrite bool_decide_eq_false_2 by done. by rewrite IH.
Qed.

Lemma assign_first_split (messageId : string) (update : Update)
  (before after : list Message) (m : Message) :
  Forall (λ m, message_id m ≠ Some messageId) before →
  message_id m = Some messageId →
  assign_first message_id assign messageId update (before ++ m :: after)
  = before ++ assign m update :: after.
Proof.
  intros Hbefore Hm. induction Hbefore as [|m' l Hm' _ IH]; cbn.
  - by rewrite bool_decide_eq_true_2.
  - rewrite bool_decide_eq_false_2 by done. by rewrite IH.
Qed.

(** X26.  [updateConversation] changes one message at most: the first
    one of the log with the given id gets the update, every other message
    (also a later one with the same id) stays as it is, and with no such
    message the log is unchanged.  The session is written to the store;
    its last activity is not moved. *)
Theorem updateConversation_changes_first_match_only :
  ∀ (messageId : string) (update : Update) (now : Z) (st : State)
    (s : Session),
    session st = Some s →
    let st' := updateConversation storage_set message_id assign
                 messageId update now st in
    (Forall (λ m, message_id m ≠ Some messageId) (log st) →
     log st' = log st)
    ∧ (∀ before m after,
         log st = before ++ m :: after →
         Forall (λ m, message_id m ≠ Some messageId) before →
         message_id m = Some messageId →
         log st' = before ++ assign m update :: after)
    ∧ ∃ s', session st' = Some s'
            ∧ storage st' = storage_set s' now (storage st)
            ∧ conversation s' = Some (log st')
            ∧ lastActivity s' = lastActivity s ∧ id s' = id s.
Proof.
  intros messageId update now st s Hs st'.
  assert (log st'
          = assign_first message_id assign messageId update (log st)
          ∧ ∃ s', session st' = Some s'
                  ∧ storage st' = storage_set s' now (storage st)
                  ∧ conversation s' = Some (log st')
                  ∧ lastActivity s' = lastActivity s ∧ id s' = id s)
    as [Hlog Hsaved].
  { subst st'. unfold log, updateConversation, getConversation. rewrite Hs.
    destruct (conversation s) as [l|]; cbn; rewrite ?Hs; cbn;
      (split; [done|eexists; split_and!; done]). }
  split_and!; [| |done].
  - intros Hnone. rewrite Hlog. by apply assign_first_none.
  - intros before m after Hsplit Hbefore Hm.
    rewrite Hlog, Hsplit. by apply assign_first_split.
Qed.

End ConversationLogOperations.

Lemma append_trims_witness :
  let st' :=
    ConversationLog.appendToConversation slot_set "d"
      (Js.Num (Js.Fin (Q2Qc (3 # 2)))) 5 (chat ["a"; "b"; "c"]) in
  ConversationLog.log st' = ["c"; "d"]
  ∧ last (ConversationLog.log st') = Some "d".
Proof.
  intros st'. subst st'.
  destruct (append_trims_to_ceiling_of_limit slot_set "d"
              (Js.Num (Js.Fin (Q2Qc (3 # 2)))) 5 (chat ["a"; "b"; "c"])
              {| ConversationLog.id := "1@host"; ConversationLog.createdAt := 1;
                 ConversationLog.lastActivity := 1;
                 ConversationLog.lastMessageSentAt := None;
                 ConversationLog.conversation := Some ["a"; "b"; "c"] |})
    as [Hlog Hlast]; [reflexivity| |].
  - intros _. split; [|by vm_compute].
    exists 1572864. apply Qc_is_canon. reflexivity.
  - split; [|exact Hlast]. rewrite Hlog. by vm_compute.
Defined.

Lemma conversation_persisted_witness :
  let appended :=
    ConversationLog.appendToConversation slot_set "c" Js.Undefined 5
      (chat ["a"; "b"]) in
  ConversationLog.storage appended = ConversationLog.session appended
  ∧ ConversationLog.conversation
      <$> ConversationLog.session appended = Some (Some ["a"; "b"; "c"]).
Proof.
  intros appended.
  destruct (conversation_changes_are_persisted slot_set "c" Js.Undefined []
              5 (chat ["a"; "b"])
              {| ConversationLog.id := "1@host"; ConversationLog.createdAt := 1;
                 ConversationLog.lastActivity := 1;
                 ConversationLog.lastMessageSentAt := None;
                 ConversationLog.conversation := Some ["a"; "b"] |})
    as [(s' & Hs' & Hstore & _) _]; [reflexivity|].
  split; [|by vm_compute].
  fold appended in Hs', Hstore. by rewrite Hs', Hstore.
Defined.

(** Messages as pairs of an id and a status; an update sets the status. *)
Definition status_chat (l : list (string * string))
  : @ConversationLog.State (string * string)
      (option (@ConversationLog.Session (string * string))) :=
  {| ConversationLog.storage := None;
     ConversationLog.session :=
       Some {| ConversationLog.id := "1@host"; ConversationLog.createdAt := 1;
               ConversationLog.lastActivity := 1;
               ConversationLog.lastMessageSentAt := None;
               ConversationLog.conversation := Some l |} |}.

Lemma updateConversation_witness :
  let st' :=
    ConversationLog.updateConversation (λ s _ _, Some s)
      (λ m : string * string, Some m.1) (λ m status, (m.1, status))
      "m2" "sent" 9
      (status_chat [("m1", "sent"); ("m2", "pending"); ("m2", "pending")]) in
  ConversationLog.log st'
  = [("m1", "sent"); ("m2", "sent"); ("m2", "pending")].
Proof.
  intros st'.
  destruct (updateConversation_changes_first_match_only (λ s _ _, Some s)
              (λ m : string * string, Some m.1) (λ m status, (m.1, status))
              "m2" "sent" 9
              (status_chat [("m1", "sent"); ("m2", "pending"); ("m2", "pending")])
              {| ConversationLog.id := "1@host"; ConversationLog.createdAt := 1;
                 ConversationLog.lastActivity := 1;
                 ConversationLog.lastMessageSentAt := None;
                 ConversationLog.conversation :=
                   Some [("m1", "sent"); ("m2", "pending"); ("m2", "pending")] |})
    as (_ & Hfirst & _); [reflexivity|].
  apply (Hfirst [("m1", "sent")] ("m2", "pending") [("m2", "pending")]).
  - reflexivity.
  - repeat constructor. by vm_compute.
  - reflexivity.
Defined.

(** ** The history merge *)

Section HistoryMergeFacts.
Import HistoryManager.
Context {Message : Type}.
Variable id ID timestamp : Message → Js.value.

Local Abbreviation key := (key id ID).
Local Abbreviation time := (time timestamp).
Local Abbreviation merge := (merge id ID timestamp).
Local Abbreviation sort_by_time := (sort_by_time timestamp).
Local Abbreviation insert_by_time := (insert_by_time timestamp).
Local Abbreviation add_current := (add_current id ID).
Local Abbreviation add_history := (add_history id ID).
Implicit Types (m x : Message) (k : Js.value) (acc : list (Js.value * Message)).

(** *** The map *)

Lemma map_set_keys k x acc :
  (map_set k x acc).*1 = if bool_decide (k ∈ acc.*1) then acc.*1
                         else acc.*1 ++ [k].
Proof.
  induction acc as [|[k' x'] acc IH]; [done|].
  cbn [map_set]. destruct (decide (k' = k)) as [->|Hk].
  - rewrite (bool_decide_eq_true_2 (k = k)) by done.
    rewrite bool_decide_eq_true_2; [done|]. by left.
  - rewrite (bool_decide_eq_false_2 (k' = k)) by done.
    rewrite !fmap_cons, IH. cbn [fst].
    destruct (decide (k ∈ acc.*1)) as [Hin|Hin].
    + rewrite !bool_decide_eq_true_2; [done|by right|done].
    + rewrite !bool_decide_eq_false_2; [done| |done].
      intros [?|?]%elem_of_cons; [by destruct Hk|done].
Qed.

Lemma map_set_NoDup k x acc : NoDup acc.*1 → NoDup (map_set k x acc).*1.
Proof.
  intros Hnd. rewrite map_set_keys. case_bool_decide as Hin; [done|].
  apply NoDup_app. split_and!; [done| |apply NoDup_singleton].
  by intros k' Hk' ->%list_elem_of_singleton.
Qed.

Lemma map_set_elem k x acc k' x' :
  NoDup acc.*1 →
  (k', x') ∈ map_set k x acc
  ↔ (k' = k ∧ x' = x) ∨ (k' ≠ k ∧ (k', x') ∈ acc).
Proof.
  induction acc as [|[k0 x0] acc IH]; intros Hnd.
  - cbn. rewrite list_elem_of_singleton. split.
    + intros [= -> ->]. by left.
    + intros [[-> ->]|[_ []%elem_of_nil]]. done.
  - apply NoDup_cons in Hnd as [Hk0 Hnd]. cbn [map_set].
    case_bool_decide as Hk.
    + subst k0. rewrite !elem_of_cons. split.
      * intros [[= -> ->]|Hin]; [by left|]. right. split; [|by right].
        intros ->. apply Hk0. apply list_elem_of_fmap. by exists (k, x').
      * intros [[-> ->]|[Hne [[= -> ->]|Hin]]]; [by left|done|by right].
    + rewrite !elem_of_cons, (IH Hnd). split.
      * intros [[= -> ->]|[[-> ->]|[Hne Hin]]].
        -- right. split; [done|by left].
        -- by left.
        -- right. split; [done|by right].
      * intros [[-> ->]|[Hne [[= -> ->]|Hin]]].
        -- right. by left.
        -- by left.
        -- right. right. done.
Qed.

Lemma elem_of_keys k acc : k ∈ acc.*1 ↔ ∃ x, (k, x) ∈ acc.
Proof.
  rewrite list_elem_of_fmap. split.
  - intros ([k' x] & -> & Hin). by exists x.
  - intros (x & Hin). by exists (k, x).
Qed.

(** *** Which message stands for an id *)

(** The last local message with the id, or else the first message of the
    history with it. *)
Definition chosen (historyMessages currentMessages : list Message) k
  : option Message :=
  match last (filter (λ x, key x = k) currentMessages) with
  | Some x => Some x
  | None => head (filter (λ x, key x = k) historyMessages)
  end.

Lemma last_filter_snoc (P : Message → Prop) `{∀ x, Decision (P x)} l x :
  last (filter P (l ++ [x]))
  = if decide (P x) then Some x else last (filter P l).
Proof.
  rewrite filter_app. destruct (decide (P x)) as [Hp|Hp].
  - rewrite (filter_cons_True P) by done. apply last_snoc.
  - rewrite (filter_cons_False P) by done. by rewrite filter_nil, app_nil_r.
Qed.

Lemma head_filter_snoc (P : Message → Prop) `{∀ x, Decision (P x)} l x :
  head (filter P (l ++ [x]))
  = match head (filter P l) with
    | Some y => Some y
    | None => if decide (P x) then Some x else None
    end.
Proof.
  rewrite filter_app. destruct (filter P l) as [|y l'] eqn:Hl; [|done].
  cbn [app head]. destruct (decide (P x)) as [Hp|Hp].
  - by rewrite (filter_cons_True P).
  - by rewrite (filter_cons_False P).
Qed.

Lemma current_map (currentMessages : list Message) :
  let acc := foldl add_current [] currentMessages in
  NoDup acc.*1
  ∧ ∀ k x, (k, x) ∈ acc
           ↔ Js.truthy k = true
             ∧ last (filter (λ y, key y = k) currentMessages) = Some x.
Proof.
  induction currentMessages as [|m l [IHnd IH]] using rev_ind.
  - split; [constructor|]. intros k x. split.
    + by intros ?%elem_of_nil.
    + by intros [_ ?].
  - cbn zeta. rewrite foldl_app. cbn [foldl].
    unfold add_current at 1 3. destruct (Js.truthy (key m)) eqn:Htruthy.
    + split; [by apply map_set_NoDup|]. intros k x.
      rewrite map_set_elem by done. rewrite IH, last_filter_snoc.
      destruct (decide (key m = k)) as [Hk|Hk].
      * split.
        -- intros [[-> ->]|[Hne _]]; [done|by destruct Hne].
        -- intros [_ [= ->]]. by left.
      * split.
        -- intros [[-> _]|[_ ?]]; [by destruct Hk|done].
        -- intros [? ?]. right. split; [congruence|done].
    + split; [done|]. intros k x. rewrite IH, last_filter_snoc.
      destruct (decide (key m = k)) as [Hk|Hk]; [|done].
      subst k. rewrite Htruthy. by split; intros [? ?].
Qed.

Lemma history_map (historyMessages currentMessages : list Message) :
  let acc :=
    foldl add_history (foldl add_current [] currentMessages)
      historyMessages in
  NoDup acc.*1
  ∧ ∀ k x, (k, x) ∈ acc
           ↔ Js.truthy k = true
             ∧ chosen historyMessages currentMessages k = Some x.
Proof.
  induction historyMessages as [|m l [IHnd IH]] using rev_ind.
  - destruct (current_map currentMessages) as [Hnd Hcur].
    split; [done|]. intros k x. cbn [foldl]. rewrite Hcur.
    unfold chosen. cbn.
    by destruct (last (filter (λ y, key y = k) currentMessages)).
  - cbn zeta. rewrite foldl_app. cbn [foldl].
    set (acc := foldl add_history (foldl add_current [] currentMessages) l)
      in *.
    assert (∀ k x, chosen (l ++ [m]) currentMessages k = Some x
                   ↔ chosen l currentMessages k = Some x
                     ∨ (chosen l currentMessages k = None
                        ∧ key m = k ∧ x = m)) as Hchosen.
    { intros k x. unfold chosen. rewrite head_filter_snoc.
      destruct (last (filter (λ y, key y = k) currentMessages)) as [c|].
      { split; [by left|]. by intros [?|[? _]]. }
      destruct (head (filter (λ y, key y = k) l)) as [y|].
      { split; [by left|]. by intros [?|[? _]]. }
      destruct (decide (key m = k)) as [Hk|Hk].
      - split; [intros [= ->]; by right|]. by intros [?|(_ & _ & ->)].
      - split; [done|]. by intros [?|(_ & ? & _)]. }
    unfold add_history at 1 2. destruct (Js.truthy (key m)) eqn:Htruthy.
    + unfold map_has. case_bool_decide as Hin; cbn [negb].
      * split; [done|]. intros k x. rewrite IH, Hchosen.
        split; [intros [? ?]; by split; [|left]|].
        intros [Ht [Hc|(Hnone & Hk & ->)]]; [done|]. subst k.
        apply elem_of_keys in Hin as [x Hx].
        apply IH in Hx as [_ Hx]. congruence.
      * split; [by apply map_set_NoDup|]. intros k x.
        rewrite map_set_elem by done. rewrite IH, Hchosen. split.
        -- intros [[-> ->]|[Hne [Ht Hc]]].
           ++ split; [done|]. right. split; [|done].
              destruct (chosen l currentMessages (key m)) as [y|] eqn:Hy;
                [|done].
              destruct Hin. apply elem_of_keys. exists y. by apply IH.
           ++ split; [done|by left].
        -- intros [Ht [Hc|(Hnone & Hk & ->)]].
           ++ right. split; [|done]. intros ->. apply Hin.
              apply elem_of_keys. exists x. by apply IH.
           ++ by left.
    + split; [done|]. intros k x. rewrite IH, Hchosen.
      split; [intros [? ?]; by split; [|left]|].
      intros [Ht [Hc|(Hnone & Hk & ->)]]; [done|]. congruence.
Qed.

Lemma chosen_key historyMessages currentMessages k x :
  chosen historyMessages currentMessages k = Some x →
  key x = k ∧ (x ∈ currentMessages ∨ x ∈ historyMessages).
Proof.
  unfold chosen.
  destruct (last (filter (λ y, key y = k) currentMessages)) as [c|] eqn:Hc.
  - intros [= ->]. apply last_Some in Hc as [l' Hl'].
    assert (x ∈ filter (λ y, key y = k) currentMessages) as Hx.
    { rewrite Hl'. apply elem_of_app. right. by apply list_elem_of_singleton. }
    apply list_elem_of_filter in Hx as [? ?]. by split; [|left].
  - intros Hh. apply head_Some in Hh as [l' Hl'].
    assert (x ∈ filter (λ y, key y = k) historyMessages) as Hx.
    { rewrite Hl'. by left. }
    apply list_elem_of_filter in Hx as [? ?]. by split; [|right].
Qed.

(** *** The sort *)

Lemma insert_by_time_perm x l : insert_by_time x l ≡ₚ x :: l.
Proof.
  induction l as [|y l IH]; [done|]. cbn.
  case_bool_decide; [done|]. by rewrite IH, Permutation_swap.
Qed.

Lemma sort_by_time_perm l : sort_by_time l ≡ₚ l.
Proof.
  induction l as [|x l IH]; [done|].
  cbn. by rewrite insert_by_time_perm, IH.
Qed.

Lemma insert_by_time_sorted x l :
  StronglySorted (λ a b, time a ≤ time b)%Qc l →
  StronglySorted (λ a b, time a ≤ time b)%Qc (insert_by_time x l).
Proof.
  induction 1 as [|y l Hl IH Hy]; cbn.
  - by repeat constructor.
  - case_bool_decide as Hle.
    + constructor; [by constructor|]. constructor; [done|].
      eapply Forall_impl; [exact Hy|]. intros z Hz. cbn in Hz.
      by eapply Qcle_trans.
    + constructor; [done|].
      rewrite insert_by_time_perm. constructor; [|done].
      apply Qclt_le_weak. by apply Qcnot_le_lt.
Qed.

Lemma sort_by_time_sorted l :
  StronglySorted (λ a b, time a ≤ time b)%Qc (sort_by_time l).
Proof.
  induction l as [|x l IH]; [constructor|].
  cbn. by apply insert_by_time_sorted.
Qed.

Lemma sort_by_time_of_sorted l :
  StronglySorted (λ a b, time a ≤ time b)%Qc l → sort_by_time l = l.
Proof.
  induction 1 as [|x l Hl IH Hx]; [done|].
  change (sort_by_time (x :: l)) with (insert_by_time x (sort_by_time l)).
  rewrite IH. destruct l as [|y l']; [done|].
  cbn. apply Forall_cons in Hx as [Hxy _].
  by rewrite bool_decide_eq_true_2.
Qed.

Lemma values_keys acc :
  (∀ k x, (k, x) ∈ acc → key x = k) → key <$> acc.*2 = acc.*1.
Proof.
  induction acc as [|[k x] acc IH]; intros Hkeys; [done|].
  cbn. rewrite (Hkeys k x) by (by left). f_equal.
  apply IH. intros k' x' Hin. apply Hkeys. by right.
Qed.

Lemma merged_spec (historyMessages currentMessages : list Message) :
  let acc :=
    foldl add_history (foldl add_current [] currentMessages)
      historyMessages in
  (merge historyMessages currentMessages).1 ≡ₚ acc.*2
  ∧ NoDup (key <$> acc.*2)
  ∧ ∀ m, m ∈ acc.*2
         ↔ Js.truthy (key m) = true
           ∧ chosen historyMessages currentMessages (key m) = Some m.
Proof.
  cbn.
  destruct (history_map historyMessages currentMessages) as [Hnd Hmap].
  set (acc := foldl add_history (foldl add_current [] currentMessages)
                historyMessages) in *.
  assert (∀ k x, (k, x) ∈ acc → key x = k) as Hkeys.
  { intros k x [_ Hc]%Hmap. by apply chosen_key in Hc as [? _]. }
  split_and!.
  - apply sort_by_time_perm.
  - by rewrite values_keys.
  - intros m. rewrite list_elem_of_fmap. split.
    + intros ([k x] & -> & Hin). cbn.
      rewrite (Hkeys k x Hin). by apply Hmap.
    + intros Hm. exists (key m, m). split; [done|]. by apply Hmap.
Qed.

(** X27.  The merge keeps one message per id: the merged list has no id
    twice, is in ascending order of timestamp, and holds, for every truthy
    id that occurs, the last local message with that id or, when no local
    message has it, the first message of the history with it.  Messages
    without id are dropped. *)
Theorem merge_keeps_one_message_per_id :
  ∀ (historyMessages currentMessages : list Message),
    let merged := (merge historyMessages currentMessages).1 in
    NoDup (key <$> merged)
    ∧ StronglySorted (λ a b, time a ≤ time b)%Qc merged
    ∧ ∀ m, m ∈ merged
           ↔ Js.truthy (key m) = true
             ∧ chosen historyMessages currentMessages (key m) = Some m.
Proof.
  intros historyMessages currentMessages merged.
  destruct (merged_spec historyMessages currentMessages)
    as (Hperm & Hnd & Hmem).
  fold merged in Hperm. split_and!.
  - by rewrite Hperm.
  - apply sort_by_time_sorted.
  - intros m. by rewrite Hperm.
Qed.

Lemma length_map_set k x acc :
  (length (map_set k x acc) ≤ Datatypes.S (length acc))%nat.
Proof.
  induction acc as [|[k' x'] acc IH]; cbn; [lia|].
  case_bool_decide; cbn; lia.
Qed.

Lemma length_foldl_add (f : list (Js.value * Message) → Message
                            → list (Js.value * Message)) l :
  (∀ acc m, length (f acc m) ≤ Datatypes.S (length acc))%nat →
  ∀ acc, (length (foldl f acc l) ≤ length acc + length l)%nat.
Proof.
  intros Hf. induction l as [|m l IH]; intros acc; cbn; [lia|].
  specialize (IH (f acc m)). specialize (Hf acc m). lia.
Qed.

(** X28.  The merge invents nothing and loses no id: every merged
    message is one of the local or history messages, a local message
    takes precedence over history messages with its id, every truthy id
    of either list is represented, and the counts of the emitted event are
    the lengths of the two lists and of the result, which is no longer
    than both lists together. *)
Theorem merge_prefers_local_and_loses_no_id :
  ∀ (historyMessages currentMessages : list Message),
    let merged := (merge historyMessages currentMessages).1 in
    (∀ m, m ∈ merged → m ∈ currentMessages ∨ m ∈ historyMessages)
    ∧ (∀ m, m ∈ merged → key m ∈ key <$> currentMessages →
            m ∈ currentMessages)
    ∧ (∀ m, m ∈ currentMessages ++ historyMessages →
            Js.truthy (key m) = true → key m ∈ key <$> merged)
    ∧ (length merged ≤ length historyMessages + length currentMessages)%nat
    ∧ (merge historyMessages currentMessages).2
      = HISTORY_MERGED (length historyMessages) (length currentMessages)
          (length merged).
Proof.
  intros historyMessages currentMessages merged.
  destruct (merged_spec historyMessages currentMessages)
    as (Hperm & Hnd & Hmem).
  fold merged in Hperm.
  assert (∀ m, m ∈ merged
               ↔ Js.truthy (key m) = true
                 ∧ chosen historyMessages currentMessages (key m) = Some m)
    as Hspec.
  { intros m. by rewrite Hperm. }
  split_and!.
  - intros m [_ Hc]%Hspec. by apply chosen_key in Hc as [_ ?].
  - intros m [_ Hc]%Hspec Hlocal. unfold chosen in Hc.
    destruct (last (filter (λ y, key y = key m) currentMessages))
      as [x|] eqn:Hlast.
    + injection Hc as ->. apply last_Some in Hlast as [l' Hl'].
      assert (m ∈ filter (λ y, key y = key m) currentMessages) as Hx.
      { rewrite Hl'. apply elem_of_app. right.
        by apply list_elem_of_singleton. }
      by apply list_elem_of_filter in Hx as [_ ?].
    + apply last_None in Hlast.
      apply list_elem_of_fmap in Hlocal as (c & Hkey & Hin).
      assert (c ∈ filter (λ y, key y = key m) currentMessages) as Hx
        by (by apply list_elem_of_filter).
      rewrite Hlast in Hx. by apply elem_of_nil in Hx.
  - intros m Hin Htruthy.
    assert (∃ x, chosen historyMessages currentMessages (key m) = Some x)
      as [x Hx].
    { unfold chosen.
      destruct (last (filter (λ y, key y = key m) currentMessages))
        as [x|] eqn:Hlast; [by exists x|].
      apply last_None in Hlast.
      destruct (head (filter (λ y, key y = key m) historyMessages))
        as [x|] eqn:Hhead; [by exists x|].
      apply head_None in Hhead.
      apply elem_of_app in Hin as [Hin|Hin].
      - assert (m ∈ filter (λ y, key y = key m) currentMessages) as Hm
          by (by apply list_elem_of_filter).
        rewrite Hlast in Hm. by apply elem_of_nil in Hm.
      - assert (m ∈ filter (λ y, key y = key m) historyMessages) as Hm
          by (by apply list_elem_of_filter).
        rewrite Hhead in Hm. by apply elem_of_nil in Hm. }
    pose proof (chosen_key _ _ _ _ Hx) as [Hkey _].
    apply list_elem_of_fmap. exists x. split; [done|].
    apply Hspec. by rewrite Hkey.
  - rewrite Hperm, length_fmap.
    etrans; [apply length_foldl_add|].
    + intros acc m. unfold HistoryManager.add_history.
      repeat case_match; try lia. apply length_map_set.
    + pose proof (length_foldl_add add_current currentMessages) as Hcur.
      specialize (Hcur ltac:(intros acc m; unfold HistoryManager.add_current;
                             case_match; [apply length_map_set|lia]) []).
      cbn in Hcur. lia.
  - done.
Qed.

Lemma map_set_fresh k x acc : k ∉ acc.*1 → map_set k x acc = acc ++ [(k, x)].
Proof.
  induction acc as [|[k' x'] acc IH]; intros Hk; [done|].
  cbn. rewrite bool_decide_eq_false_2.
  - rewrite IH; [done|]. intros Hin. apply Hk. by right.
  - intros ->. apply Hk. by left.
Qed.

Lemma add_current_fresh l :
  ∀ acc,
    NoDup (acc.*1 ++ (key <$> l)) →
    Forall (λ m, Js.truthy (key m) = true) l →
    foldl add_current acc l = acc ++ ((λ m, (key m, m)) <$> l).
Proof.
  induction l as [|m l IH]; intros acc Hnd Htruthy.
  - by rewrite app_nil_r.
  - apply Forall_cons in Htruthy as [Hm Htruthy]. cbn [foldl].
    unfold HistoryManager.add_current at 2. rewrite Hm.
    rewrite fmap_cons in Hnd.
    rewrite map_set_fresh.
    2:{ apply NoDup_app in Hnd as (_ & Hdisj & _). intros Hin.
        apply (Hdisj _ Hin). by left. }
    rewrite IH; [|by rewrite fmap_app, <-app_assoc|done].
    by rewrite <-app_assoc.
Qed.

Lemma add_history_known l :
  ∀ acc,
    (∀ m, m ∈ l → Js.truthy (key m) = true → key m ∈ acc.*1) →
    foldl add_history acc l = acc.
Proof.
  induction l as [|m l IH]; intros acc Hknown; [done|].
  cbn [foldl].
  assert (add_history acc m = acc) as ->.
  { unfold HistoryManager.add_history, map_has.
    destruct (Js.truthy (key m)) eqn:Hm; [|done].
    rewrite bool_decide_eq_true_2; [done|]. apply Hknown; [by left|done]. }
  apply IH. intros m' Hm'. apply Hknown. by right.
Qed.

(** X29.  Merging the same page of history once more changes nothing:
    the merge of a history with the result of merging it is that
    result. *)
Theorem merge_is_idempotent :
  ∀ (historyMessages currentMessages : list Message),
    let merged := (merge historyMessages currentMessages).1 in
    (merge historyMessages merged).1 = merged.
Proof.
  intros historyMessages currentMessages merged.
  destruct (merged_spec historyMessages currentMessages)
    as (Hperm & Hnd & Hmem).
  fold merged in Hperm.
  assert (StronglySorted (λ a b, time a ≤ time b)%Qc merged) as Hsorted
    by apply sort_by_time_sorted.
  clearbody merged.
  assert (foldl add_current [] merged = (λ m, (key m, m)) <$> merged)
    as Hcurrent.
  { rewrite add_current_fresh; [done| |].
    - cbn. by rewrite Hperm.
    - apply Forall_forall. intros m Hm. rewrite Hperm in Hm.
      by apply Hmem in Hm as [? _]. }
  assert (((λ m, (key m, m)) <$> merged).*1 = key <$> merged) as Hkeys.
  { rewrite <-list_fmap_compose. by apply list_fmap_ext. }
  assert (((λ m, (key m, m)) <$> merged).*2 = merged) as Hvalues.
  { rewrite <-list_fmap_compose. rewrite <-(list_fmap_id merged) at 2.
    by apply list_fmap_ext. }
  unfold HistoryManager.merge. cbn [fst].
  rewrite Hcurrent, add_history_known.
  - rewrite Hvalues. by apply sort_by_time_of_sorted.
  - intros m Hm Htruthy. rewrite Hkeys.
    assert (∃ x, chosen historyMessages currentMessages (key m) = Some x)
      as [x Hx].
    { unfold chosen.
      destruct (last (filter (λ y, key y = key m) currentMessages))
        as [x|]; [by exists x|].
      destruct (head (filter (λ y, key y = key m) historyMessages))
        as [x|] eqn:Hhead; [by exists x|].
      apply head_None in Hhead.
      assert (m ∈ filter (λ y, key y = key m) historyMessages) as Hin
        by (by apply list_elem_of_filter).
      rewrite Hhead in Hin. by apply elem_of_nil in Hin. }
    pose proof (chosen_key _ _ _ _ Hx) as [Hkey _].
    apply list_elem_of_fmap. exists x. split; [done|].
    rewrite Hperm. apply Hmem. by rewrite Hkey.
Qed.

(** *** Inserting one message *)

Lemma first_later_spec (t : Qc) (messages : list Message) :
  let i := first_later timestamp t messages in
  (i ≤ length messages)%nat
  ∧ Forall (λ m, (time m ≤ t)%Qc) (take i messages)
  ∧ match messages !! i with
    | Some m => (t < time m)%Qc
    | None => i = length messages
    end.
Proof.
  induction messages as [|m l (Hlen & Hbefore & Hat)]; cbn.
  - by split_and!.
  - case_bool_decide as Hlt; cbn.
    + split_and!; [lia|done|done].
    + split_and!; [lia| |].
      * constructor; [by apply Qcnot_lt_le|done].
      * destruct (l !! _); [done|]. by rewrite Hat.
Qed.

(** X30.  [findInsertionPosition] in a list in ascending order of
    timestamp returns the position behind the last message that is not
    later than the new one: no message before it is later, every message
    from it on is, and the list with the new message put in at that
    position is again in ascending order.  A new message without
    timestamp is placed by the current time. *)
Theorem insertion_position_keeps_order :
  ∀ (now : Z) (newMessage : Message) (messages : list Message),
    StronglySorted (λ a b, time a ≤ time b)%Qc messages →
    let i := findInsertionPosition timestamp now newMessage messages in
    let t := if Js.truthy (timestamp newMessage) then time newMessage
             else Qc_of_Z now in
    (i ≤ length messages)%nat
    ∧ Forall (λ m, (time m ≤ t)%Qc) (take i messages)
    ∧ Forall (λ m, (t < time m)%Qc) (drop i messages)
    ∧ (Js.truthy (timestamp newMessage) = true →
       StronglySorted (λ a b, time a ≤ time b)%Qc
         (take i messages ++ newMessage :: drop i messages)).
Proof.
  intros now newMessage messages Hsorted i t.
  destruct (first_later_spec t messages) as (Hlen & Hbefore & Hat).
  change (first_later timestamp t messages) with i in Hlen, Hbefore, Hat.
  clearbody i.
  assert (Forall (λ m, (t < time m)%Qc) (drop i messages)) as Hafter.
  { destruct (messages !! i) as [m|] eqn:Hm.
    - rewrite (drop_S _ _ _ Hm).
      pose proof Hsorted as Hs. rewrite <-(take_drop i messages) in Hs.
      apply StronglySorted_app_1_r in Hs. rewrite (drop_S _ _ _ Hm) in Hs.
      apply StronglySorted_inv in Hs as [_ Hrest].
      constructor; [done|].
      eapply Forall_impl; [exact Hrest|]. intros z Hz. cbn in Hz.
      by eapply Qclt_le_trans.
    - rewrite Hat, drop_all. constructor. }
  split_and!; try done.
  intros Htruthy. subst t. rewrite Htruthy in *.
  rewrite <-(take_drop i messages) in Hsorted.
  apply StronglySorted_app_2.
  - intros a b Ha Hb. apply elem_of_cons in Hb as [->|Hb].
    + by apply (proj1 (Forall_forall _ _) Hbefore).
    + eapply Qcle_trans; [by apply (proj1 (Forall_forall _ _) Hbefore)|].
      apply Qclt_le_weak. by apply (proj1 (Forall_forall _ _) Hafter).
  - by apply StronglySorted_app_1_l in Hsorted.
  - constructor; [by apply StronglySorted_app_1_r in Hsorted|].
    eapply Forall_impl; [exact Hafter|]. intros z Hz. by apply Qclt_le_weak.
Qed.

End HistoryMergeFacts.

(** Messages as pairs of an id and a timestamp. *)
Definition stamped_id (m : string * Z) : Js.value := Js.Str m.1.
Definition stamped_ID (m : string * Z) : Js.value := Js.Undefined.
Definition stamped_timestamp (m : string * Z) : Js.value := Js.int m.2.

Lemma insertion_position_witness :
  let messages := [("a", 10); ("b", 30)] in
  let i :=
    HistoryManager.findInsertionPosition stamped_timestamp 0 ("c", 20)
      messages in
  i = 1%nat
  ∧ StronglySorted
      (λ a b, (HistoryManager.time stamped_timestamp a
               ≤ HistoryManager.time stamped_timestamp b)%Qc)
      (take i messages ++ ("c", 20) :: drop i messages).
Proof.
  intros messages i.
  destruct (insertion_position_keeps_order stamped_timestamp 0 ("c", 20)
              messages) as (_ & _ & _ & Hsorted).
  - repeat constructor. by vm_compute.
  - split; [reflexivity|]. by apply Hsorted.
Defined.

(** The history page [h1], [h2], [h3] merged into the local messages
    [h2] (a newer copy) and [m4]. *)
Example merge_example :
  (HistoryManager.merge stamped_id stamped_ID stamped_timestamp
     [("h1", 10); ("h2", 20); ("h3", 30)] [("h2", 25); ("m4", 15)]).1
  = [("h1", 10); ("m4", 15); ("h2", 25); ("h3", 30)].
Proof. by vm_compute. Qed.
